(** * floorref: the search of [assets/js/site.js] and the build scripts

    A shallow embedding of [normalize], [levenshtein], [overlapScore],
    [searchIndex] and [getDidYouMeanSuggestions], and the properties of
    the search specification checked against it.  Then the rest of the
    search box ([loadSiteIndex], the input listener, [renderResults],
    [bestKeywordSnippet], [escapeHtml]), the menu toggle, and the parts of
    the build scripts that compute on strings and lists: the tokens and
    keywords of the index builder, [decodeEntities], [fileToUrl],
    [normalizePath], [buildTopPages], [stripQueryAndHash], the escapers
    and the URLs of the sitemap.

    Modelling choices.
    - A JavaScript string is the list of its code units.  The model covers
      the code units U+0000..U+00FF, one [ascii] each; on these
      [toLowerCase], the regular-expression class [\s] and [trim] are
      written out exactly.
    - A JavaScript number that holds a count, an index or a rank score is
      an integer ([nat] or [Z]).  The scores of the suggestion engine are
      binary64 doubles, the primitive [float] with the division, the
      addition, the subtraction and the comparisons of IEEE 754.  The
      value of [overlapScore] is kept as the fraction of its two counts
      (a [number]: an exact rational, an infinity or [NaN]) and becomes a
      double where the suggestion engine adds to it; the view counts of
      the top pages are [number]s.
    - An access that JavaScript answers with [undefined] (a read past the
      end of an array or string) or with a [TypeError] makes the modelled
      function return [None].
    - [Array.prototype.sort] is the stable insertion sort driven by the
      comparator; [String.prototype.localeCompare] and [Number] are
      parameters of the functions that call them.
    - A [Set] and a [Map] are the lists of their members and entries in
      the order of insertion.
    - Of the page, the network and the session storage the model has the
      values that the functions read and write; of a file, its path
      relative to the root of the site.

    The file has the model first, then the definitions that the
    statements need, then the proofs. *)

From Corelib Require Import PrimFloat.
From Corelib Require SpecFloat FloatOps FloatAxioms.
From Stdlib Require Uint63.
From Stdlib Require Import ZArith QArith Lqa Ascii String List Permutation Sorted Lia Bool.
From stdpp Require Import base option list.

Close Scope Q_scope.
Close Scope string_scope.
Open Scope nat_scope.

(** A decimal literal of a double stands for the double nearest to it,
    as it does in JavaScript. *)
Set Warnings "-inexact-float".

(** * The model *)

(** ** Strings *)

Abbreviation str := (list ascii).

(** [lit "abc"] is the JavaScript string literal ["abc"]. *)
Definition lit (s : String.string) : str := list_ascii_of_string s.

Definition code (c : ascii) : nat := nat_of_ascii c.

Definition between (lo hi n : nat) : bool := (lo <=? n) && (n <=? hi).

(** The class [\s] (and what [trim] strips): TAB, LF, VT, FF, CR, SPACE
    and, in the Latin-1 range, NO-BREAK SPACE. *)
Definition is_space (c : ascii) : bool :=
  between 9 13 (code c) || (code c =? 32) || (code c =? 160).

(** The class [[a-z0-9]]. *)
Definition is_alnum (c : ascii) : bool :=
  between 97 122 (code c) || between 48 57 (code c).

Definition space : ascii := ascii_of_nat 32.

(** [String.prototype.toLowerCase] on one code unit: A-Z, and the Latin-1
    capitals U+00C0..U+00DE except the multiplication sign U+00D7. *)
Definition lower_char (c : ascii) : ascii :=
  let n := code c in
  if between 65 90 n then ascii_of_nat (n + 32)
  else if between 192 222 n && negb (n =? 215) then ascii_of_nat (n + 32)
  else c.

Definition toLowerCase (s : str) : str := map lower_char s.

(** [s.startsWith(t)] *)
Fixpoint startsWith (s t : str) {struct t} : bool :=
  match t, s with
  | [], _ => true
  | _ :: _, [] => false
  | b :: t', a :: s' => Ascii.eqb a b && startsWith s' t'
  end.

(** [s.includes(t)]: [t] occurs in [s] at some position. *)
Fixpoint includes (s t : str) : bool :=
  startsWith s t ||
  match s with
  | [] => false
  | _ :: s' => includes s' t
  end.

(** [s.split(sep)] for a one-character separator. *)
Fixpoint split (sep : ascii) (s : str) : list str :=
  match s with
  | [] => [[]]
  | c :: s' =>
      if Ascii.eqb c sep then [] :: split sep s'
      else match split sep s' with
           | w :: ws => (c :: w) :: ws
           | [] => [[c]]
           end
  end.

(** [s.split(/\s+/)]: the separators are the maximal runs of white space;
    [in_sep] says that the previous character belonged to one. *)
Fixpoint split_ws_from (in_sep : bool) (s : str) : list str :=
  match s with
  | [] => [[]]
  | c :: s' =>
      if is_space c then
        if in_sep then split_ws_from true s' else [] :: split_ws_from true s'
      else match split_ws_from false s' with
           | w :: ws => (c :: w) :: ws
           | [] => [[c]]
           end
  end.

Definition split_ws (s : str) : list str := split_ws_from false s.

(** [Boolean(w)] for a string: the empty string is falsy. *)
Definition truthy (w : str) : bool :=
  match w with [] => false | _ :: _ => true end.

(** [parts.join(sep)] *)
Fixpoint join (sep : str) (parts : list str) : str :=
  match parts with
  | [] => []
  | [w] => w
  | w :: ws => w ++ sep ++ join sep ws
  end.

Fixpoint trimStart (s : str) : str :=
  match s with
  | [] => []
  | c :: s' => if is_space c then trimStart s' else s
  end.

Fixpoint trimEnd (s : str) : str :=
  match s with
  | [] => []
  | c :: s' =>
      match trimEnd s' with
      | [] => if is_space c then [] else [c]
      | r => c :: r
      end
  end.

(** [s.trim()] *)
Definition trim (s : str) : str := trimEnd (trimStart s).

(** [s.replace(/[^a-z0-9\s]/g, " ")] *)
Definition blank_other (s : str) : str :=
  map (fun c => if is_alnum c || is_space c then c else space) s.

(** [s.replace(/\s+/g, " ")]: every maximal run of white space becomes one
    space; [in_run] says that the previous character belonged to a run. *)
Fixpoint collapse_from (in_run : bool) (s : str) : str :=
  match s with
  | [] => []
  | c :: s' =>
      if is_space c then
        if in_run then collapse_from true s' else space :: collapse_from true s'
      else c :: collapse_from false s'
  end.

Definition collapse_ws (s : str) : str := collapse_from false s.

(** ** [normalize] (site.js, lines 333-339)

    [String(str || "")] is the identity on strings. *)
Definition normalize (s : str) : str :=
  trim (collapse_ws (blank_other (toLowerCase s))).

(** ** Numbers

    The numbers of [overlapScore] and of the report of page views: an
    exact rational, an infinity or [NaN].  The scores of the suggestions
    are doubles, see [binary64] below. *)

Inductive number : Type :=
  | NaN
  | Infinity (negative : bool)
  | Num (q : Q).

(** [a / b] for two counts. *)
Definition div_counts (a b : nat) : number :=
  match b, a with
  | O, O => NaN
  | O, S _ => Infinity false
  | S _, _ => Num (Z.of_nat a # Pos.of_nat b)
  end.

Definition num_add (x y : number) : number :=
  match x, y with
  | NaN, _ | _, NaN => NaN
  | Infinity s, Infinity s' => if Bool.eqb s s' then Infinity s else NaN
  | Infinity s, Num _ | Num _, Infinity s => Infinity s
  | Num a, Num b => Num (a + b)%Q
  end.

Definition num_opp (x : number) : number :=
  match x with
  | NaN => NaN
  | Infinity s => Infinity (negb s)
  | Num a => Num (- a)%Q
  end.

Definition num_sub (x y : number) : number := num_add x (num_opp y).

(** [x >= y] *)
Definition num_ge (x y : number) : bool :=
  match x, y with
  | NaN, _ | _, NaN => false
  | Infinity s, Infinity s' => implb s s'
  | Infinity s, Num _ => negb s
  | Num _, Infinity s => s
  | Num a, Num b => Qle_bool b a
  end.

(** [x > 0] *)
Definition num_pos (x : number) : bool :=
  match x with
  | NaN => false
  | Infinity s => negb s
  | Num a => negb (Qle_bool a 0)
  end.

(** ** [Array.prototype.sort]

    [sort] is stable, and for a consistent comparator the order it
    produces is determined ([sort_unique] below): the model is the stable
    insertion sort.  [after x y] stands for [comparefn(x, y) > 0], "x
    sorts after y". *)
Section Sort.
Context {A : Type} (after : A -> A -> bool).

Fixpoint sort_insert (x : A) (l : list A) : list A :=
  match l with
  | [] => [x]
  | y :: l' => if after x y then y :: sort_insert x l' else x :: l
  end.

Definition sort (l : list A) : list A := foldr sort_insert [] l.

End Sort.


(** ** [levenshtein] (site.js, lines 342-364)

    [dp] is an array of [m + 1] rows, each a fresh array of [n + 1]
    numbers ([Array.from] calls its callback once per row, so no two rows
    are the same object). *)
Abbreviation matrix := (list (list nat)).

(** [dp[i][j]] *)
Definition mget (dp : matrix) (i j : nat) : option nat :=
  row ← dp !! i; row !! j.

(** [dp[i][j] = v].  A write past the end of a row would grow the row in
    JavaScript and leave holes in it; like the other accesses out of range
    it is reported as [None]. *)
Definition mset (dp : matrix) (i j v : nat) : option matrix :=
  row ← dp !! i;
  if decide (j < length row) then Some (<[i := <[j := v]> row]> dp) else None.

(** [for (const i of range) state = body(i, state)], any failure ending
    the loop. *)
Fixpoint for_each {S : Type} (range : list nat)
    (body : nat -> S -> option S) (s : S) : option S :=
  match range with
  | [] => Some s
  | i :: range' => s' ← body i s; for_each range' body s'
  end.

(** The body of the inner loop: [dp[i][j] = Math.min(...)]. *)
Definition lev_cell (a b : str) (i j : nat) (dp : matrix) : option matrix :=
  ai ← a !! (i - 1);
  bj ← b !! (j - 1);
  let cost := if Ascii.eqb ai bj then 0 else 1 in
  up ← mget dp (i - 1) j;
  left ← mget dp i (j - 1);
  diag ← mget dp (i - 1) (j - 1);
  mset dp i j (Nat.min (up + 1) (Nat.min (left + 1) (diag + cost))).

(** The table when the loops are done (lines 347-362), for normalized
    [a] and [b]. *)
Definition lev_table (a b : str) : option matrix :=
  let m := length a in
  let n := length b in
  let dp := replicate (m + 1) (replicate (n + 1) 0) in
  dp ← for_each (seq 0 (m + 1)) (fun i dp => mset dp i 0 i) dp;
  dp ← for_each (seq 0 (n + 1)) (fun j dp => mset dp 0 j j) dp;
  for_each (seq 1 m) (fun i dp =>
    for_each (seq 1 n) (fun j dp => lev_cell a b i j dp) dp) dp.

Definition levenshtein (a b : str) : option nat :=
  let a := normalize a in
  let b := normalize b in
  if negb (truthy a) || negb (truthy b) then Some (Nat.max (length a) (length b))
  else
    dp ← lev_table a b;
    mget dp (length a) (length b).

(** ** [overlapScore] (site.js, lines 390-400) *)

Definition words (s : str) : list str :=
  List.filter truthy (split space (normalize s)).

(** [hWords.some(hw => hw.includes(w) || w.includes(hw))] *)
Definition word_hits (hWords : list str) (w : str) : bool :=
  existsb (fun hw => includes hw w || includes w hw) hWords.

Definition overlapScore (q hay : str) : number :=
  let qWords := words q in
  let hWords := words hay in
  if (length qWords =? 0) || (length hWords =? 0) then Num 0
  else
    let hits :=
      fold_left (fun hits w => if word_hits hWords w then hits + 1 else hits)
                qWords 0 in
    div_counts hits (Nat.max (length qWords) (length hWords)).

(** ** The index *)

(** An entry of [search-index.json]; [snippet] and [keywords] are optional
    ([None] is a missing field). *)
Record IndexEntry : Type := {
  title : str;
  url : str;
  snippet : option str;
  keywords : option (list str)
}.

(** [{ ...item, __score: score }] *)
Record ScoredEntry : Type := {
  entry : IndexEntry;
  __score : Z
}.

(** [item.keywords || []] *)
Definition keywords_of (item : IndexEntry) : list str :=
  default [] (keywords item).

(** ** [searchIndex] (site.js, lines 238-264) *)

(** The body of the [map] callback.  The source's locals [title], [url]
    and [keywords] are [title_lc], [url_lc] and [keywords_lc] here. *)
Definition score_item (query : str) (item : IndexEntry) : ScoredEntry :=
  let q := toLowerCase query in
  let title_lc := toLowerCase (title item) in
  let url_lc := toLowerCase (url item) in
  let keywords_lc := map toLowerCase (keywords_of item) in
  let score := 0%Z in
  let score := if includes title_lc q then (score + 4)%Z else score in
  let score :=
    if existsb (fun k => includes k q) keywords_lc then (score + 3)%Z else score in
  let score := if includes url_lc q then (score + 1)%Z else score in
  let qTokens := List.filter truthy (split_ws (normalize query)) in
  let score :=
    if 0 <? length qTokens then
      let hay := toLowerCase (join [space] (title item :: keywords_of item)) in
      let tokenHits := length (List.filter (fun t => includes hay t) qTokens) in
      (score + Z.min 2 (Z.of_nat tokenHits))%Z
    else score in
  {| entry := item; __score := score |}.

Section Rank.

(** [String.prototype.localeCompare]: the host's collation, negative,
    zero or positive. *)
Variable localeCompare : str -> str -> Z.

(** [b.__score - a.__score || a.title.localeCompare(b.title)] *)
Definition rank_compare (a b : ScoredEntry) : Z :=
  let d := (__score b - __score a)%Z in
  if (d =? 0)%Z then localeCompare (title (entry a)) (title (entry b)) else d.

Definition searchIndex (index : list IndexEntry) (query : str) : list ScoredEntry :=
  sort (fun a b => (0 <? rank_compare a b)%Z)
       (List.filter (fun x => (0 <? __score x)%Z)
                    (map (score_item query) index)).

End Rank.

(** ** [getDidYouMeanSuggestions] (site.js, lines 366-388) *)

(** [{ item, score }]; the score is a double. *)
Record Suggestion : Type := {
  item : IndexEntry;
  score : float
}.

(** The double that JavaScript has for a count: a count is below 2^53,
    where the conversion is exact. *)
Definition double_of_count (n : Z) : float := of_uint63 (Uint63.of_Z n).

(** The double behind a value of [overlapScore]: the function returns
    [hits / max] as the fraction [hits # max], not reduced, and the
    double is the quotient of the two counts, rounded once. *)
Definition binary64 (x : number) : float :=
  match x with
  | NaN => nan
  | Infinity negative => if negative then neg_infinity else infinity
  | Num q => (double_of_count (Qnum q) / double_of_count (Zpos (Qden q)))%float
  end.

(** The literals are the doubles nearest to them. *)
Definition typo_bonus (dist : nat) : float :=
  if dist <=? 2 then 0.25%float else if dist <=? 3 then 0.15%float else 0%float.

(** The body of the [map] callback, given [q = normalize(query)].  A
    distance that is not a number ends the model's run with [None].  The
    sum is the addition of doubles. *)
Definition suggest_item (q : str) (it : IndexEntry) : option Suggestion :=
  let title := title it in
  let keywords := join [space] (keywords_of it) in
  let hay := trim (title ++ [space] ++ keywords) in
  let overlap := binary64 (overlapScore q hay) in
  dist ← levenshtein q title;
  let typoBonus := typo_bonus dist in
  let score := (overlap + typoBonus)%float in
  Some {| item := it; score := score |}.

(** [limit] is [None] when the caller leaves the argument out.  The
    filter and the comparison function work on doubles: [x.score >= 0.35]
    and [b.score - a.score], which sorts [a] after [b] when it is above
    zero. *)
Definition getDidYouMeanSuggestions (index : list IndexEntry) (query : str)
    (limit : option nat) : option (list IndexEntry) :=
  let limit := default 3 limit in
  let q := normalize query in
  if length q <? 2 then Some []
  else
    scored ← mapM (suggest_item q) index;
    Some (map item
            (take limit
               (sort (fun a b => (0 <? score b - score a)%float)
                     (List.filter (fun x => (0.35 <=? score x)%float) scored)))).

(** * More of [site.js]: the menu, rendering and the search box *)

(** [s === t] on strings. *)
Fixpoint str_eqb (s t : str) : bool :=
  match s, t with
  | [], [] => true
  | a :: s', b :: t' => Ascii.eqb a b && str_eqb s' t'
  | _, _ => false
  end.

(** ** [initMobileNavToggle] (site.js, lines 15-29) *)

(** What the function sees of the page: whether [getElementById] finds
    the button and the menu, [btn.dataset.bound] ([None]: not set), the
    number of click listeners that the function has put on the button,
    whether the class list of the menu has ["hidden"], and the attribute
    [aria-expanded] of the button. *)
Record menu : Type := {
  btn_found : bool;
  nav_found : bool;
  dataset_bound : option str;
  click_listeners : nat;
  nav_hidden : bool;
  aria_expanded : option str
}.

(** [String(b)] for a boolean. *)
Definition String_of_bool (b : bool) : str :=
  if b then lit "true" else lit "false".

(** The click listener: [toggle("hidden", open)] puts the class when
    [open] is true and takes it away when it is false. *)
Definition onNavClick (m : menu) : menu :=
  let open := negb (nav_hidden m) in
  {| btn_found := btn_found m;
     nav_found := nav_found m;
     dataset_bound := dataset_bound m;
     click_listeners := click_listeners m;
     nav_hidden := open;
     aria_expanded := Some (String_of_bool (negb open)) |}.

Definition initMobileNavToggle (m : menu) : menu :=
  if negb (btn_found m) || negb (nav_found m) then m
  else if match dataset_bound m with
          | Some v => str_eqb v (lit "1")
          | None => false
          end then m
  else
    {| btn_found := btn_found m;
       nav_found := nav_found m;
       dataset_bound := Some (lit "1");
       click_listeners := S (click_listeners m);
       nav_hidden := nav_hidden m;
       aria_expanded := aria_expanded m |}.

(** A click on the button runs every listener on it. *)
Definition click (m : menu) : menu :=
  Nat.iter (click_listeners m) onNavClick m.

(** ** [escapeHtml] (site.js, lines 415-422) *)

(** [s.replaceAll(pat, rep)] for a non-empty search string [pat] and a
    replacement without [$]: the occurrences of [pat] are found from left
    to right and do not overlap; [skip] counts the characters of a found
    occurrence that are still to be passed over. *)
Fixpoint replaceAll_from (skip : nat) (pat rep s : str) : str :=
  match s with
  | [] => []
  | c :: s' =>
      match skip with
      | S k => replaceAll_from k pat rep s'
      | O =>
          if startsWith s pat then rep ++ replaceAll_from (length pat - 1) pat rep s'
          else c :: replaceAll_from 0 pat rep s'
      end
  end.

Definition replaceAll (pat rep s : str) : str := replaceAll_from 0 pat rep s.

Definition dquote : ascii := ascii_of_nat 34.

(** [String(s)] is the identity on strings. *)
Definition escapeHtml (s : str) : str :=
  replaceAll (lit "'") (lit "&#039;")
    (replaceAll [dquote] (lit "&quot;")
       (replaceAll (lit ">") (lit "&gt;")
          (replaceAll (lit "<") (lit "&lt;")
             (replaceAll (lit "&") (lit "&amp;") s)))).

(** ** [bestKeywordSnippet] (site.js, lines 402-409)

    [find] returns the first keyword whose normalized form contains the
    normalized query; an empty keyword is falsy and does not count as a
    hit. *)
Definition bestKeywordSnippet (item : IndexEntry) (query : str) : str :=
  let q := normalize query in
  let kws := keywords_of item in
  let rest := if 0 <? length kws then join (lit ", ") (take 3 kws) else [] in
  match List.find (fun k => includes (normalize k) q) kws with
  | Some hit => if truthy hit then hit else rest
  | None => rest
  end.

(** ** [renderResults] (site.js, lines 266-322) *)

(** The page's state that the search uses: the variable [__siteIndex]
    ([None] is [null]) and the item ["floorref_site_index_v1"] of the
    session storage ([None] when there is none). *)
Record session : Type := {
  siteIndex : option (list IndexEntry);
  stored : option str
}.

(** The results element: its [innerHTML], and whether its class list has
    ["hidden"]. *)
Record dropdown : Type := {
  innerHTML : str;
  hidden : bool
}.

Definition newline : ascii := ascii_of_nat 10.

(** One line of a template literal: the line break, the indentation and
    the text. *)
Definition line (indent : nat) (text : str) : str :=
  newline :: repeat space indent ++ text.

(** A quoted attribute value. *)
Definition quoted (value : str) : str := dquote :: value ++ [dquote].

(** [s.snippet || bestKeywordSnippet(s, query)] *)
Definition snippet_or_keywords (it : IndexEntry) (query : str) : str :=
  match snippet it with
  | Some s => if truthy s then s else bestKeywordSnippet it query
  | None => bestKeywordSnippet it query
  end.

(** The link of one entry, from the template literal of a [map] callback
    whose first line is indented by [indent]. *)
Definition html_item (indent : nat) (query : str) (it : IndexEntry) : str :=
  line indent (lit "<a href=" ++ quoted (url it) ++ lit " class="
               ++ quoted (lit "block px-4 py-3 hover:bg-slate-50") ++ lit ">")
  ++ line (indent + 2)
       (lit "<div class=" ++ quoted (lit "text-sm font-semibold text-slate-900")
        ++ lit ">" ++ escapeHtml (title it) ++ lit "</div>")
  ++ line (indent + 2)
       (lit "<div class=" ++ quoted (lit "mt-1 text-xs text-slate-600") ++ lit ">")
  ++ line (indent + 4) (escapeHtml (snippet_or_keywords it query))
  ++ line (indent + 2) (lit "</div>")
  ++ line indent (lit "</a>")
  ++ line (indent - 2) [].

Definition html_unavailable : str :=
  line 6 (lit "<div class=" ++ quoted (lit "px-4 py-3 text-sm text-slate-600") ++ lit ">")
  ++ line 8 (lit "Search is temporarily unavailable.")
  ++ line 6 (lit "</div>")
  ++ line 4 [].

Definition html_did_you_mean (query : str) (suggestions : list IndexEntry) : str :=
  line 8 (lit "<div class="
          ++ quoted (lit "px-4 py-2 text-xs text-slate-500 border-b border-slate-100")
          ++ lit ">")
  ++ line 10 (lit "Did you mean:")
  ++ line 8 (lit "</div>")
  ++ line 8 (concat (map (html_item 10 query) suggestions))
  ++ line 6 [].

Definition html_no_results (query : str) : str :=
  line 6 (lit "<div class=" ++ quoted (lit "px-4 py-3 text-sm text-slate-600") ++ lit ">")
  ++ line 8 (lit "No results for <span class=" ++ quoted (lit "font-semibold") ++ lit ">"
             ++ escapeHtml query ++ lit "</span>.")
  ++ line 6 (lit "</div>")
  ++ line 4 [].

(** [hits.map(...).join("")]; a hit has the fields of its entry. *)
Definition html_hits (query : str) (hits : list ScoredEntry) : str :=
  concat (map (fun h => html_item 6 query (entry h)) hits).

(** Every branch ends by removing the class ["hidden"].  Without hits the
    suggestions are computed on [__siteIndex || []], with limit 3. *)
Definition renderResults (w : session) (resultsEl : dropdown)
    (hits : list ScoredEntry) (query : str) (hadError : bool) : option dropdown :=
  if hadError then Some {| innerHTML := html_unavailable; hidden := false |}
  else if length hits =? 0 then
    let index := default [] (siteIndex w) in
    suggestions ← getDidYouMeanSuggestions index query (Some 3);
    if negb (length suggestions =? 0) then
      Some {| innerHTML := html_did_you_mean query suggestions; hidden := false |}
    else Some {| innerHTML := html_no_results query; hidden := false |}
  else Some {| innerHTML := html_hits query hits; hidden := false |}.

(** [hideResults] (lines 324-327), for an element that exists. *)
Definition hideResults (resultsEl : dropdown) : dropdown :=
  {| innerHTML := innerHTML resultsEl; hidden := true |}.

(** ** [loadSiteIndex] (site.js, lines 145-162) *)

(** What [fetch] brings: a rejection, or a response with its [ok] flag and
    its body. *)
Inductive fetched : Type :=
  | Rejected
  | Response (ok : bool) (body : str).

Section Load.

(** [JSON.parse] on the text of an index ([None]: it throws) and
    [JSON.stringify] on an index. *)
Variable parse : str -> option (list IndexEntry).
Variable stringify : list IndexEntry -> str.

(** The result ([None]: the promise is rejected), the state afterwards,
    and whether [fetch] was called.  Reading the session storage
    succeeds; [can_store] says whether [sessionStorage.setItem] does:
    when it throws, [__siteIndex] has been assigned already. *)
Definition loadSiteIndex (w : session) (net : fetched) (can_store : bool)
    : option (list IndexEntry) * session * bool :=
  match siteIndex w with
  | Some index => (Some index, w, false)
  | None =>
      let cached := default [] (stored w) in
      if truthy cached then
        match parse cached with
        | Some index =>
            (Some index, {| siteIndex := Some index; stored := stored w |}, false)
        | None => (None, w, false)
        end
      else
        match net with
        | Rejected => (None, w, true)
        | Response ok body =>
            if negb ok then (None, w, true)
            else
              match parse body with
              | Some index =>
                  if can_store then
                    (Some index,
                     {| siteIndex := Some index; stored := Some (stringify index) |},
                     true)
                  else
                    (None, {| siteIndex := Some index; stored := stored w |}, true)
              | None => (None, w, true)
              end
        end
  end.

(** ** The [input] listener of [wireSearchBox] (site.js, lines 200-219)

    One event, handled to its end before the next one: the guard against
    a stale query does not fire, and [lastQuery] is left out.  What is
    thrown inside [try], by [loadSiteIndex] or while rendering, is caught
    and rendered as an error. *)
Variable localeCompare : str -> str -> Z.

Definition onInput (w : session) (net : fetched) (can_store : bool)
    (resultsEl : dropdown) (value : str) : option (session * dropdown) :=
  let q := trim value in
  if length q <? 2 then Some (w, hideResults resultsEl)
  else
    match loadSiteIndex w net can_store with
    | (Some index, w', _) =>
        let hits := take 8 (searchIndex localeCompare index q) in
        match renderResults w' resultsEl hits q false with
        | Some el => Some (w', el)
        | None =>
            el ← renderResults w' resultsEl [] q true;
            Some (w', el)
        end
    | (None, w', _) =>
        el ← renderResults w' resultsEl [] q true;
        Some (w', el)
    end.

End Load.

(** * The index builder: [scripts/build-search-index.mjs] *)

(** ** Sets and maps of strings

    A [Set] is the list of its members and a [Map] the list of its
    entries, both in the order of insertion, which is the order in which
    JavaScript iterates over them. *)

(** [set.has(x)], and [array.includes(x)] *)
Definition has (set : list str) (x : str) : bool := existsb (str_eqb x) set.

(** [set.add(x)] *)
Definition Set_add (set : list str) (x : str) : list str :=
  if has set x then set else set ++ [x].

(** [new Set(items)] *)
Definition Set_of (items : list str) : list str := fold_left Set_add items [].

Section Map.
Context {V : Type}.

(** [map.get(key)]; [None] is [undefined]. *)
Fixpoint Map_get (m : list (str * V)) (key : str) : option V :=
  match m with
  | [] => None
  | (k, v) :: m' => if str_eqb k key then Some v else Map_get m' key
  end.

(** [map.set(key, value)]: a key that is present keeps its place. *)
Fixpoint Map_set (m : list (str * V)) (key : str) (value : V) : list (str * V) :=
  match m with
  | [] => [(key, value)]
  | (k, v) :: m' =>
      if str_eqb k key then (k, value) :: m' else (k, v) :: Map_set m' key value
  end.

End Map.

(** ** [STOPWORDS] (lines 30-36) *)
Definition STOPWORDS : list str :=
  List.map lit
    ["a"; "an"; "and"; "are"; "as"; "at"; "be"; "by"; "can"; "do"; "does"; "for";
     "from"; "get"; "how"; "if"; "in"; "into"; "is"; "it"; "its"; "of"; "on"; "or";
     "our"; "that"; "the"; "their"; "this"; "to"; "used"; "use"; "vs"; "what";
     "when"; "where"; "which"; "why"; "with"; "without"; "you"; "your"; "we";
     "they"; "them"; "also"; "about"; "page"; "pages"; "site"; "reference"; "only";
     "information"; "explained"; "explains"; "common"; "including";
     "overview"]%string.

(** ** [normalizeToken] (lines 108-113) *)

(** [s.replace(/[^a-z0-9]+/g, " ")]: every maximal run of characters that
    are not in [[a-z0-9]] becomes one space; [in_run] says that the
    previous character belonged to a run. *)
Fixpoint squash_from (in_run : bool) (s : str) : str :=
  match s with
  | [] => []
  | c :: s' =>
      if is_alnum c then c :: squash_from false s'
      else if in_run then squash_from true s'
      else space :: squash_from true s'
  end.

Definition normalizeToken (t : str) : str :=
  trim (squash_from false (toLowerCase t)).

(** ** [tokenize] (lines 115-119) *)
Definition tokenize (text : str) : list str :=
  let norm := normalizeToken text in
  if negb (truthy norm) then []
  else List.filter truthy (split_ws norm).

(** ** [buildKeywords] (lines 121-166) *)

(** The body of the first loop: a token shorter than three characters or
    a stop word is passed over; [(freq.get(tok) || 0) + 1]. *)
Definition count_token (freq : list (str * nat)) (tok : str) : list (str * nat) :=
  if length tok <? 3 then freq
  else if has STOPWORDS tok then freq
  else Map_set freq tok (default 0 (Map_get freq tok) + 1).

(** The body of the second loop; [freq.has(tok)] is [freq.get(tok)] not
    being [undefined]. *)
Definition boost_token (freq : list (str * nat)) (tok : str) : list (str * nat) :=
  match Map_get freq tok with
  | None => freq
  | Some n => Map_set freq tok (n + 3)
  end.

(** The loop over the pairs of neighbours [phraseTokens[i]],
    [phraseTokens[i + 1]], with its [continue]s and its [break]. *)
Fixpoint phrases_loop (phraseTokens : list str) (phrases : list str) : list str :=
  match phraseTokens with
  | [] => phrases
  | a :: rest =>
      match rest with
      | [] => phrases
      | b :: _ =>
          if has STOPWORDS a || has STOPWORDS b then phrases_loop rest phrases
          else if (length a <? 3) || (length b <? 3) then phrases_loop rest phrases
          else
            let phrase := a ++ [space] ++ b in
            let phrases := if negb (has phrases phrase) then phrases ++ [phrase]
                           else phrases in
            if 6 <=? length phrases then phrases
            else phrases_loop rest phrases
      end
  end.

Section Keywords.

Variable localeCompare : str -> str -> Z.

(** [b[1] - a[1] || a[0].localeCompare(b[0])] *)
Definition word_compare (a b : str * nat) : Z :=
  let d := (Z.of_nat (snd b) - Z.of_nat (snd a))%Z in
  if (d =? 0)%Z then localeCompare (fst a) (fst b) else d.

(** The argument is the object [{ title, h1, headings, bodyText }]. *)
Definition buildKeywords (title h1 : str) (headings : list str) (bodyText : str)
    : list str :=
  let source := join [space] ([title; h1] ++ headings ++ [bodyText]) in
  let tokens := tokenize source in
  let freq := fold_left count_token tokens [] in
  let boostSource := join [space] ([title; h1] ++ headings) in
  let boostTokens := Set_of (tokenize boostSource) in
  let freq := fold_left boost_token boostTokens freq in
  let topWords :=
    map fst (take 12 (sort (fun a b => (0 <? word_compare a b)%Z) freq)) in
  let phraseSource := join [space] ([title; h1] ++ headings) in
  let phraseTokens := tokenize phraseSource in
  let phrases := phrases_loop phraseTokens [] in
  let out := phrases ++ topWords in
  take 18 (Set_of out).

End Keywords.

(** ** [fileToUrl] (lines 168-184)

    [rel] is the path of the file relative to the root of the site, with
    [/] between its parts, as the first line of the function computes it. *)

(** [s.endsWith(t)] *)
Definition endsWith (s t : str) : bool := startsWith (rev s) (rev t).

Definition fileToUrl (rel : str) : str :=
  if str_eqb rel (lit "index.html") then lit "/"
  else if endsWith rel (lit "/index.html") then
    let dir := take (length rel - length (lit "index.html")) rel in
    lit "/" ++ dir
  else if endsWith rel (lit ".html") then lit "/" ++ rel
  else lit "/" ++ rel.

(** ** [decodeEntities] (lines 98-106) *)
Definition decodeEntities (s : str) : str :=
  replaceAll (lit "&nbsp;") (lit " ")
    (replaceAll (lit "&#039;") (lit "'")
       (replaceAll (lit "&quot;") [dquote]
          (replaceAll (lit "&gt;") (lit ">")
             (replaceAll (lit "&lt;") (lit "<")
                (replaceAll (lit "&amp;") (lit "&") s))))).

(** * The other build scripts *)

Definition slash : ascii := ascii_of_nat 47.
Definition qmark : ascii := ascii_of_nat 63.
Definition hash : ascii := ascii_of_nat 35.

(** ** [scripts/build-top-pages-from-ga4.mjs] *)

(** *** [normalizePath] (lines 90-111) *)

(** [s.replace(/\/{2,}/g, "/")]: every maximal run of slashes becomes one
    slash; [in_run] says that the previous character was a slash. *)
Fixpoint collapse_slashes_from (in_run : bool) (s : str) : str :=
  match s with
  | [] => []
  | c :: s' =>
      if Ascii.eqb c slash then
        if in_run then collapse_slashes_from true s'
        else slash :: collapse_slashes_from true s'
      else c :: collapse_slashes_from false s'
  end.

Definition collapse_slashes (s : str) : str := collapse_slashes_from false s.

(** [s.replace(/\/index\.html$/i, "/")]: on the code units of the model a
    character matches a letter of the pattern, upper and lower case
    apart, exactly when its lower case is that letter. *)
Definition strip_index (s : str) : str :=
  if endsWith (toLowerCase s) (lit "/index.html")
  then take (length s - length (lit "/index.html")) s ++ lit "/"
  else s.

(** [String(p || "")] is the identity on strings; [parts[0]] of a [split]
    is always there. *)
Definition normalizePath (p : str) : str :=
  let out := trim p in
  if negb (truthy out) then []
  else
    let out := hd [] (split hash (hd [] (split qmark out))) in
    let out := if startsWith out (lit "/") then out else lit "/" ++ out in
    let out := collapse_slashes out in
    let out := if str_eqb out (lit "/index.html") then lit "/" else out in
    strip_index out.

(** *** [loadSearchIndex] (lines 113-127), from the parsed index on *)
Definition loadSearchIndex (idx : list IndexEntry) : list (str * IndexEntry) :=
  fold_left (fun map item => Map_set map (normalizePath (url item)) item) idx [].

(** *** [buildTopPages] (lines 164-218) *)

(** A row of the report: [row.dimensionValues?.[0]?.value] and
    [row.metricValues?.[0]?.value]; [None] is [undefined]. *)
Record GaRow : Type := {
  dimensionValue : option str;
  metricValue : option str
}.

(** [{ title, url, blurb, score }] *)
Module TopPage.
Record t : Type := {
  title : str;
  url : str;
  blurb : str;
  score : number
}.
End TopPage.

Definition BLOCKED_EXACT : list str :=
  List.map lit
    ["/"; "/about"; "/about/"; "/contact"; "/contact/"; "/legal"; "/legal/";
     "/search"; "/search/"; "/404.html"]%string.

Definition BLOCKED_PREFIXES : list str :=
  List.map lit ["/about/"; "/contact/"; "/legal/"; "/search/"]%string.

(** [value || fallback] for a string that may be missing. *)
Definition or_else (value : option str) (fallback : str) : str :=
  match value with
  | Some s => if truthy s then s else fallback
  | None => fallback
  end.

(** [x || 0] for a number: [NaN] and zero are falsy. *)
Definition or_zero (x : number) : number :=
  match x with
  | NaN => Num 0
  | Infinity s => Infinity s
  | Num q => if Qeq_bool q 0 then Num 0 else Num q
  end.

Section TopPages.

(** [Number(s)]: the number that a string denotes, [NaN] when it denotes
    none. *)
Variable Number : str -> number.

(** The body of the loop: [None] when the row is passed over by a
    [continue], else the item that is pushed.  The source's locals [url]
    and [match] are [u] and [found] here; an entry of the index has no
    [blurb]. *)
Definition row_item (indexMap : list (str * IndexEntry)) (row : GaRow)
    : option TopPage.t :=
  let pagePath := or_else (dimensionValue row) [] in
  let viewsStr := or_else (metricValue row) (lit "0") in
  let u := normalizePath pagePath in
  let views := or_zero (Number viewsStr) in
  if negb (truthy u) then None
  else if has BLOCKED_EXACT u then None
  else if existsb (fun prefix => startsWith u prefix) BLOCKED_PREFIXES then None
  else
    match Map_get indexMap u with
    | None => None
    | Some found =>
        Some {| TopPage.title := title found;
                TopPage.url := url found;
                TopPage.blurb := or_else (snippet found) [];
                TopPage.score := views |}
    end.

Definition buildTopPages (gaRows : list GaRow) (indexMap : list (str * IndexEntry))
    : list TopPage.t :=
  let items :=
    fold_left (fun items row =>
                 match row_item indexMap row with
                 | Some item => items ++ [item]
                 | None => items
                 end) gaRows [] in
  sort (fun a b => num_pos (num_sub (TopPage.score b) (TopPage.score a))) items.

End TopPages.

(** ** [scripts/check-links.mjs] *)

(** [s.indexOf(c)] for one character; [None] is [-1]. *)
Fixpoint indexOf (s : str) (c : ascii) : option nat :=
  match s with
  | [] => None
  | x :: s' => if Ascii.eqb x c then Some 0 else option_map S (indexOf s' c)
  end.

(** [stripQueryAndHash] (lines 498-504) *)
Definition stripQueryAndHash (href : str) : str :=
  let q := indexOf href qmark in
  let h := indexOf href hash in
  let cut :=
    match q with
    | None => h
    | Some q' => match h with
                 | None => q
                 | Some h' => Some (Nat.min q' h')
                 end
    end in
  match cut with
  | None => href
  | Some cut => take cut href
  end.

(** ** [scripts/inject-social-meta.mjs] *)

(** [escapeHtmlAttr] (lines 315-321) *)
Definition escapeHtmlAttr (s : str) : str :=
  replaceAll (lit ">") (lit "&gt;")
    (replaceAll (lit "<") (lit "&lt;")
       (replaceAll [dquote] (lit "&quot;")
          (replaceAll (lit "&") (lit "&amp;") s))).

(** ** [scripts/build-sitemap.mjs] *)

(** [escapeXml] (lines 86-93) *)
Definition escapeXml (s : str) : str :=
  replaceAll (lit "'") (lit "&apos;")
    (replaceAll [dquote] (lit "&quot;")
       (replaceAll (lit ">") (lit "&gt;")
          (replaceAll (lit "<") (lit "&lt;")
             (replaceAll (lit "&") (lit "&amp;") s)))).

Definition SITE_ORIGIN : str := lit "https://floorref.com".

Definition EXCLUDE_URL_PREFIXES : list str :=
  List.map lit ["/search/"; "/about/"; "/contact/"; "/legal/"]%string.

Section Sitemap.

Variable localeCompare : str -> str -> Z.

(** [unique] in [main] (lines 95-103), for the files whose paths relative
    to the root are [rels]; [fileToUrl] has the same three cases as in
    the index builder. *)
Definition unique (rels : list str) : list str :=
  let urls :=
    List.filter
      (fun u => truthy u
                && negb (existsb (fun p => startsWith u p) EXCLUDE_URL_PREFIXES))
      (map fileToUrl rels) in
  sort (fun a b => (0 <? localeCompare a b)%Z) (Set_of urls).

(** One [<url>] element of the sitemap. *)
Definition url_element (now u : str) : str :=
  let loc := SITE_ORIGIN ++ u in
  lit "  <url>" ++ [newline]
  ++ lit "    <loc>" ++ escapeXml loc ++ lit "</loc>" ++ [newline]
  ++ lit "    <lastmod>" ++ now ++ lit "</lastmod>" ++ [newline]
  ++ lit "  </url>" ++ [newline].

(** [xml] in [main] (lines 105-120); [now] is the date of the run. *)
Definition xml (rels : list str) (now : str) : str :=
  lit "<?xml version=" ++ quoted (lit "1.0") ++ lit " encoding=" ++ quoted (lit "UTF-8")
  ++ lit "?>" ++ [newline]
  ++ lit "<urlset xmlns=" ++ quoted (lit "http://www.sitemaps.org/schemas/sitemap/0.9")
  ++ lit ">" ++ [newline]
  ++ concat (map (url_element now) (unique rels))
  ++ lit "</urlset>" ++ [newline].

End Sitemap.

(** * Specification-level definitions *)

(** ** Characters of a normalized string *)

(** A letter a-z, a digit, or the space character. *)
Definition okchar (c : ascii) : bool := is_alnum c || Ascii.eqb c space.

(** What [/[^a-z0-9\s]/] leaves alone. *)
Definition plain (c : ascii) : bool := is_alnum c || is_space c.

(** [toLowerCase] followed by the first [replace], on one code unit. *)
Definition norm_char (c : ascii) : ascii :=
  let c := lower_char c in if is_alnum c || is_space c then c else space.

Ltac each_char c := destruct c as [[] [] [] [] [] [] [] []]; vm_compute.

(** [t] occurs in [s]. *)
Definition substring (t s : str) : Prop := exists pre post, s = pre ++ t ++ post.

(** ** Sorting *)

(** Neither of [x] and [y] sorts after the other. *)
Definition tied {A : Type} (after : A -> A -> bool) (x y : A) : bool :=
  negb (after x y) && negb (after y x).

(** ** The classic edit distance

    [edits s t n]: a script that goes through [s] from left to right and
    keeps, substitutes, deletes or inserts characters turns [s] into [t],
    and [n] of its steps are not keeps (each costs one). *)
Inductive edits : str -> str -> nat -> Prop :=
  | edits_nil : edits [] [] 0
  | edits_keep c s t n : edits s t n -> edits (c :: s) (c :: t) n
  | edits_substitute c d s t n : edits s t n -> edits (c :: s) (d :: t) (S n)
  | edits_delete c s t n : edits s t n -> edits (c :: s) t (S n)
  | edits_insert d s t n : edits s t n -> edits s (d :: t) (S n).

(** [d] is the Levenshtein distance of [s] and [t]: the cost of a cheapest
    script. *)
Definition edit_distance (s t : str) (d : nat) : Prop :=
  edits s t d /\ forall n, edits s t n -> d <= n.

(** The textbook recursion. *)
Fixpoint lev (s t : str) : nat :=
  match s with
  | [] => length t
  | a :: s' =>
      (fix lev_s (t : str) : nat :=
         match t with
         | [] => length s
         | b :: t' =>
             Nat.min (S (lev s' t))
               (Nat.min (S (lev_s t'))
                        (lev s' t' + (if Ascii.eqb a b then 0 else 1)))
         end) t
  end.

(** One insertion, deletion or substitution of a character, anywhere in
    the string. *)
Inductive one_edit : str -> str -> Prop :=
  | one_insert p c s : one_edit (p ++ s) (p ++ c :: s)
  | one_delete p c s : one_edit (p ++ c :: s) (p ++ s)
  | one_substitute p c d s : one_edit (p ++ c :: s) (p ++ d :: s).

(** [edit_chain n s t]: [n] single-character edits lead from [s] to [t]. *)
Inductive edit_chain : nat -> str -> str -> Prop :=
  | chain_done s : edit_chain 0 s s
  | chain_step n s t u : one_edit s t -> edit_chain n t u -> edit_chain (S n) s u.

(** [d] is the least number of single-character edits that turn [s] into
    [t]. *)
Definition least_edits (s t : str) (d : nat) : Prop :=
  edit_chain d s t /\ forall n, edit_chain n s t -> d <= n.

(** The table has [m + 1] rows of [n + 1] cells. *)
Definition table_shape (m n : nat) (dp : matrix) : Prop :=
  length dp = S m /\ Forall (fun row => length row = S n) dp.

(** The distance of the prefixes [a[0..i)] and [b[0..j)]. *)
Definition prefix_lev (a b : str) (i j : nat) : nat := lev (take i a) (take j b).

(** The cells the loops have filled when the inner loop is about to write
    [dp[i][j]]: row 0, column 0, the rows above [i], and row [i] up to
    column [j]; each holds the distance of its two prefixes. *)
Definition filled (a b : str) (i j : nat) (dp : matrix) : Prop :=
  table_shape (length a) (length b) dp /\
  forall i' j', i' <= length a -> j' <= length b ->
    i' = 0 \/ j' = 0 \/ i' < i \/ (i' = i /\ j' < j) ->
    mget dp i' j' = Some (prefix_lev a b i' j').

(** ** Ranking *)

(** The three field matches of [searchIndex]: title 4, keywords 3, URL 1. *)
Definition field_score (query : str) (item : IndexEntry) : Z :=
  let q := toLowerCase query in
  ((if includes (toLowerCase (title item)) q then 4 else 0) +
   (if existsb (fun k => includes (toLowerCase k) q) (keywords_of item) then 3 else 0) +
   (if includes (toLowerCase (url item)) q then 1 else 0))%Z.

(** The tokens of the normalized query. *)
Definition query_tokens (query : str) : list str :=
  List.filter truthy (split_ws (normalize query)).

(** The lower-cased title and keywords, joined by spaces. *)
Definition token_haystack (item : IndexEntry) : str :=
  toLowerCase (join [space] (title item :: keywords_of item)).

(** The query tokens found in the haystack, each occurrence counted. *)
Definition token_hits (query : str) (item : IndexEntry) : nat :=
  length (List.filter (fun t => includes (token_haystack item) t) (query_tokens query)).

(** The distinct query tokens found in the haystack. *)
Definition distinct_token_hits (query : str) (item : IndexEntry) : nat :=
  length (List.filter (fun t => includes (token_haystack item) t)
            (nodup (List.list_eq_dec ascii_dec) (query_tokens query))).

(** The order of the result: higher score first, and on equal scores the
    title that the collation puts first (or level). *)
Definition rank_before (localeCompare : str -> str -> Z) (a b : ScoredEntry) : Prop :=
  (__score b < __score a)%Z \/
  (__score a = __score b /\
   (localeCompare (title (entry a)) (title (entry b)) <= 0)%Z).

(** A collation to instantiate [localeCompare] with: the order of the code
    units. *)
Fixpoint codeUnitCompare (s t : str) : Z :=
  match s, t with
  | [], [] => 0
  | [], _ :: _ => -1
  | _ :: _, [] => 1
  | a :: s', b :: t' =>
      match Nat.compare (code a) (code b) with
      | Lt => -1
      | Gt => 1
      | Eq => codeUnitCompare s' t'
      end
  end%Z.

(** ** The example index of the specification *)

Definition lvt_entry : IndexEntry :=
  {| title := lit "Luxury Vinyl Tile (LVT)";
     url := lit "/materials/lvt/";
     snippet := None;
     keywords := Some [lit "lvt"; lit "vinyl"; lit "wear layer"] |}.

Definition laminate_entry : IndexEntry :=
  {| title := lit "Laminate Flooring";
     url := lit "/materials/laminate/";
     snippet := None;
     keywords := Some [lit "laminate"; lit "hdf core"] |}.

Definition example_index : list IndexEntry := [lvt_entry; laminate_entry].

(** ** Suggestions *)

(** [hits / max(|query tokens|, |haystack tokens|)], and 0 when either has
    no token. *)
Definition overlap_ratio (query hay : str) : Q :=
  let qs := words query in
  let hs := words hay in
  match qs, hs with
  | [], _ | _, [] => 0
  | _ :: _, _ :: _ =>
      Z.of_nat (length (List.filter (word_hits hs) qs))
      # Pos.of_nat (Nat.max (length qs) (length hs))
  end.

(** [title + " " + joined(keywords)] *)
Definition suggestion_haystack (it : IndexEntry) : str :=
  title it ++ [space] ++ join [space] (keywords_of it).

(** overlap(query, hay) + typoBonus(distance(query, title)), in doubles:
    the quotient of the two counts, then the sum. *)
Definition combined_score (query : str) (it : IndexEntry) : float :=
  (binary64 (Num (overlap_ratio query (suggestion_haystack it))) +
   typo_bonus (lev (normalize query) (normalize (title it))))%float.

Definition suggestion_of (query : str) (it : IndexEntry) : Suggestion :=
  {| item := it; score := combined_score query it |}.

(** The scored entries that pass the threshold, in index order. *)
Definition kept_suggestions (query : str) (index : list IndexEntry) : list Suggestion :=
  List.filter (fun x => (0.35 <=? score x)%float)
    (map (suggestion_of query) index).

(** The comparator of the suggestion sort, [(a, b) => b.score - a.score],
    tested for [> 0]. *)
Definition score_after (a b : Suggestion) : bool :=
  (0 <? score b - score a)%float.

(** [a.score == s.score] *)
Definition same_score (s a : Suggestion) : bool :=
  (score a =? score s)%float.

(** A float that is greater than zero, finite or not, and one that is
    less than zero, in the representation of the IEEE 754 specification
    of the primitive floats. *)
Definition SFpositive (x : SpecFloat.spec_float) : bool :=
  match x with
  | SpecFloat.S754_finite false _ _ | SpecFloat.S754_infinity false => true
  | _ => false
  end.

Definition SFnegative (x : SpecFloat.spec_float) : bool :=
  match x with
  | SpecFloat.S754_finite true _ _ | SpecFloat.S754_infinity true => true
  | _ => false
  end.

(** The score is a double greater than zero: not [NaN], not zero. *)
Definition positive_score (s : Suggestion) : Prop :=
  SFpositive (FloatOps.Prim2SF (score s)) = true.

(** Two entries for the query "oak wood floor": all three query tokens
    hit in both; the first has 10 haystack tokens and a title at distance
    3, the second 15 haystack tokens and the query as its title. *)
Definition oak_flooring_entry : IndexEntry :=
  {| title := lit "Oak Wood Flooring";
     url := lit "/materials/oak-flooring/";
     snippet := None;
     keywords := Some [lit "solid planks"; lit "engineered boards";
                      lit "site finished"; lit "hardwax"] |}.

Definition oak_floor_entry : IndexEntry :=
  {| title := lit "Oak Wood Floor";
     url := lit "/materials/oak/";
     snippet := None;
     keywords := Some [lit "red white species"; lit "janka hardness rating";
                      lit "sanding sealing staining"; lit "quarter sawn grain"] |}.

(** ** Further example entries *)

Definition vinyl_entry : IndexEntry :=
  {| title := lit "Vinyl";
     url := lit "/materials/lvt/";
     snippet := None;
     keywords := None |}.

Definition vinyl_flooring_entry : IndexEntry :=
  {| title := lit "Vinyl Flooring";
     url := lit "/materials/vinyl/";
     snippet := None;
     keywords := Some [lit "vinyl"] |}.

Definition carpet_entry : IndexEntry :=
  {| title := lit "Carpet";
     url := lit "/materials/carpet/";
     snippet := None;
     keywords := None |}.

Definition tile_entry : IndexEntry :=
  {| title := lit "Tile";
     url := lit "/materials/tile/";
     snippet := None;
     keywords := Some [lit "ceramic"] |}.

(** * Definitions for the further properties *)

(** ** Escaping *)

Definition ampersand : ascii := ascii_of_nat 38.

(** What [escapeHtml] writes for one character. *)
Definition esc_char (c : ascii) : str :=
  if Ascii.eqb c ampersand then lit "&amp;"
  else if Ascii.eqb c (ascii_of_nat 60) then lit "&lt;"
  else if Ascii.eqb c (ascii_of_nat 62) then lit "&gt;"
  else if Ascii.eqb c dquote then lit "&quot;"
  else if Ascii.eqb c (ascii_of_nat 39) then lit "&#039;"
  else [c].

(** The characters that open or close a tag or an attribute value:
    [<], [>], the double and the single quote. *)
Definition is_markup (c : ascii) : bool :=
  Ascii.eqb c (ascii_of_nat 60) || Ascii.eqb c (ascii_of_nat 62)
  || Ascii.eqb c dquote || Ascii.eqb c (ascii_of_nat 39).

(** What may follow an ampersand in escaped text. *)
Definition entity_names : list str :=
  [lit "amp;"; lit "lt;"; lit "gt;"; lit "quot;"; lit "#039;"].

(** The number of occurrences of [c] in [s]. *)
Definition count_char (c : ascii) (s : str) : nat :=
  length (List.filter (Ascii.eqb c) s).

(** What [escapeXml] writes for one character. *)
Definition xml_char (c : ascii) : str :=
  if Ascii.eqb c ampersand then lit "&amp;"
  else if Ascii.eqb c (ascii_of_nat 60) then lit "&lt;"
  else if Ascii.eqb c (ascii_of_nat 62) then lit "&gt;"
  else if Ascii.eqb c dquote then lit "&quot;"
  else if Ascii.eqb c (ascii_of_nat 39) then lit "&apos;"
  else [c].

(** What [escapeHtmlAttr] writes for one character. *)
Definition attr_char (c : ascii) : str :=
  if Ascii.eqb c ampersand then lit "&amp;"
  else if Ascii.eqb c dquote then lit "&quot;"
  else if Ascii.eqb c (ascii_of_nat 60) then lit "&lt;"
  else if Ascii.eqb c (ascii_of_nat 62) then lit "&gt;"
  else [c].

(** What is left of [esc_char c] when the entities of the characters in
    [decoded] have been decoded. *)
Definition partly (decoded : list ascii) (c : ascii) : str :=
  if existsb (Ascii.eqb c) decoded then [c] else esc_char c.

(** Whether a white-space run is open after [u], when [b] says whether one
    was open before it. *)
Fixpoint run_after (b : bool) (u : str) : bool :=
  match u with
  | [] => b
  | c :: u' => run_after (is_space c) u'
  end.

(** An entry with no text at all. *)
Definition blank_entry : IndexEntry :=
  {| title := []; url := []; snippet := None; keywords := None |}.

(** The number of occurrences of [c] in the URLs of the entries. *)
Definition count_in_urls (c : ascii) (entries : list IndexEntry) : nat :=
  list_sum (map (fun it => count_char c (url it)) entries).

(** ** Keywords *)

(** A token that [buildKeywords] counts and pairs: at least three
    characters, and not a stop word. *)
Definition keep_word (t : str) : bool :=
  negb (length t <? 3) && negb (has STOPWORDS t).

(** The neighbours in a list, from left to right. *)
Fixpoint pairs (l : list str) : list (str * str) :=
  match l with
  | [] => []
  | a :: rest =>
      match rest with
      | [] => []
      | b :: _ => (a, b) :: pairs rest
      end
  end.

(** The phrases ["a b"] of two neighbours that both count, in their
    order. *)
Definition candidate_phrases (tokens : list str) : list str :=
  map (fun ab => fst ab ++ [space] ++ snd ab)
      (List.filter (fun ab => keep_word (fst ab) && keep_word (snd ab)) (pairs tokens)).

(** The number of occurrences of [w] in [l]. *)
Definition count_word (w : str) (l : list str) : nat :=
  length (List.filter (str_eqb w) l).

(** The score of a word: its occurrences among the tokens of the page,
    and 3 more when it is a token of the title or of a heading. *)
Definition word_score (heads page : list str) (w : str) : nat :=
  count_word w page + (if has heads w then 3 else 0).

(** The map that has the keys [keys], in this order, with the values that
    [f] gives. *)
Definition with_value (f : str -> nat) (keys : list str) : list (str * nat) :=
  map (fun w => (w, f w)) keys.

(** ** Paths *)

(** [t] is at the end of [s]. *)
Definition suffix_of (t s : str) : Prop := exists pre, s = pre ++ t.

(** The relative path of a file: not empty, and no slash at its end. *)
Definition file_path (rel : str) : Prop :=
  rel <> [] /\ ~ suffix_of (lit "/") rel.

(** ** The report *)

(** The normalized page path of a row of the report. *)
Definition row_path (row : GaRow) : str :=
  normalizePath (or_else (dimensionValue row) []).

(** The views of a row of the report. *)
Definition row_views (Number : str -> number) (row : GaRow) : number :=
  or_zero (Number (or_else (metricValue row) (lit "0"))).

(** ** Tactics *)

(** Case analysis on the comparisons of a character variable with a
    constant. *)
Ltac case_chars :=
  repeat match goal with
         | |- context [Ascii.eqb ?c ?k] =>
             is_var c; destruct (Ascii.eqb_spec c k) as [->|?]; cbn [Ascii.eqb Bool.eqb]
         end.

(** One replacement of [decodeEntities] on the escaped form of one
    character. *)
Ltac decode_step :=
  let c := fresh "c" in let rest := fresh "rest" in let Hc := fresh "Hc" in
  intros c rest Hc; unfold partly, esc_char; cbn [existsb orb];
  case_chars; try done; cbn; case_chars; try done.

(** The cases of the comparisons of integers in a goal. *)
Ltac compare_cases :=
  repeat match goal with
         | |- context [Z.compare ?a ?b] => destruct (Z.compare_spec a b)
         | |- context [Pos.compare_cont Eq ?a ?b] =>
             change (Pos.compare_cont Eq a b) with (Pos.compare a b);
             destruct (Pos.compare_spec a b)
         end;
  subst; try done; try lia.

(** * Proofs *)

(** ** Normalization *)

Lemma is_space_space : is_space space = true.
Proof. reflexivity. Qed.

Lemma okchar_lower c : okchar c = true -> lower_char c = c.
Proof. each_char c; congruence. Qed.

Lemma okchar_plain c : okchar c = true -> plain c = true.
Proof. each_char c; congruence. Qed.

Lemma okchar_space c : okchar c = true -> is_space c = true -> c = space.
Proof. each_char c; congruence. Qed.

Lemma plain_okchar c : plain c = true -> is_space c = false -> okchar c = true.
Proof. each_char c; congruence. Qed.

Lemma lower_char_space c : is_space (lower_char c) = is_space c.
Proof. each_char c; congruence. Qed.

Lemma blank_other_plain s : Forall (fun c => plain c = true) (blank_other s).
Proof.
  induction s as [|c s IH]; simpl; constructor; try done.
  unfold plain. destruct (is_alnum c || is_space c) eqn:E; [done|reflexivity].
Qed.

Lemma collapse_from_length b s : length (collapse_from b s) <= length s.
Proof.
  revert b; induction s as [|c s IH]; intros b; simpl; [lia|].
  destruct (is_space c); [destruct b|]; simpl; specialize (IH true) as H1;
    specialize (IH false) as H2; lia.
Qed.

Lemma collapse_true_false s :
  collapse_from true s = s -> collapse_from false s = s.
Proof.
  destruct s as [|c s]; simpl; [done|].
  destruct (is_space c) eqn:Hc; [|done].
  intros H. pose proof (collapse_from_length true s) as Hl.
  rewrite H in Hl. simpl in Hl. lia.
Qed.

Lemma collapse_from_idem b s :
  collapse_from b (collapse_from b s) = collapse_from b s.
Proof.
  revert b; induction s as [|c s IH]; intros b; simpl; [done|].
  destruct (is_space c) eqn:Hc.
  - destruct b; [apply IH|].
    cbn [collapse_from]. rewrite is_space_space. by rewrite IH.
  - simpl. rewrite Hc. by rewrite IH.
Qed.

Lemma collapse_from_okchar b s :
  Forall (fun c => plain c = true) s ->
  Forall (fun c => okchar c = true) (collapse_from b s).
Proof.
  intros H. revert b. induction H as [|c s Hc _ IH]; intros b; simpl; [constructor|].
  destruct (is_space c) eqn:E.
  - destruct b; [apply IH|]. constructor; [reflexivity|apply IH].
  - constructor; [by apply plain_okchar|apply IH].
Qed.

(** trimming *)
Lemma trimStart_okchar (P : ascii -> Prop) s : Forall P s -> Forall P (trimStart s).
Proof.
  induction 1 as [|c s Hc Hs IH]; simpl; [constructor|].
  destruct (is_space c); [done|by constructor].
Qed.

Lemma trimEnd_okchar (P : ascii -> Prop) s : Forall P s -> Forall P (trimEnd s).
Proof.
  induction 1 as [|c s Hc Hs IH]; simpl; [constructor|].
  destruct (trimEnd s) as [|d r].
  - destruct (is_space c); by repeat constructor.
  - by constructor.
Qed.

Lemma trimStart_idem s : trimStart (trimStart s) = trimStart s.
Proof.
  induction s as [|c s IH]; simpl; [done|].
  destruct (is_space c) eqn:E; [done|]. simpl. by rewrite E.
Qed.

Lemma trimEnd_idem s : trimEnd (trimEnd s) = trimEnd s.
Proof.
  induction s as [|c s IH]; simpl; [done|].
  destruct (trimEnd s) as [|d r] eqn:E.
  - destruct (is_space c) eqn:Ec; simpl; [done|by rewrite Ec].
  - cbn [trimEnd]. cbn [trimEnd] in IH. by rewrite IH.
Qed.

Lemma trim_comm s : trimEnd (trimStart s) = trimStart (trimEnd s).
Proof.
  induction s as [|c s IH]; [done|].
  cbn [trimStart trimEnd].
  destruct (is_space c) eqn:Ec.
  - rewrite IH. destruct (trimEnd s) as [|d r]; [done|].
    cbn [trimStart]. by rewrite Ec.
  - cbn [trimEnd]. destruct (trimEnd s) as [|d r]; rewrite ?Ec; cbn [trimStart]; by rewrite Ec.
Qed.

Lemma trim_idem s : trim (trim s) = trim s.
Proof.
  unfold trim. rewrite <- (trim_comm (trimStart s)), trimStart_idem.
  apply trimEnd_idem.
Qed.

Lemma trimStart_collapsed s :
  collapse_from false s = s -> collapse_from false (trimStart s) = trimStart s.
Proof.
  induction s as [|c s IH]; [done|].
  cbn [trimStart collapse_from].
  destruct (is_space c) eqn:Ec.
  - intros H. injection H as _ H. apply IH. by apply collapse_true_false.
  - intros H. cbn [collapse_from]. by rewrite Ec.
Qed.

Lemma collapse_from_cons b c s :
  collapse_from b (c :: s) =
  if is_space c then
    if b then collapse_from true s else space :: collapse_from true s
  else c :: collapse_from false s.
Proof. reflexivity. Qed.

Lemma trimEnd_collapsed b s :
  collapse_from b s = s -> collapse_from b (trimEnd s) = trimEnd s.
Proof.
  revert b. induction s as [|c s IH]; intros b; [done|].
  cbn [trimEnd collapse_from].
  destruct (is_space c) eqn:Ec.
  - destruct b.
    + intros H. pose proof (collapse_from_length true s) as Hl.
      rewrite H in Hl. simpl in Hl. lia.
    + intros H. injection H as Hsp H. specialize (IH true H).
      destruct (trimEnd s) as [|d r]; [done|].
      rewrite collapse_from_cons, Ec, IH. by rewrite Hsp.
  - intros H. injection H as H. specialize (IH false H).
    destruct (trimEnd s) as [|d r]; rewrite collapse_from_cons, Ec; [done|].
    by rewrite IH.
Qed.

Lemma toLowerCase_okchar s :
  Forall (fun c => okchar c = true) s -> toLowerCase s = s.
Proof.
  induction 1 as [|c s Hc _ IH]; simpl; [done|].
  by rewrite (okchar_lower c Hc), IH.
Qed.

Lemma blank_other_okchar s :
  Forall (fun c => okchar c = true) s -> blank_other s = s.
Proof.
  induction 1 as [|c s Hc _ IH]; simpl; [done|].
  apply okchar_plain in Hc. unfold plain in Hc. by rewrite Hc, IH.
Qed.

Lemma normalize_okchar s : Forall (fun c => okchar c = true) (normalize s).
Proof.
  unfold normalize, trim, collapse_ws.
  apply trimEnd_okchar, trimStart_okchar, collapse_from_okchar, blank_other_plain.
Qed.

Lemma normalize_collapsed s : collapse_ws (normalize s) = normalize s.
Proof.
  unfold normalize, trim, collapse_ws.
  apply trimEnd_collapsed, trimStart_collapsed, collapse_from_idem.
Qed.

Lemma normalize_normalize (x : str) : normalize (normalize x) = normalize x.
Proof.
  unfold normalize at 1.
  rewrite (toLowerCase_okchar _ (normalize_okchar x)).
  rewrite (blank_other_okchar _ (normalize_okchar x)).
  rewrite normalize_collapsed.
  unfold normalize. apply trim_idem.
Qed.
Lemma blank_lower s : blank_other (toLowerCase s) = map norm_char s.
Proof. unfold blank_other, toLowerCase. by rewrite map_map. Qed.

Lemma norm_char_space c : is_space c = true -> is_space (norm_char c) = true.
Proof. each_char c; congruence. Qed.

Lemma trimStart_collapse_indep s :
  trimStart (collapse_from false s) = trimStart (collapse_from true s).
Proof.
  destruct s as [|c s]; [done|].
  rewrite !collapse_from_cons. destruct (is_space c) eqn:Ec; [|done].
  cbn [trimStart]. by rewrite is_space_space.
Qed.

Lemma trimStart_collapse_trimStart b x :
  trimStart (collapse_from b (map norm_char (trimStart x))) =
  trimStart (collapse_from b (map norm_char x)).
Proof.
  revert b. induction x as [|c x IH]; intros b; [done|].
  cbn [trimStart]. destruct (is_space c) eqn:Ec; [|done].
  cbn [map]. rewrite collapse_from_cons, (norm_char_space c Ec).
  transitivity (trimStart (collapse_from true (map norm_char x))).
  - rewrite <- IH. destruct b; [done|apply trimStart_collapse_indep].
  - destruct b; [done|]. cbn [trimStart]. by rewrite is_space_space.
Qed.

Lemma trimEnd_cons_congr c s s' :
  trimEnd s = trimEnd s' -> trimEnd (c :: s) = trimEnd (c :: s').
Proof. intros H. cbn [trimEnd]. by rewrite H. Qed.

Lemma trimEnd_collapse_congr b c s s' :
  (forall b, trimEnd (collapse_from b s) = trimEnd (collapse_from b s')) ->
  trimEnd (collapse_from b (c :: s)) = trimEnd (collapse_from b (c :: s')).
Proof.
  intros H. rewrite !collapse_from_cons.
  destruct (is_space c); [destruct b|]; auto using trimEnd_cons_congr.
Qed.

Lemma trimEnd_collapse_trimEnd b x :
  trimEnd (collapse_from b (map norm_char (trimEnd x))) =
  trimEnd (collapse_from b (map norm_char x)).
Proof.
  revert b. induction x as [|c x IH]; intros b; [done|].
  cbn [trimEnd]. destruct (trimEnd x) as [|d r] eqn:Er.
  - cbn [map] in *. 
    assert (Hnil : forall b, trimEnd (collapse_from b (map norm_char x)) = []).
    { intros b'. by rewrite <- IH. }
    destruct (is_space c) eqn:Ec.
    + cbn [map]. rewrite collapse_from_cons, (norm_char_space c Ec).
      destruct b; cbn [collapse_from trimEnd]; rewrite Hnil; [done|].
      by rewrite is_space_space.
    + change (map norm_char [c]) with (norm_char c :: map norm_char []).
      apply trimEnd_collapse_congr. intros b'. by rewrite Hnil.
  - change (map norm_char (c :: ?l)) with (norm_char c :: map norm_char l).
    by apply trimEnd_collapse_congr.
Qed.

Lemma normalize_unfold s :
  normalize s = trimEnd (trimStart (collapse_from false (map norm_char s))).
Proof. unfold normalize, trim, collapse_ws. by rewrite blank_lower. Qed.

Lemma normalize_trimStart s : normalize (trimStart s) = normalize s.
Proof. rewrite !normalize_unfold. by rewrite trimStart_collapse_trimStart. Qed.

Lemma normalize_trimEnd s : normalize (trimEnd s) = normalize s.
Proof.
  rewrite !normalize_unfold, !trim_comm. by rewrite trimEnd_collapse_trimEnd.
Qed.

Lemma normalize_trim s : normalize (trim s) = normalize s.
Proof. unfold trim. by rewrite normalize_trimEnd, normalize_trimStart. Qed.

(** ** The sort *)

Section SortFacts.
Context {A : Type} (after : A -> A -> bool).

Lemma sort_insert_Permutation (x : A) (l : list A) :
  Permutation (sort_insert after x l) (x :: l).
Proof.
  induction l as [|y l IH]; simpl; [done|].
  destruct (after x y); [|done].
  rewrite IH. apply perm_swap.
Qed.

Lemma sort_Permutation (l : list A) : Permutation (sort after l) l.
Proof.
  induction l as [|x l IH]; simpl; [done|].
  rewrite sort_insert_Permutation. by constructor.
Qed.

Lemma sort_In (l : list A) (x : A) : In x (sort after l) <-> In x l.
Proof.
  split; apply Permutation_in; [|symmetry]; apply sort_Permutation.
Qed.

(** The elements of the list all satisfy [P], and on such elements the
    comparator is consistent: "not after" is total and transitive. *)
Variable P : A -> Prop.
Hypothesis after_asym :
  forall x y, P x -> P y -> after x y = true -> after y x = false.
Hypothesis before_trans :
  forall x y z, P x -> P y -> P z ->
    after x y = false -> after y z = false -> after x z = false.

Lemma sort_insert_sorted (x : A) (l : list A) :
  P x -> Forall P l ->
  StronglySorted (fun a b => after a b = false) l ->
  StronglySorted (fun a b => after a b = false) (sort_insert after x l).
Proof.
  intros Hx Hl Hs. induction Hs as [|y l Hs IH Hy]; simpl.
  - repeat constructor.
  - apply Forall_cons in Hl as [Py Pl].  destruct (after x y) eqn:E.
    + constructor; [by apply IH|].
      apply List.Forall_forall. intros z Hz.
      apply (Permutation_in _ (sort_insert_Permutation x l)) in Hz.
      destruct Hz as [<-|Hz]; [by apply after_asym|].
      rewrite List.Forall_forall in Hy. by apply Hy.
    + constructor; [by constructor|].
      constructor; [done|].
      rewrite List.Forall_forall in Hy, Pl. apply List.Forall_forall. intros z Hz.
      apply (before_trans x y z); auto.
Qed.

Lemma sort_sorted (l : list A) :
  Forall P l -> StronglySorted (fun a b => after a b = false) (sort after l).
Proof.
  induction 1 as [|x l Hx Hl IH]; simpl; [constructor|].
  apply sort_insert_sorted; [done| |exact IH].
  apply List.Forall_forall. intros z Hz. apply (proj1 (sort_In l z)) in Hz.
  rewrite List.Forall_forall in Hl. by apply Hl.
Qed.

(** Stability: elements none of which sorts after another keep their
    order. *)
Lemma sort_insert_stable (g : A -> bool) (x : A) (l : list A) :
  (forall y, In y l -> g x = true -> g y = true -> after x y = false) ->
  List.filter g (sort_insert after x l) = List.filter g (x :: l).
Proof.
  induction l as [|y l IH]; intros H; [done|].
  cbn [sort_insert]. destruct (after x y) eqn:E; [|done].
  cbn [List.filter]. rewrite IH by (intros; apply H; simpl; auto).
  cbn [List.filter].
  destruct (g x) eqn:Gx, (g y) eqn:Gy; try done.
  rewrite H in E; simpl; auto. done.
Qed.

Lemma sort_stable (g : A -> bool) (l : list A) :
  (forall x y, In x l -> In y l -> g x = true -> g y = true -> after x y = false) ->
  List.filter g (sort after l) = List.filter g l.
Proof.
  induction l as [|x l IH]; intros H; [done|].
  cbn [sort foldr]. fold (sort after l).
  rewrite sort_insert_stable.
  - cbn [List.filter]. rewrite IH; [done|]. intros; apply H; simpl; auto.
  - intros y Hy. apply (proj1 (sort_In l y)) in Hy. apply H; simpl; auto.
Qed.

End SortFacts.

(** Two stable sortings of the same elements are the same list, so the
    result of [sort] is that of any stable sorting algorithm. *)
Section SortUnique.
Context {A : Type} (after : A -> A -> bool).
Hypothesis after_asym : forall x y, after x y = true -> after y x = false.
Hypothesis before_trans :
  forall x y z, after x y = false -> after y z = false -> after x z = false.

Lemma after_irrefl x : after x x = false.
Proof.
  destruct (after x x) eqn:E; [|done].
  pose proof (after_asym x x E). congruence.
Qed.

Lemma tied_refl x : tied after x x = true.
Proof. unfold tied. by rewrite after_irrefl. Qed.

Lemma stable_sorted_unique (r1 r2 : list A) :
  Permutation r1 r2 ->
  StronglySorted (fun a b => after a b = false) r1 ->
  StronglySorted (fun a b => after a b = false) r2 ->
  (forall z, List.filter (tied after z) r1 = List.filter (tied after z) r2) ->
  r1 = r2.
Proof.
  revert r2. induction r1 as [|x r1 IH]; intros r2 Hp S1 S2 Hf.
  - by apply Permutation_nil in Hp.
  - destruct r2 as [|y r2]; [by apply Permutation_sym, Permutation_nil in Hp|].
    apply StronglySorted_inv in S1 as [S1 Hx], S2 as [S2 Hy].
    rewrite List.Forall_forall in Hx, Hy.
    assert (tied after x y = true) as Hxy.
    { unfold tied. apply andb_true_iff. split; apply negb_true_iff.
      - assert (In y (x :: r1)) as [->|Hin]
          by (eapply Permutation_in; [symmetry; exact Hp|by left]).
        + apply after_irrefl.
        + by apply Hx.
      - assert (In x (y :: r2)) as [->|Hin]
          by (eapply Permutation_in; [exact Hp|by left]).
        + apply after_irrefl.
        + by apply Hy. }
    pose proof (Hf x) as Hfx. cbn [List.filter] in Hfx.
    rewrite tied_refl, Hxy in Hfx. injection Hfx as <- _.
    f_equal. apply IH; [by eapply Permutation_cons_inv|done|done|].
    intros z. specialize (Hf z). cbn [List.filter] in Hf.
    destruct (tied after z x); [by injection Hf|done].
Qed.

Lemma sort_tied_stable (l : list A) (z : A) :
  List.filter (tied after z) (sort after l) = List.filter (tied after z) l.
Proof.
  apply sort_stable. intros x y _ _ Hx Hy.
  unfold tied in Hx, Hy.
  apply andb_true_iff in Hx as [_ Hx], Hy as [Hy _].
  apply negb_true_iff in Hx, Hy. by eapply before_trans.
Qed.

Lemma sort_unique (l r : list A) :
  Permutation r l ->
  StronglySorted (fun a b => after a b = false) r ->
  (forall z, List.filter (tied after z) r = List.filter (tied after z) l) ->
  r = sort after l.
Proof.
  intros Hp Hs Hf. apply stable_sorted_unique.
  - rewrite Hp. symmetry. apply sort_Permutation.
  - done.
  - apply (sort_sorted after (fun _ => True)); [auto|eauto|by apply Forall_true].
  - intros z. by rewrite Hf, sort_tied_stable.
Qed.

End SortUnique.

(** ** The edit distance *)

Lemma lev_nil_r s : lev s [] = length s.
Proof. by destruct s. Qed.

Lemma lev_cons a s b t :
  lev (a :: s) (b :: t) =
  Nat.min (S (lev s (b :: t)))
    (Nat.min (S (lev (a :: s) t)) (lev s t + (if Ascii.eqb a b then 0 else 1))).
Proof. reflexivity. Qed.

Lemma edits_nil_l t : edits [] t (length t).
Proof. induction t; simpl; by constructor. Qed.

Lemma edits_nil_r s : edits s [] (length s).
Proof. induction s; simpl; by constructor. Qed.

Lemma lev_edits s t : edits s t (lev s t).
Proof.
  revert t. induction s as [|a s IHs]; intros t; [apply edits_nil_l|].
  induction t as [|b t IHt]; [apply edits_nil_r|].
  rewrite lev_cons.
  destruct (Nat.min_spec (S (lev s (b :: t)))
              (Nat.min (S (lev (a :: s) t)) (lev s t + (if Ascii.eqb a b then 0 else 1))))
    as [[_ ->]|[_ ->]]; [by constructor|].
  destruct (Nat.min_spec (S (lev (a :: s) t)) (lev s t + (if Ascii.eqb a b then 0 else 1)))
    as [[_ ->]|[_ ->]]; [by constructor|].
  destruct (Ascii.eqb_spec a b) as [->|_].
  - rewrite Nat.add_0_r. by constructor.
  - rewrite Nat.add_1_r. by constructor.
Qed.

Lemma lev_least s t n : edits s t n -> lev s t <= n.
Proof.
  induction 1 as [|c s t n _ IH|c d s t n _ IH|c s t n _ IH|d s t n _ IH].
  - done.
  - rewrite lev_cons, Ascii.eqb_refl. lia.
  - rewrite lev_cons. destruct (Ascii.eqb c d); lia.
  - destruct t as [|b t]; [rewrite lev_nil_r in *; simpl; lia|].
    rewrite lev_cons. lia.
  - destruct s as [|a s]; [simpl in *; lia|].
    rewrite lev_cons. lia.
Qed.

Lemma lev_edit_distance s t : edit_distance s t (lev s t).
Proof. split; [apply lev_edits|apply lev_least]. Qed.

Lemma edit_distance_unique s t d d' :
  edit_distance s t d -> edit_distance s t d' -> d = d'.
Proof. intros [H1 H2] [H3 H4]. apply H2 in H3. apply H4 in H1. lia. Qed.

(** Scripts can be read backwards and from right to left. *)
Lemma edits_sym s t n : edits s t n -> edits t s n.
Proof. induction 1; by constructor. Qed.

Lemma edits_keep_snoc c s t n : edits s t n -> edits (s ++ [c]) (t ++ [c]) n.
Proof. induction 1; simpl; repeat constructor; done. Qed.

Lemma edits_substitute_snoc c d s t n :
  edits s t n -> edits (s ++ [c]) (t ++ [d]) (S n).
Proof. induction 1; simpl; repeat constructor; done. Qed.

Lemma edits_delete_snoc c s t n : edits s t n -> edits (s ++ [c]) t (S n).
Proof. induction 1; simpl; repeat constructor; done. Qed.

Lemma edits_insert_snoc d s t n : edits s t n -> edits s (t ++ [d]) (S n).
Proof. induction 1; simpl; repeat constructor; done. Qed.

Lemma edits_rev s t n : edits s t n -> edits (rev s) (rev t) n.
Proof.
  induction 1; simpl;
    auto using edits_nil, edits_keep_snoc, edits_substitute_snoc,
               edits_delete_snoc, edits_insert_snoc.
Qed.

Lemma lev_sym s t : lev s t = lev t s.
Proof.
  apply Nat.le_antisymm; apply lev_least, edits_sym, lev_edits.
Qed.

Lemma lev_rev s t : lev (rev s) (rev t) = lev s t.
Proof.
  apply Nat.le_antisymm.
  - apply lev_least, edits_rev, lev_edits.
  - rewrite <- (rev_involutive s), <- (rev_involutive t) at 1.
    apply lev_least, edits_rev, lev_edits.
Qed.

Lemma lev_refl s : lev s s = 0.
Proof.
  assert (edits s s 0) as H by (induction s; by constructor).
  apply lev_least in H. lia.
Qed.

(** The recurrence on prefixes, as the table is filled. *)
Lemma lev_snoc s a t b :
  lev (s ++ [a]) (t ++ [b]) =
  Nat.min (lev s (t ++ [b]) + 1)
    (Nat.min (lev (s ++ [a]) t + 1) (lev s t + (if Ascii.eqb a b then 0 else 1))).
Proof.
  rewrite <- (lev_rev (s ++ [a]) (t ++ [b])), !rev_app_distr.
  cbn [rev app]. rewrite lev_cons.
  change (b :: rev t) with (rev [b] ++ rev t).
  change (a :: rev s) with (rev [a] ++ rev s).
  rewrite <- !rev_app_distr, !lev_rev. lia.
Qed.

(** ** The table of [levenshtein] *)

Lemma for_each_seq {S : Type} (Inv : nat -> S -> Prop)
    (body : nat -> S -> option S) (lo len : nat) (s : S) :
  Inv lo s ->
  (forall k s, lo <= k < lo + len -> Inv k s ->
     exists s', body k s = Some s' /\ Inv (Datatypes.S k) s') ->
  exists s', for_each (seq lo len) body s = Some s' /\ Inv (lo + len) s'.
Proof.
  revert lo s. induction len as [|len IH]; intros lo s H0 Hstep; simpl.
  - exists s. by rewrite Nat.add_0_r.
  - destruct (Hstep lo s) as (s1 & E1 & H1); [lia|done|].
    rewrite E1. simpl.
    destruct (IH (Datatypes.S lo) s1) as (s2 & E2 & H2); [done| |].
    + intros k s' Hk. apply Hstep. lia.
    + exists s2. split; [done|]. by replace (lo + Datatypes.S len) with (Datatypes.S lo + len) by lia.
Qed.

Lemma table_shape_init m n :
  table_shape m n (replicate (m + 1) (replicate (n + 1) 0)).
Proof.
  split.
  - rewrite length_replicate. lia.
  - apply Forall_replicate. rewrite length_replicate. lia.
Qed.

Lemma mset_spec m n dp i j v :
  table_shape m n dp -> i <= m -> j <= n ->
  exists dp', mset dp i j v = Some dp' /\ table_shape m n dp' /\
    forall i' j', mget dp' i' j' =
      if decide (i' = i /\ j' = j) then Some v else mget dp i' j'.
Proof.
  intros [Hlen Hrows] Hi Hj.
  destruct (lookup_lt_is_Some_2 dp i) as [row Hrow]; [lia|].
  assert (length row = S n) as Hrowlen.
  { by eapply (proj1 (Forall_lookup _ _) Hrows). }
  unfold mset. rewrite Hrow. simpl.
  destruct (decide (j < length row)) as [_|]; [|lia].
  eexists. split; [done|]. split.
  - split; [by rewrite length_insert|].
    apply Forall_insert; [done|]. by rewrite length_insert.
  - intros i' j'. unfold mget.
    destruct (decide (i' = i)) as [->|Hne].
    + rewrite list_lookup_insert_eq by lia. simpl.
      destruct (decide (j' = j)) as [->|Hnj].
      * rewrite list_lookup_insert_eq by lia.
        by destruct (decide (i = i /\ j = j)) as [_|[]].
      * rewrite list_lookup_insert_ne by done. rewrite Hrow. simpl.
        by destruct (decide (i = i /\ j' = j)) as [[]|_].
    + rewrite list_lookup_insert_ne by done.
      by destruct (decide (i' = i /\ j' = j)) as [[]|_].
Qed.

Section Table.
Variables a b : str.

Lemma prefix_lev_0_l j : j <= length b -> prefix_lev a b 0 j = j.
Proof. intros. unfold prefix_lev. simpl. rewrite length_take. lia. Qed.

Lemma prefix_lev_0_r i : i <= length a -> prefix_lev a b i 0 = i.
Proof.
  intros. unfold prefix_lev. rewrite take_0, lev_nil_r, length_take. lia.
Qed.

Lemma prefix_lev_S i j ai bj :
  a !! i = Some ai -> b !! j = Some bj ->
  prefix_lev a b (S i) (S j) =
  Nat.min (prefix_lev a b i (S j) + 1)
    (Nat.min (prefix_lev a b (S i) j + 1)
             (prefix_lev a b i j + (if Ascii.eqb ai bj then 0 else 1))).
Proof.
  intros Ha Hb. unfold prefix_lev.
  rewrite (take_S_r a i ai Ha), (take_S_r b j bj Hb). apply lev_snoc.
Qed.

Lemma prefix_lev_full : prefix_lev a b (length a) (length b) = lev a b.
Proof. unfold prefix_lev. by rewrite !firstn_all. Qed.

(** The two loops that write column 0 and row 0. *)
Lemma borders_filled :
  exists dp1 dp2,
    for_each (seq 0 (length a + 1)) (fun i dp => mset dp i 0 i)
      (replicate (length a + 1) (replicate (length b + 1) 0)) = Some dp1 /\
    for_each (seq 0 (length b + 1)) (fun j dp => mset dp 0 j j) dp1 = Some dp2 /\
    filled a b 1 1 dp2.
Proof.
  destruct (for_each_seq
    (fun k dp => table_shape (length a) (length b) dp /\
                 forall i, i < k -> mget dp i 0 = Some i)
    (fun i dp => mset dp i 0 i) 0 (length a + 1)
    (replicate (length a + 1) (replicate (length b + 1) 0)))
    as (dp1 & E1 & Hs1 & H1).
  { split; [apply table_shape_init|]. intros; lia. }
  { intros k dp Hk [Hs Hc].
    destruct (mset_spec _ _ dp k 0 k Hs) as (dp' & E & Hs' & Hg); [lia..|].
    exists dp'. split; [done|]. split; [done|].
    intros i Hi. rewrite Hg. destruct (decide (i = k /\ 0 = 0)) as [[-> _]|Hn]; [done|].
    apply Hc. lia. }
  destruct (for_each_seq
    (fun k dp => table_shape (length a) (length b) dp /\
                 (forall i, i <= length a -> mget dp i 0 = Some i) /\
                 forall j, j < k -> mget dp 0 j = Some j)
    (fun j dp => mset dp 0 j j) 0 (length b + 1) dp1)
    as (dp2 & E2 & Hs2 & Hc2 & Hr2).
  { split; [done|]. split; [|intros; lia]. intros i Hi. apply H1. lia. }
  { intros k dp Hk (Hs & Hc & Hr).
    destruct (mset_spec _ _ dp 0 k k Hs) as (dp' & E & Hs' & Hg); [lia..|].
    exists dp'. split; [done|]. split; [done|]. split.
    - intros i Hi. rewrite Hg.
      destruct (decide (i = 0 /\ 0 = k)) as [[-> <-]|Hn]; [done|]. by apply Hc.
    - intros j Hj. rewrite Hg.
      destruct (decide (0 = 0 /\ j = k)) as [[_ ->]|Hn]; [done|].
      apply Hr. lia. }
  exists dp1, dp2. split; [done|]. split; [done|]. split; [done|].
  intros i' j' Hi Hj Hcase.
  destruct (decide (i' = 0)) as [->|Hi0].
  - rewrite prefix_lev_0_l by done. apply Hr2. lia.
  - assert (j' = 0) as -> by lia.
    rewrite prefix_lev_0_r by done. by apply Hc2.
Qed.

(** One write of the inner loop. *)
Lemma lev_cell_filled i j dp :
  1 <= i <= length a -> 1 <= j <= length b ->
  filled a b i j dp ->
  exists dp', lev_cell a b i j dp = Some dp' /\ filled a b i (S j) dp'.
Proof.
  intros Hi Hj [Hs Hc].
  destruct (lookup_lt_is_Some_2 a (i - 1)) as [ai Ha]; [lia|].
  destruct (lookup_lt_is_Some_2 b (j - 1)) as [bj Hb]; [lia|].
  unfold lev_cell. rewrite Ha, Hb. simpl.
  rewrite (Hc (i - 1) j), (Hc i (j - 1)), (Hc (i - 1) (j - 1)) by lia. simpl.
  destruct (mset_spec _ _ dp i j
    (Nat.min (prefix_lev a b (i - 1) j + 1)
       (Nat.min (prefix_lev a b i (j - 1) + 1)
          (prefix_lev a b (i - 1) (j - 1) + (if Ascii.eqb ai bj then 0 else 1)))) Hs)
    as (dp' & E & Hs' & Hg); [lia..|].
  exists dp'. split; [done|]. split; [done|].
  intros i' j' Hi' Hj' Hcase. rewrite Hg.
  destruct (decide (i' = i /\ j' = j)) as [[-> ->]|Hn]; [|apply Hc; lia].
  f_equal. symmetry.
  replace i with (S (i - 1)) at 1 3 by lia.
  replace j with (S (j - 1)) at 1 2 by lia.
  by apply prefix_lev_S.
Qed.

(** The nested loops. *)
Lemma rows_filled dp :
  filled a b 1 1 dp ->
  exists dp',
    for_each (seq 1 (length a)) (fun i dp =>
      for_each (seq 1 (length b)) (fun j dp => lev_cell a b i j dp) dp) dp
    = Some dp' /\ filled a b (1 + length a) 1 dp'.
Proof.
  intros H0.
  apply (for_each_seq (fun i dp => filled a b i 1 dp)); [done|].
  intros i dpi Hi Hrow.
  destruct (for_each_seq (fun j dp => filled a b i j dp)
              (fun j dp => lev_cell a b i j dp) 1 (length b) dpi Hrow)
    as (dp' & E & Hs & Hc).
  { intros j dpj Hj. apply lev_cell_filled; lia. }
  exists dp'. split; [done|]. split; [done|].
  intros i' j' Hi' Hj' Hcase. apply Hc; lia.
Qed.

End Table.

Lemma lev_table_filled a b :
  exists dp, lev_table a b = Some dp /\ filled a b (1 + length a) 1 dp.
Proof.
  unfold lev_table.
  destruct (borders_filled a b) as (dp1 & dp2 & E1 & E2 & H2).
  rewrite E1. simpl. rewrite E2. simpl.
  by apply rows_filled.
Qed.

Lemma truthy_false s : truthy s = false -> s = [].
Proof. by destruct s. Qed.

Lemma levenshtein_lev a b :
  levenshtein a b = Some (lev (normalize a) (normalize b)).
Proof.
  unfold levenshtein.
  destruct (truthy (normalize a)) eqn:Ea; simpl.
  2:{ apply truthy_false in Ea. rewrite Ea. by simpl. }
  destruct (truthy (normalize b)) eqn:Eb; simpl.
  2:{ apply truthy_false in Eb. rewrite Eb, lev_nil_r. f_equal. simpl. lia. }
  destruct (lev_table_filled (normalize a) (normalize b)) as (dp & E & _ & H).
  rewrite E. simpl. rewrite H by lia. by rewrite prefix_lev_full.
Qed.

(** ** Scripts and chains of single edits *)

Lemma edits_refl s : edits s s 0.
Proof. induction s; by constructor. Qed.

Lemma edits_prefix p s t n : edits s t n -> edits (p ++ s) (p ++ t) n.
Proof. intros H. induction p; simpl; [done|by constructor]. Qed.

Lemma one_edit_edits s t : one_edit s t -> edits s t 1.
Proof.
  destruct 1; apply edits_prefix; constructor; apply edits_refl.
Qed.

(** Scripts compose: the triangle inequality. *)
Lemma edits_compose s t n :
  edits s t n ->
  forall u m, edits t u m -> exists k, k <= n + m /\ edits s u k.
Proof.
  induction 1 as [|c s t n _ IH|c d s t n _ IH|c s t n _ IH|d s t n _ IH];
    intros u m H2.
  - exists m. by split.
  - remember (c :: t) as ct eqn:E. revert E.
    induction H2 as [|c' t' u m H2 _|c' e t' u m H2 _|c' t' u m H2 _|e t'' u m H2 IH2];
      intros E; try discriminate.
    + injection E as -> ->. destruct (IH _ _ H2) as (k & Hk & Hs).
      exists k. split; [lia|by constructor].
    + injection E as -> ->. destruct (IH _ _ H2) as (k & Hk & Hs).
      exists (S k). split; [lia|by constructor].
    + injection E as -> ->. destruct (IH _ _ H2) as (k & Hk & Hs).
      exists (S k). split; [lia|by constructor].
    + destruct (IH2 E) as (k & Hk & Hs).
      exists (S k). split; [lia|by constructor].
  - remember (d :: t) as dt eqn:E. revert E.
    induction H2 as [|c' t' u m H2 _|c' e t' u m H2 _|c' t' u m H2 _|e t'' u m H2 IH2];
      intros E; try discriminate.
    + injection E as -> ->. destruct (IH _ _ H2) as (k & Hk & Hs).
      exists (S k). split; [lia|by constructor].
    + injection E as -> ->. destruct (IH _ _ H2) as (k & Hk & Hs).
      exists (S k). split; [lia|by constructor].
    + injection E as -> ->. destruct (IH _ _ H2) as (k & Hk & Hs).
      exists (S k). split; [lia|by constructor].
    + destruct (IH2 E) as (k & Hk & Hs).
      exists (S k). split; [lia|by constructor].
  - destruct (IH _ _ H2) as (k & Hk & Hs).
    exists (S k). split; [lia|by constructor].
  - remember (d :: t) as dt eqn:E. revert E.
    induction H2 as [|c' t' u m H2 _|c' e t' u m H2 _|c' t' u m H2 _|e t'' u m H2 IH2];
      intros E; try discriminate.
    + injection E as -> ->. destruct (IH _ _ H2) as (k & Hk & Hs).
      exists (S k). split; [lia|by constructor].
    + injection E as -> ->. destruct (IH _ _ H2) as (k & Hk & Hs).
      exists (S k). split; [lia|by constructor].
    + injection E as -> ->. destruct (IH _ _ H2) as (k & Hk & Hs).
      exists k. split; [lia|done].
    + destruct (IH2 E) as (k & Hk & Hs).
      exists (S k). split; [lia|by constructor].
Qed.

Lemma lev_triangle s t u : lev s u <= lev s t + lev t u.
Proof.
  destruct (edits_compose s t _ (lev_edits s t) u _ (lev_edits t u))
    as (k & Hk & Hs).
  apply lev_least in Hs. lia.
Qed.

Lemma one_edit_cons c s t : one_edit s t -> one_edit (c :: s) (c :: t).
Proof.
  destruct 1 as [p x s|p x s|p x y s].
  - apply (one_insert (c :: p)).
  - apply (one_delete (c :: p)).
  - apply (one_substitute (c :: p)).
Qed.

Lemma edit_chain_cons c n s t : edit_chain n s t -> edit_chain n (c :: s) (c :: t).
Proof.
  induction 1 as [|n s t u H1 _ IH]; [constructor|].
  eapply chain_step; [by apply one_edit_cons|done].
Qed.

Lemma edits_chain s t n : edits s t n -> edit_chain n s t.
Proof.
  induction 1 as [|c s t n _ IH|c d s t n _ IH|c s t n _ IH|d s t n _ IH].
  - constructor.
  - by apply edit_chain_cons.
  - eapply chain_step; [apply (one_substitute [] c d s)|by apply edit_chain_cons].
  - eapply chain_step; [apply (one_delete [] c s)|done].
  - eapply chain_step; [apply (one_insert [] d s)|by apply edit_chain_cons].
Qed.

Lemma chain_lev n s t : edit_chain n s t -> lev s t <= n.
Proof.
  induction 1 as [s|n s t u H1 _ IH].
  - by rewrite lev_refl.
  - pose proof (lev_triangle s t u).
    pose proof (lev_least _ _ _ (one_edit_edits _ _ H1)). lia.
Qed.

Lemma lev_least_edits s t : least_edits s t (lev s t).
Proof. split; [apply edits_chain, lev_edits|intros n; apply chain_lev]. Qed.
(** ** Substrings *)

Lemma startsWith_spec s t : startsWith s t = true <-> exists post, s = t ++ post.
Proof.
  revert s. induction t as [|b t IH]; intros s; simpl.
  - split; [by exists s|done].
  - destruct s as [|a s].
    + split; [done|]. by intros [post H].
    + rewrite andb_true_iff, IH. split.
      * intros [Hab [post ->]]. apply Ascii.eqb_eq in Hab as ->. by exists post.
      * intros [post H]. injection H as -> ->. split; [apply Ascii.eqb_refl|by exists post].
Qed.

Lemma includes_spec s t : includes s t = true <-> substring t s.
Proof.
  unfold substring. induction s as [|a s IH]; cbn [includes].
  - rewrite orb_false_r, startsWith_spec. split.
    + intros [post H]. by exists [], post.
    + intros (pre & post & H). destruct pre; [by exists post|done].
  - rewrite orb_true_iff, startsWith_spec, IH. split.
    + intros [[post H]|(pre & post & H)].
      * by exists [], post.
      * exists (a :: pre), post. by rewrite H.
    + intros (pre & post & H). destruct pre as [|c pre].
      * left. by exists post.
      * right. injection H as _ H. by exists pre, post.
Qed.

Lemma includes_refl s : includes s s = true.
Proof. apply includes_spec. exists [], []. by rewrite app_nil_r. Qed.

Lemma includes_nil s : includes s [] = true.
Proof. by destruct s. Qed.

(** ** [overlapScore] *)

Lemma count_hits (f : str -> bool) (l : list str) (k : nat) :
  fold_left (fun hits w => if f w then hits + 1 else hits) l k =
  k + length (List.filter f l).
Proof.
  revert k. induction l as [|w l IH]; intros k; simpl; [lia|].
  rewrite IH. destruct (f w); simpl; lia.
Qed.

Lemma filter_length_le {A} (f : A -> bool) (l : list A) :
  length (List.filter f l) <= length l.
Proof. induction l as [|x l IH]; simpl; [done|]. destruct (f x); simpl; lia. Qed.

Lemma word_hits_spec hs w :
  word_hits hs w = true <->
  exists hw, In hw hs /\ (substring w hw \/ substring hw w).
Proof.
  unfold word_hits. rewrite existsb_exists.
  split; intros (hw & Hin & H); exists hw; (split; [done|]).
  - apply orb_true_iff in H. by rewrite <- !includes_spec.
  - apply orb_true_iff. by rewrite !includes_spec.
Qed.

Lemma ratio_unit (h mx : nat) :
  h <= mx -> 0 < mx -> (0 <= Z.of_nat h # Pos.of_nat mx <= 1)%Q.
Proof.
  intros Hle Hpos. unfold Qle. simpl.
  assert (Z.pos (Pos.of_nat mx) = Z.of_nat mx) as ->.
  { rewrite <- positive_nat_Z, Nat2Pos.id; [done|lia]. }
  lia.
Qed.

Lemma overlapScore_value q hay :
  overlapScore q hay =
  if (length (words q) =? 0) || (length (words hay) =? 0) then Num 0
  else Num (Z.of_nat (length (List.filter (word_hits (words hay)) (words q)))
            # Pos.of_nat (Nat.max (length (words q)) (length (words hay)))).
Proof.
  unfold overlapScore.
  destruct (length (words q) =? 0) eqn:Eq; [done|].
  destruct (length (words hay) =? 0) eqn:Eh; [done|].
  cbn [orb]. rewrite count_hits. cbn [Nat.add].
  apply Nat.eqb_neq in Eq, Eh.
  unfold div_counts.
  destruct (Nat.max (length (words q)) (length (words hay))) eqn:Em; [lia|done].
Qed.

Lemma overlapScore_unit q hay :
  exists r, overlapScore q hay = Num r /\ (0 <= r <= 1)%Q.
Proof.
  rewrite overlapScore_value.
  destruct (length (words q) =? 0) eqn:Eq; [by exists 0%Q|].
  destruct (length (words hay) =? 0) eqn:Eh; [by exists 0%Q|].
  cbn [orb]. eexists. split; [done|].
  apply Nat.eqb_neq in Eq, Eh.
  pose proof (filter_length_le (word_hits (words hay)) (words q)).
  apply ratio_unit; lia.
Qed.


(** ** [searchIndex] *)

Lemma score_item_entry query item : entry (score_item query item) = item.
Proof. reflexivity. Qed.

Lemma existsb_map {A B} (f : B -> bool) (g : A -> B) l :
  existsb f (map g l) = existsb (fun x => f (g x)) l.
Proof. induction l as [|x l IH]; simpl; [done|]. by rewrite IH. Qed.

Lemma score_item_score query item :
  __score (score_item query item) =
  (field_score query item + Z.min 2 (Z.of_nat (token_hits query item)))%Z.
Proof.
  unfold score_item, field_score, token_hits, token_haystack, query_tokens.
  cbn [__score]. rewrite existsb_map.
  set (qTokens := List.filter truthy (split_ws (normalize query))).
  destruct (0 <? length qTokens) eqn:E.
  - destruct (includes (toLowerCase (title item)) (toLowerCase query)),
      (existsb (fun x => includes (toLowerCase x) (toLowerCase query)) (keywords_of item)),
      (includes (toLowerCase (url item)) (toLowerCase query)); lia.
  - apply Nat.ltb_ge in E. destruct qTokens; [|simpl in E; lia]. simpl.
    destruct (includes (toLowerCase (title item)) (toLowerCase query)),
      (existsb (fun x => includes (toLowerCase x) (toLowerCase query)) (keywords_of item)),
      (includes (toLowerCase (url item)) (toLowerCase query)); lia.
Qed.

Lemma field_score_range query item : (0 <= field_score query item <= 8)%Z.
Proof.
  unfold field_score.
  destruct (includes _ _), (existsb _ _), (includes _ _); lia.
Qed.

Lemma score_item_nonneg query item : (0 <= __score (score_item query item))%Z.
Proof.
  rewrite score_item_score. pose proof (field_score_range query item). lia.
Qed.

Lemma filter_In_iff {A} (f : A -> bool) (l : list A) x :
  In x (List.filter f l) <-> In x l /\ f x = true.
Proof. apply List.filter_In. Qed.

Lemma StronglySorted_weaken {A} (R R' : A -> A -> Prop) (l : list A) :
  (forall a b, R a b -> R' a b) -> StronglySorted R l -> StronglySorted R' l.
Proof.
  intros HR. induction 1 as [|x l Hs IH Hx]; constructor; [done|].
  eapply List.Forall_impl; [|exact Hx]. apply HR.
Qed.

Section RankFacts.
Variable localeCompare : str -> str -> Z.

Lemma searchIndex_In index query x :
  In x (searchIndex localeCompare index query) <->
  (exists item, In item index /\ x = score_item query item) /\ (0 < __score x)%Z.
Proof.
  unfold searchIndex. rewrite sort_In, filter_In_iff, in_map_iff, Z.ltb_lt.
  split; intros [(item & H1 & H2) H3]; (split; [exists item|done]); auto.
Qed.

Lemma searchIndex_Permutation index query :
  Permutation (searchIndex localeCompare index query)
    (List.filter (fun x => (0 <? __score x)%Z) (map (score_item query) index)).
Proof. apply sort_Permutation. Qed.

Lemma rank_compare_before a b :
  (0 <? rank_compare localeCompare a b)%Z = false <-> rank_before localeCompare a b.
Proof.
  unfold rank_compare, rank_before. rewrite Z.ltb_ge.
  destruct (Z.eqb_spec (__score b - __score a) 0); lia.
Qed.

(** The collation is a consistent comparator. *)
Hypothesis localeCompare_asym :
  forall s t, (0 < localeCompare s t)%Z -> (localeCompare t s <= 0)%Z.
Hypothesis localeCompare_trans :
  forall s t u, (localeCompare s t <= 0)%Z -> (localeCompare t u <= 0)%Z ->
                (localeCompare s u <= 0)%Z.

Lemma rank_after_asym a b :
  (0 <? rank_compare localeCompare a b)%Z = true ->
  (0 <? rank_compare localeCompare b a)%Z = false.
Proof.
  rewrite Z.ltb_lt, Z.ltb_ge. unfold rank_compare.
  destruct (Z.eqb_spec (__score b - __score a) 0),
           (Z.eqb_spec (__score a - __score b) 0); try lia.
  apply localeCompare_asym.
Qed.

Lemma rank_before_trans a b c :
  (0 <? rank_compare localeCompare a b)%Z = false ->
  (0 <? rank_compare localeCompare b c)%Z = false ->
  (0 <? rank_compare localeCompare a c)%Z = false.
Proof.
  rewrite !rank_compare_before. unfold rank_before.
  intros [H1|[H1 L1]] [H2|[H2 L2]]; try (left; lia).
  right. split; [lia|]. by eapply localeCompare_trans.
Qed.

Lemma searchIndex_sorted index query :
  StronglySorted (rank_before localeCompare) (searchIndex localeCompare index query).
Proof.
  unfold searchIndex.
  eapply StronglySorted_weaken; [|apply (sort_sorted _ (fun _ => True))].
  - intros a b. apply rank_compare_before.
  - intros a b _ _. apply rank_after_asym.
  - intros a b c _ _ _. apply rank_before_trans.
  - by apply Forall_true.
Qed.

End RankFacts.

(** * Binary64

    The primitive floats are specified by [SpecFloat]: a float is a zero,
    an infinity, [NaN] or a sign, a mantissa and an exponent, and every
    operation is the exact one followed by the rounding to the nearest
    float, ties to even.  What the suggestion sort needs of it: on floats
    greater than zero the test [b - a > 0] is the test [a < b], and [<] is
    a strict weak order there. *)

Section Binary64.

Import SpecFloat.
Local Open Scope Z_scope.

Local Abbreviation prec := FloatOps.prec.
Local Abbreviation emax := FloatOps.emax.

(** ** The number of digits and the shifts *)

Lemma digits2_size m : digits2_pos m = Pos.size m.
Proof. induction m; simpl; congruence. Qed.

Lemma digits_bounds m :
  2 ^ (Zpos (digits2_pos m) - 1) <= Zpos m < 2 ^ Zpos (digits2_pos m).
Proof.
  rewrite digits2_size. split.
  - pose proof (Pos.size_le m) as H.
    assert (2 ^ Zpos (Pos.size m) <= 2 * Zpos m) as H'.
    { rewrite <- Pos2Z.inj_pow. change (2 * Zpos m) with (Zpos m~0). by apply Pos2Z.pos_le_pos. }
    replace (Zpos (Pos.size m)) with (Z.succ (Zpos (Pos.size m) - 1)) in H' by lia.
    rewrite Z.pow_succ_r in H' by lia. lia.
  - pose proof (Pos.size_gt m) as H. rewrite <- Pos2Z.inj_pow. by apply Pos2Z.pos_lt_pos.
Qed.

Lemma iter_xO m d : Zpos (Pos.iter xO m d) = Zpos m * 2 ^ Zpos d.
Proof.
  induction d as [|d IH] using Pos.peano_ind.
  - simpl. lia.
  - rewrite Pos.iter_succ, Pos2Z.inj_succ, Z.pow_succ_r by lia.
    rewrite Pos2Z.inj_xO, IH. lia.
Qed.

Lemma shl_align_spec m e e' :
  e' <= e ->
  Zpos (fst (shl_align m e e')) = Zpos m * 2 ^ (e - e') /\ snd (shl_align m e e') = e'.
Proof.
  intros H. unfold shl_align. destruct (e' - e) as [|d|d] eqn:E; try lia.
  - assert (e' = e) as -> by lia. rewrite Z.sub_diag. simpl. lia.
  - simpl. rewrite iter_xO. split; [|done]. f_equal. f_equal. lia.
Qed.

Lemma shl_align_exp m e e' : Z.min e e' <= snd (shl_align m e e').
Proof. unfold shl_align. destruct (e' - e) eqn:E; simpl; lia. Qed.

Lemma shr_1_spec mrs :
  0 <= shr_m mrs -> shr_m (shr_1 mrs) = shr_m mrs / 2.
Proof.
  destruct mrs as [m r s]. cbn [shr_m]. intros H. rewrite <- Z.div2_div.
  destruct m as [|[p|p|]|p]; try done.
Qed.

Lemma pow2_xO p : 2 ^ Zpos p~0 = 2 ^ Zpos p * 2 ^ Zpos p.
Proof.
  rewrite (Pos2Z.inj_xO p). replace (2 * Zpos p) with (Zpos p + Zpos p) by lia.
  apply Z.pow_add_r; lia.
Qed.

Lemma pow2_xI p : 2 ^ Zpos p~1 = 2 * (2 ^ Zpos p * 2 ^ Zpos p).
Proof.
  rewrite (Pos2Z.inj_xI p). replace (2 * Zpos p + 1) with (Z.succ (Zpos p + Zpos p)) by lia.
  rewrite Z.pow_succ_r by lia. f_equal. apply Z.pow_add_r; lia.
Qed.

Lemma iter_shr_1 p mrs :
  0 <= shr_m mrs -> shr_m (iter_pos shr_1 p mrs) = shr_m mrs / 2 ^ Zpos p.
Proof.
  revert mrs. induction p as [p IH|p IH|]; intros mrs H; cbn [iter_pos].
  - assert (0 <= shr_m (shr_1 mrs)) as H1.
    { rewrite shr_1_spec by done. by apply Z.div_pos. }
    assert (0 < 2 ^ Zpos p) as Hp by (by apply Z.pow_pos_nonneg).
    assert (0 <= shr_m (iter_pos shr_1 p (shr_1 mrs))) as H2.
    { rewrite IH by done. by apply Z.div_pos. }
    rewrite IH, IH, shr_1_spec by done.
    rewrite !Z.div_div by lia. by rewrite pow2_xI, Z.mul_assoc.
  - assert (0 < 2 ^ Zpos p) as Hp by (by apply Z.pow_pos_nonneg).
    assert (0 <= shr_m (iter_pos shr_1 p mrs)) as H2.
    { rewrite IH by done. by apply Z.div_pos. }
    rewrite IH, IH by done.
    rewrite !Z.div_div by lia. by rewrite pow2_xO.
  - rewrite shr_1_spec by done. done.
Qed.

Lemma shr_record_of_loc_m m l : shr_m (shr_record_of_loc m l) = m.
Proof. by destruct l as [|[]]. Qed.

(** Shifting a positive mantissa to its format exponent, from an exponent
    that is not below [emin], leaves a positive mantissa. *)
Lemma shr_fexp_positive m e l :
  emin prec emax <= e ->
  0 < shr_m (fst (shr_fexp prec emax (Zpos m) e l)) /\
  emin prec emax <= snd (shr_fexp prec emax (Zpos m) e l).
Proof.
  intros He. unfold shr_fexp, shr. cbn [Zdigits2].
  remember (fexp prec emax (Zpos (digits2_pos m) + e) - e) as n eqn:En.
  unfold fexp, emin in En, He |- *. unfold FloatOps.prec, FloatOps.emax in En, He |- *.
  destruct n as [|p|p]; cbn [fst snd]; rewrite ?shr_record_of_loc_m; try lia.
  rewrite iter_shr_1 by (rewrite shr_record_of_loc_m; lia).
  rewrite shr_record_of_loc_m.
  split; [|lia].
  pose proof (digits_bounds m) as [Hlo _].
  assert (2 ^ Zpos p <= 2 ^ (Zpos (digits2_pos m) - 1)) as Hpow.
  { apply Z.pow_le_mono_r; lia. }
  apply Z.div_str_pos. split; [by apply Z.pow_pos_nonneg|lia].
Qed.

Lemma round_nearest_even_ge m l : m <= round_nearest_even m l.
Proof. destruct l as [|[]]; simpl; try lia. destruct (Z.even m); lia. Qed.

Lemma binary_round_aux_sign (s : bool) m e l :
  emin prec emax <= e ->
  (if s then SFnegative else SFpositive) (binary_round_aux prec emax s (Zpos m) e l) = true.
Proof.
  intros He. unfold binary_round_aux.
  destruct (shr_fexp_positive m e l He) as [H1 H1e].
  destruct (shr_fexp prec emax (Zpos m) e l) as [mrs' e'] eqn:E1. cbn [fst snd] in H1, H1e.
  pose proof (round_nearest_even_ge (shr_m mrs') (loc_of_shr_record mrs')) as Hr.
  destruct (round_nearest_even (shr_m mrs') (loc_of_shr_record mrs')) as [|m2|m2] eqn:E2;
    try lia.
  destruct (shr_fexp_positive m2 e' loc_Exact H1e) as [H2 _].
  destruct (shr_fexp prec emax (Zpos m2) e' loc_Exact) as [mrs'' e''] eqn:E3.
  cbn [fst] in H2.
  destruct (shr_m mrs'') as [|m3|m3]; try lia.
  destruct (e'' <=? emax - prec); by destruct s.
Qed.

Lemma binary_round_sign (s : bool) m e :
  emin prec emax <= e ->
  (if s then SFnegative else SFpositive) (binary_round prec emax s m e) = true.
Proof.
  intros He. unfold binary_round.
  pose proof (shl_align_exp m e (fexp prec emax (Zpos (digits2_pos m) + e))) as H.
  destruct (shl_align m e _) as [mz ez]. cbn [snd] in H.
  apply binary_round_aux_sign. unfold fexp in H. lia.
Qed.

(** The canonical form: at most [prec] digits, and fewer only at the
    least exponent. *)
Lemma bounded_canonical m e :
  bounded prec emax m e = true ->
  emin prec emax <= e /\ Zpos (digits2_pos m) <= prec /\
  (Zpos (digits2_pos m) = prec \/ e = emin prec emax).
Proof.
  unfold bounded, canonical_mantissa, fexp, emin. unfold FloatOps.prec, FloatOps.emax.
  intros [H _]%andb_prop. apply Z.eqb_eq in H. lia.
Qed.

(** The order of two positive canonical floats is the order of their
    mantissas at a common exponent. *)
Lemma aligned_compare mx ex my ey :
  bounded prec emax mx ex = true -> bounded prec emax my ey = true ->
  let ez := Z.min ey ex in
  SFcompare (S754_finite false mx ex) (S754_finite false my ey) =
  Some (Zpos (fst (shl_align mx ex ez)) ?= Zpos (fst (shl_align my ey ez))).
Proof.
  intros Hx Hy ez. cbn [SFcompare]. f_equal.
  apply bounded_canonical in Hx as (Hex & Hdx & Hcx).
  apply bounded_canonical in Hy as (Hey & Hdy & Hcy).
  destruct (shl_align_spec mx ex ez ltac:(lia)) as [-> _].
  destruct (shl_align_spec my ey ez ltac:(lia)) as [-> _].
  pose proof (digits_bounds mx) as [Hx1 Hx2].
  pose proof (digits_bounds my) as [Hy1 Hy2].
  destruct (Z.compare_spec ex ey) as [E|E|E].
  - subst ey. unfold ez. rewrite Z.min_id, Z.sub_diag. simpl. by rewrite !Pos.mul_1_r.
  - symmetry. apply Z.compare_lt_iff.
    assert (ez = ex) as -> by lia. rewrite Z.sub_diag, Z.mul_1_r.
    assert (Zpos (digits2_pos my) = prec) as Hd by lia.
    assert (2 ^ 1 <= 2 ^ (ey - ex)) as Hp by (apply Z.pow_le_mono_r; lia).
    assert (Zpos mx < 2 ^ prec) as Hmx.
    { eapply Z.lt_le_trans; [exact Hx2|]. apply Z.pow_le_mono_r; lia. }
    rewrite Hd in Hy1. unfold FloatOps.prec in *.
    change (2 ^ (53 - 1)) with 4503599627370496 in Hy1.
    change (2 ^ 53) with 9007199254740992 in Hmx. change (2 ^ 1) with 2 in Hp. nia.
  - symmetry. apply Z.compare_gt_iff.
    assert (ez = ey) as -> by lia. rewrite Z.sub_diag, Z.mul_1_r.
    assert (Zpos (digits2_pos mx) = prec) as Hd by lia.
    assert (2 ^ 1 <= 2 ^ (ex - ey)) as Hp by (apply Z.pow_le_mono_r; lia).
    assert (Zpos my < 2 ^ prec) as Hmy.
    { eapply Z.lt_le_trans; [exact Hy2|]. apply Z.pow_le_mono_r; lia. }
    rewrite Hd in Hx1. unfold FloatOps.prec in *.
    change (2 ^ (53 - 1)) with 4503599627370496 in Hx1.
    change (2 ^ 53) with 9007199254740992 in Hmy. change (2 ^ 1) with 2 in Hp. nia.
Qed.

(** For two positive floats the difference [y - x] is greater than zero
    exactly when [x] is less than [y]. *)
Lemma SFsub_positive x y :
  valid_binary prec emax x = true -> valid_binary prec emax y = true ->
  SFpositive x = true -> SFpositive y = true ->
  SFltb (S754_zero false) (SFsub prec emax y x) = SFltb x y.
Proof.
  destruct x as [sx|[]| |[] mx ex], y as [sy|[]| |[] my ey]; try done.
  intros Hx Hy _ _. cbn [valid_binary] in Hx, Hy.
  unfold SFltb at 2. rewrite (aligned_compare mx ex my ey Hx Hy).
  cbn [SFsub cond_Zopp].
  apply bounded_canonical in Hx as (Hex & _). apply bounded_canonical in Hy as (Hey & _).
  set (X := Zpos (fst (shl_align mx ex (Z.min ey ex)))).
  set (Y := Zpos (fst (shl_align my ey (Z.min ey ex)))).
  unfold binary_normalize.
  destruct (Y - X) as [|d|d] eqn:E.
  - assert ((X ?= Y) = Eq) as -> by (apply Z.compare_eq_iff; lia). done.
  - assert ((X ?= Y) = Lt) as -> by (apply Z.compare_lt_iff; lia).
    pose proof (binary_round_sign false d (Z.min ey ex) ltac:(lia)) as H.
    cbn beta iota in H. by destruct (binary_round _ _ _ _ _) as [|[]| |[] ? ?].
  - assert ((X ?= Y) = Gt) as -> by (apply Z.compare_gt_iff; lia).
    pose proof (binary_round_sign true d (Z.min ey ex) ltac:(lia)) as H.
    cbn beta iota in H. by destruct (binary_round _ _ _ _ _) as [|[]| |[] ? ?].
Qed.

(** *** The order of the positive floats *)

Lemma SFltb_asym x y :
  SFpositive x = true -> SFpositive y = true ->
  SFltb x y = true -> SFltb y x = false.
Proof.
  destruct x as [|[]| |[] mx ex], y as [|[]| |[] my ey]; try done; intros _ _;
    unfold SFltb; cbn [SFcompare]; compare_cases.
Qed.

Lemma SFltb_negtrans x y z :
  SFpositive x = true -> SFpositive y = true -> SFpositive z = true ->
  SFltb x y = false -> SFltb y z = false -> SFltb x z = false.
Proof.
  destruct x as [|[]| |[] mx ex], y as [|[]| |[] my ey], z as [|[]| |[] mz ez];
    try done; intros _ _ _; unfold SFltb; cbn [SFcompare]; compare_cases.
Qed.

Lemma SFleb_ltb x y :
  SFpositive x = true -> SFpositive y = true ->
  SFleb y x = negb (SFltb x y).
Proof.
  destruct x as [|[]| |[] mx ex], y as [|[]| |[] my ey]; try done; intros _ _;
    unfold SFltb, SFleb; cbn [SFcompare]; compare_cases.
Qed.

Lemma SFeqb_ltb s x y :
  SFpositive x = true -> SFpositive y = true ->
  SFeqb x s = true -> SFeqb y s = true -> SFltb x y = false.
Proof.
  destruct x as [|[]| |[] mx ex], y as [|[]| |[] my ey]; try done; intros _ _;
    destruct s as [|[]| |[] ms es]; try done;
    unfold SFltb, SFeqb; cbn [SFcompare]; compare_cases.
Qed.

Lemma SFleb_positive t x :
  SFpositive t = true -> SFleb t x = true -> SFpositive x = true.
Proof.
  destruct t as [|[]| |[] mt et]; try done; intros _;
    destruct x as [[]|[]| |[] mx ex]; done.
Qed.

(** *** Doubles *)

Lemma Prim2SF_zero : FloatOps.Prim2SF 0%float = S754_zero false.
Proof. reflexivity. Qed.

(** [y - x > 0] exactly when [x < y], for [x], [y] greater than zero. *)
Lemma sub_positive (x y : float) :
  SFpositive (FloatOps.Prim2SF x) = true -> SFpositive (FloatOps.Prim2SF y) = true ->
  (0 <? y - x)%float = (x <? y)%float.
Proof.
  intros Hx Hy.
  rewrite !FloatAxioms.ltb_spec, FloatAxioms.sub_spec, Prim2SF_zero.
  apply SFsub_positive; try done; apply FloatAxioms.Prim2SF_valid.
Qed.

End Binary64.

(** ** [getDidYouMeanSuggestions] *)

Lemma words_normalize s : words (normalize s) = words s.
Proof. unfold words. by rewrite normalize_normalize. Qed.

Lemma words_trim s : words (trim s) = words s.
Proof. unfold words. by rewrite normalize_trim. Qed.

Lemma overlapScore_ratio query hay :
  overlapScore query hay = Num (overlap_ratio query hay).
Proof.
  rewrite overlapScore_value. unfold overlap_ratio.
  destruct (words query); [done|]. by destruct (words hay).
Qed.

Lemma overlapScore_normalize_trim query hay :
  overlapScore (normalize query) (trim hay) = Num (overlap_ratio query hay).
Proof.
  rewrite overlapScore_ratio. unfold overlap_ratio.
  by rewrite words_normalize, words_trim.
Qed.

Lemma suggest_item_value query it :
  suggest_item (normalize query) it = Some (suggestion_of query it).
Proof.
  unfold suggest_item, suggestion_of, combined_score, suggestion_haystack.
  rewrite levenshtein_lev, normalize_normalize. simpl.
  by rewrite overlapScore_normalize_trim.
Qed.

Lemma mapM_total {A B} (f : A -> option B) (g : A -> B) (l : list A) :
  (forall x, f x = Some (g x)) -> mapM f l = Some (map g l).
Proof.
  intros H. induction l as [|x l IH]; [done|].
  cbn [mapM]. rewrite H. simpl. rewrite IH. done.
Qed.

Lemma suggestions_value index query limit :
  getDidYouMeanSuggestions index query limit =
  if length (normalize query) <? 2 then Some []
  else Some (map item
               (take (default 3 limit)
                  (sort score_after (kept_suggestions query index)))).
Proof.
  unfold getDidYouMeanSuggestions.
  destruct (length (normalize query) <? 2); [done|].
  by rewrite (mapM_total _ (suggestion_of query)) by apply suggest_item_value.
Qed.


(** The threshold is a float greater than zero, so every kept score
    is. *)
Lemma threshold_positive x :
  (0.35 <=? x)%float = true -> SFpositive (FloatOps.Prim2SF x) = true.
Proof.
  rewrite FloatAxioms.leb_spec. by apply SFleb_positive.
Qed.

Lemma score_after_lt a b :
  positive_score a -> positive_score b ->
  score_after a b = (score a <? score b)%float.
Proof. intros Ha Hb. by apply sub_positive. Qed.

Lemma score_after_asym a b :
  positive_score a -> positive_score b ->
  score_after a b = true -> score_after b a = false.
Proof.
  intros Ha Hb. rewrite !score_after_lt, !FloatAxioms.ltb_spec by done.
  by apply SFltb_asym.
Qed.

Lemma score_before_trans a b c :
  positive_score a -> positive_score b -> positive_score c ->
  score_after a b = false -> score_after b c = false -> score_after a c = false.
Proof.
  intros Ha Hb Hc. rewrite !score_after_lt, !FloatAxioms.ltb_spec by done.
  by apply SFltb_negtrans.
Qed.

Lemma score_before_ge a b :
  positive_score a -> positive_score b ->
  score_after a b = false -> (score b <=? score a)%float = true.
Proof.
  intros Ha Hb. rewrite score_after_lt, FloatAxioms.ltb_spec, FloatAxioms.leb_spec by done.
  rewrite (SFleb_ltb _ _ Ha Hb). by intros ->.
Qed.

Lemma same_score_before s a b :
  positive_score a -> positive_score b ->
  same_score s a = true -> same_score s b = true -> score_after a b = false.
Proof.
  intros Ha Hb. unfold same_score.
  rewrite score_after_lt, FloatAxioms.ltb_spec, !FloatAxioms.eqb_spec by done.
  by apply SFeqb_ltb.
Qed.

Section Ranked.
Variables (index : list IndexEntry) (query : str).

Abbreviation kept := (kept_suggestions query index).

Lemma kept_positive : Forall positive_score kept.
Proof.
  apply List.Forall_forall. intros s Hs. unfold kept_suggestions in Hs.
  apply List.filter_In in Hs as [_ Hs]. by apply threshold_positive.
Qed.

Lemma ranked_sorted :
  StronglySorted (fun a b => (score b <=? score a)%float = true)
    (sort score_after kept).
Proof.
  assert (Forall positive_score (sort score_after kept)) as Hv.
  { apply List.Forall_forall. intros s Hs. apply sort_In in Hs.
    revert s Hs. apply List.Forall_forall, kept_positive. }
  pose proof (sort_sorted score_after positive_score score_after_asym
                score_before_trans kept kept_positive) as Hs.
  induction Hs as [|x l Hs IH Hx]; [constructor|].
  apply Forall_cons in Hv as [Px Hv].
  constructor; [by apply IH|].
  rewrite List.Forall_forall in Hx, Hv. apply List.Forall_forall.
  intros y Hy. apply score_before_ge; auto.
Qed.

Lemma ranked_stable s :
  List.filter (same_score s) (sort score_after kept) =
  List.filter (same_score s) kept.
Proof.
  apply sort_stable. intros x y Hx Hy.
  pose proof kept_positive as Hv. rewrite List.Forall_forall in Hv.
  apply same_score_before; auto.
Qed.

End Ranked.
(** ** The code-unit collation is a consistent comparator *)

Lemma codeUnitCompare_asym s t :
  (0 < codeUnitCompare s t)%Z -> (codeUnitCompare t s <= 0)%Z.
Proof.
  revert t. induction s as [|a s IH]; intros [|b t]; simpl; try lia.
  rewrite (Nat.compare_antisym (code a) (code b)).
  destruct (code a ?= code b); simpl; try lia. apply IH.
Qed.

Lemma codeUnitCompare_trans s t u :
  (codeUnitCompare s t <= 0)%Z -> (codeUnitCompare t u <= 0)%Z ->
  (codeUnitCompare s u <= 0)%Z.
Proof.
  revert t u. induction s as [|a s IH]; intros [|b t] [|c u]; simpl; try lia.
  destruct (Nat.compare_spec (code a) (code b)) as [Eab|Lab|Gab]; try lia;
    destruct (Nat.compare_spec (code b) (code c)) as [Ebc|Lbc|Gbc]; try lia;
    destruct (Nat.compare_spec (code a) (code c)) as [Eac|Lac|Gac]; try lia.
  apply IH.
Qed.

(** ** Properties of [searchIndex] *)

(** C3 (as amended).  The score of an entry is the sum of its field
    matches and the token bonus, and the token bonus is [min(2, hitCount)]
    where [hitCount] counts every whitespace-split token of the normalized
    query that occurs in the lower-cased haystack (title and keywords
    joined by spaces): a token that the query repeats is counted once per
    occurrence. *)
Theorem token_bonus_counts_occurrences (query : str) (item : IndexEntry) :
  __score (score_item query item) =
    (field_score query item + Z.min 2 (Z.of_nat (token_hits query item)))%Z /\
  token_hits query item =
    length (List.filter (fun t => includes (token_haystack item) t)
              (query_tokens query)) /\
  forall t, includes (token_haystack item) t = true <->
            substring t (token_haystack item).
Proof.
  split; [apply score_item_score|]. split; [done|].
  intros t. apply includes_spec.
Qed.

(** C3 as stated does not hold: for the query "lvt lvt" the LVT entry of
    the specification's example gets the bonus 2, while one distinct token
    occurs in its haystack. *)
Lemma token_bonus_repeated_token :
  query_tokens (lit "lvt lvt") = [lit "lvt"; lit "lvt"] /\
  __score (score_item (lit "lvt lvt") lvt_entry) = 2%Z /\
  field_score (lit "lvt lvt") lvt_entry = 0%Z /\
  distinct_token_hits (lit "lvt lvt") lvt_entry = 1 /\
  ~ (forall query item,
       __score (score_item query item) =
       (field_score query item +
        Z.min 2 (Z.of_nat (distinct_token_hits query item)))%Z).
Proof.
  repeat (split; [reflexivity|]).
  intros H. specialize (H (lit "lvt lvt") lvt_entry).
  vm_compute in H. discriminate.
Qed.

(** C5.  Given a collation that is a consistent comparator, [searchIndex]
    returns exactly the scored entries whose score is positive, none with
    score 0, ordered by descending score and, within a score, by
    ascending title. *)
Theorem searchIndex_order (localeCompare : str -> str -> Z)
    (index : list IndexEntry) (query : str) :
  (forall s t, (0 < localeCompare s t)%Z -> (localeCompare t s <= 0)%Z) ->
  (forall s t u, (localeCompare s t <= 0)%Z -> (localeCompare t u <= 0)%Z ->
                 (localeCompare s u <= 0)%Z) ->
  Forall (fun x => __score x <> 0%Z) (searchIndex localeCompare index query) /\
  Permutation (searchIndex localeCompare index query)
    (List.filter (fun x => negb (__score x =? 0)%Z) (map (score_item query) index)) /\
  StronglySorted (rank_before localeCompare) (searchIndex localeCompare index query).
Proof.
  intros Hasym Htrans. split; [|split].
  - apply List.Forall_forall. intros x Hx. apply searchIndex_In in Hx. lia.
  - rewrite searchIndex_Permutation.
    erewrite List.filter_ext_in; [done|].
    intros x Hx. apply in_map_iff in Hx as (item & <- & _).
    pose proof (score_item_nonneg query item).
    destruct (Z.ltb_spec 0 (__score (score_item query item))),
             (Z.eqb_spec (__score (score_item query item)) 0); simpl; lia.
  - by apply searchIndex_sorted.
Qed.

Lemma searchIndex_order_witness :
  Forall (fun x => __score x <> 0%Z)
    (searchIndex codeUnitCompare example_index (lit "l")) /\
  Permutation (searchIndex codeUnitCompare example_index (lit "l"))
    (List.filter (fun x => negb (__score x =? 0)%Z)
       (map (score_item (lit "l")) example_index)) /\
  StronglySorted (rank_before codeUnitCompare)
    (searchIndex codeUnitCompare example_index (lit "l")).
Proof.
  exact (searchIndex_order codeUnitCompare example_index (lit "l")
           codeUnitCompare_asym codeUnitCompare_trans).
Defined.

Lemma query_tokens_empty : query_tokens [] = [].
Proof. reflexivity. Qed.

Lemma existsb_includes_nil (ks : list str) :
  existsb (fun k => includes (toLowerCase k) []) ks =
  match ks with [] => false | _ :: _ => true end.
Proof. destruct ks as [|k ks]; [done|]. simpl. by rewrite includes_nil. Qed.

Lemma score_item_empty_query item :
  __score (score_item [] item) =
  match keywords_of item with [] => 5%Z | _ :: _ => 8%Z end.
Proof.
  rewrite score_item_score. unfold field_score, token_hits.
  rewrite query_tokens_empty. change (toLowerCase []) with (@nil ascii).
  rewrite !includes_nil, existsb_includes_nil.
  by destruct (keywords_of item).
Qed.

Lemma filter_all {A} (f : A -> bool) (l : list A) :
  Forall (fun x => f x = true) l -> List.filter f l = l.
Proof. induction 1 as [|x l Hx _ IH]; simpl; [done|]. by rewrite Hx, IH. Qed.

(** C10 (as amended).  For the empty query every entry of the index is
    returned, with score 5 when it has no keyword and 8 when it has one;
    given a collation that is a consistent comparator, the result is
    ordered by descending score and, within a score, by ascending
    title. *)
Theorem empty_query_ranks_all (localeCompare : str -> str -> Z)
    (index : list IndexEntry) :
  (forall s t, (0 < localeCompare s t)%Z -> (localeCompare t s <= 0)%Z) ->
  (forall s t u, (localeCompare s t <= 0)%Z -> (localeCompare t u <= 0)%Z ->
                 (localeCompare s u <= 0)%Z) ->
  Permutation (map entry (searchIndex localeCompare index [])) index /\
  Forall (fun x => (5 <= __score x)%Z /\
                   __score x = match keywords_of (entry x) with
                               | [] => 5%Z
                               | _ :: _ => 8%Z
                               end)
         (searchIndex localeCompare index []) /\
  StronglySorted (rank_before localeCompare) (searchIndex localeCompare index []).
Proof.
  intros Hasym Htrans. split; [|split].
  - rewrite searchIndex_Permutation, filter_all.
    + rewrite map_map. by rewrite map_id.
    + apply List.Forall_forall. intros x Hx.
      apply in_map_iff in Hx as (item & <- & _).
      rewrite score_item_empty_query. by destruct (keywords_of item).
  - apply List.Forall_forall. intros x Hx.
    apply searchIndex_In in Hx as [(item & _ & ->) _].
    rewrite score_item_empty_query, score_item_entry.
    by destruct (keywords_of item).
  - by apply searchIndex_sorted.
Qed.

Lemma empty_query_ranks_all_witness :
  Permutation (map entry (searchIndex codeUnitCompare [carpet_entry; tile_entry] []))
    [carpet_entry; tile_entry] /\
  Forall (fun x => (5 <= __score x)%Z /\
                   __score x = match keywords_of (entry x) with
                               | [] => 5%Z
                               | _ :: _ => 8%Z
                               end)
         (searchIndex codeUnitCompare [carpet_entry; tile_entry] []) /\
  StronglySorted (rank_before codeUnitCompare)
    (searchIndex codeUnitCompare [carpet_entry; tile_entry] []).
Proof.
  exact (empty_query_ranks_all codeUnitCompare [carpet_entry; tile_entry]
           codeUnitCompare_asym codeUnitCompare_trans).
Defined.

(** C10 as stated does not hold: for the index of "Carpet" (no keyword)
    and "Tile" (one keyword) the empty query returns "Tile" first,
    whatever the collation, because its score is 8 against 5; the result
    is not in ascending order of the titles. *)
Lemma empty_query_not_title_order :
  (forall localeCompare,
     map (fun x => (title (entry x), __score x))
       (searchIndex localeCompare [carpet_entry; tile_entry] []) =
     [(lit "Tile", 8%Z); (lit "Carpet", 5%Z)]) /\
  ~ (forall (localeCompare : str -> str -> Z) (index : list IndexEntry),
       (forall s t, (0 < localeCompare s t)%Z -> (localeCompare t s <= 0)%Z) ->
       (forall s t u, (localeCompare s t <= 0)%Z -> (localeCompare t u <= 0)%Z ->
                      (localeCompare s u <= 0)%Z) ->
       StronglySorted
         (fun a b => (localeCompare (title (entry a)) (title (entry b)) <= 0)%Z)
         (searchIndex localeCompare index [])).
Proof.
  split; [intros lc; reflexivity|].
  intros H.
  specialize (H codeUnitCompare [carpet_entry; tile_entry]
                codeUnitCompare_asym codeUnitCompare_trans).
  apply StronglySorted_inv in H as [_ H].
  apply Forall_inv in H. vm_compute in H. by apply H.
Qed.

(** ** Properties of [getDidYouMeanSuggestions] *)

Lemma In_take {A} (n : nat) (l : list A) (x : A) : In x (take n l) -> In x l.
Proof.
  revert n. induction l as [|y l IH]; intros [|n]; simpl; try done.
  intros [->|H]; [by left|right; by eapply IH].
Qed.

Lemma suggestions_from_index index query limit l e :
  getDidYouMeanSuggestions index query limit = Some l -> In e l -> In e index.
Proof.
  rewrite suggestions_value.
  destruct (length (normalize query) <? 2); intros [= <-]; [done|].
  intros He. apply in_map_iff in He as (s & <- & Hs).
  apply In_take, sort_In, List.filter_In in Hs as [Hs _].
  by apply in_map_iff in Hs as (it & <- & Hit).
Qed.

Lemma self_match_score e : (4 <= __score (score_item (title e) e))%Z.
Proof.
  rewrite score_item_score. unfold field_score.
  rewrite includes_refl.
  destruct (existsb _ _), (includes _ _); lia.
Qed.

(** C2 (as amended).  Every entry that [getDidYouMeanSuggestions] returns
    is, when its own title is the query of [searchIndex] over the same
    index, among the hits, with a score of at least 4 (its title matches);
    it need not be the first hit. *)
Theorem suggestion_self_match (localeCompare : str -> str -> Z)
    (index : list IndexEntry) (query : str) (limit : option nat)
    (l : list IndexEntry) (e : IndexEntry) :
  getDidYouMeanSuggestions index query limit = Some l ->
  In e l ->
  exists x, In x (searchIndex localeCompare index (title e)) /\
            entry x = e /\ (4 <= __score x)%Z.
Proof.
  intros Hl He. exists (score_item (title e) e).
  pose proof (self_match_score e) as H4.
  split; [|by split]. apply searchIndex_In. split; [|lia].
  exists e. split; [|done]. by eapply suggestions_from_index.
Qed.

Lemma suggestion_self_match_witness :
  getDidYouMeanSuggestions example_index (lit "laminat floring") None
    = Some [laminate_entry] /\
  exists x, In x (searchIndex codeUnitCompare example_index (title laminate_entry)) /\
            entry x = laminate_entry /\ (4 <= __score x)%Z.
Proof.
  split; [vm_compute; reflexivity|].
  apply (suggestion_self_match codeUnitCompare example_index
           (lit "laminat floring") None [laminate_entry] laminate_entry).
  - vm_compute; reflexivity.
  - left; reflexivity.
Defined.

(** C2 as stated does not hold: in the index of "Vinyl" and "Vinyl
    Flooring" the query "vinyls" has no hit and one suggestion, "Vinyl";
    with "Vinyl" as the query, the first hit is "Vinyl Flooring" (score 9
    against 5), whatever the collation. *)
Lemma suggestion_not_top_hit :
  (forall localeCompare,
     searchIndex localeCompare [vinyl_entry; vinyl_flooring_entry] (lit "vinyls") = []) /\
  getDidYouMeanSuggestions [vinyl_entry; vinyl_flooring_entry] (lit "vinyls") (Some 3)
    = Some [vinyl_entry] /\
  (forall localeCompare,
     searchIndex localeCompare [vinyl_entry; vinyl_flooring_entry] (title vinyl_entry)
     = [{| entry := vinyl_flooring_entry; __score := 9 |};
        {| entry := vinyl_entry; __score := 5 |}]) /\
  ~ (forall (localeCompare : str -> str -> Z) (index : list IndexEntry)
            (query : str) (limit : option nat) (l : list IndexEntry)
            (e : IndexEntry),
       getDidYouMeanSuggestions index query limit = Some l ->
       In e l ->
       head (map entry (searchIndex localeCompare index (title e))) = Some e).
Proof.
  split; [intros lc; reflexivity|].
  split; [vm_compute; reflexivity|].
  split; [intros lc; reflexivity|].
  intros H.
  specialize (H codeUnitCompare [vinyl_entry; vinyl_flooring_entry]
                (lit "vinyls") (Some 3) [vinyl_entry] vinyl_entry).
  assert (head (map entry (searchIndex codeUnitCompare
                  [vinyl_entry; vinyl_flooring_entry] (title vinyl_entry)))
          = Some vinyl_entry) as Habs.
  { apply H; [vm_compute; reflexivity|left; reflexivity]. }
  vm_compute in Habs. discriminate.
Qed.

(** C1 (as amended).  For the example index and the query "lvtt",
    [searchIndex] returns the empty sequence and so does
    [getDidYouMeanSuggestions] with limit 3: the LVT entry's combined
    score is 1/8 (one of eight haystack tokens overlaps, and no typo bonus
    at distance 17 from the title), below 0.35, and the Laminate entry's
    is 0. *)
Theorem lvtt_example (localeCompare : str -> str -> Z) :
  searchIndex localeCompare example_index (lit "lvtt") = [] /\
  getDidYouMeanSuggestions example_index (lit "lvtt") (Some 3) = Some [] /\
  suggest_item (normalize (lit "lvtt")) lvt_entry
    = Some {| item := lvt_entry; score := 0.125 |} /\
  levenshtein (lit "lvtt") (title lvt_entry) = Some 17 /\
  (0.35 <=? 0.125)%float = false /\
  suggest_item (normalize (lit "lvtt")) laminate_entry
    = Some {| item := laminate_entry; score := 0 |}.
Proof.
  repeat split; vm_compute; reflexivity.
Qed.

(** C1 as stated does not hold: the suggestions for "lvtt" do not contain
    the LVT entry. *)
Lemma lvtt_not_suggested :
  getDidYouMeanSuggestions example_index (lit "lvtt") (Some 3) = Some [] /\
  ~ (searchIndex codeUnitCompare example_index (lit "lvtt") = [] /\
     getDidYouMeanSuggestions example_index (lit "lvtt") (Some 3)
       = Some [lvt_entry] /\
     exists c, suggest_item (normalize (lit "lvtt")) lvt_entry
                 = Some {| item := lvt_entry; score := c |} /\
               (0.35 <=? c)%float = true).
Proof.
  split; [vm_compute; reflexivity|].
  intros (_ & H & _). vm_compute in H. discriminate.
Qed.

(** C4.  [overlap_ratio] and [lev] are what [overlapScore] and
    [levenshtein] return.  When the normalized query has fewer than 2
    characters the result is empty.  Otherwise every entry gets the
    combined score [overlap(query, title + " " + joined keywords) +
    typoBonus], with [typoBonus] 0.25 at a distance of at most 2 between
    query and title, 0.15 at distance 3 and 0 beyond; the score is the
    double that the code computes: the quotient of the two counts of the
    overlap, rounded, plus the bonus, rounded.  The entries with a
    combined score of at least 0.35 are kept, they are sorted by
    descending score with equal scores in index order, and the first
    [limit] of them (3 when no limit is given) are returned as the entries
    themselves. *)
Theorem suggestions_spec (index : list IndexEntry) (query : str)
    (limit : option nat) :
  (forall hay, overlapScore query hay = Num (overlap_ratio query hay)) /\
  (forall t, levenshtein query t = Some (lev (normalize query) (normalize t))) /\
  (length (normalize query) < 2 ->
     getDidYouMeanSuggestions index query limit = Some []) /\
  (2 <= length (normalize query) ->
     let kept :=
       List.filter (fun s => (0.35 <=? score s)%float)
         (map (fun it =>
                 {| item := it;
                    score :=
                      (binary64
                         (Num (overlap_ratio query
                                 (title it ++ [space] ++ join [space] (keywords_of it)))) +
                       (let dist := lev (normalize query) (normalize (title it)) in
                        if (dist <=? 2)%nat then 0.25
                        else if (dist <=? 3)%nat then 0.15 else 0))%float |})
              index) in
     exists ranked : list Suggestion,
       Permutation ranked kept /\
       StronglySorted (fun a b => (score b <=? score a)%float = true) ranked /\
       (forall s, List.filter (same_score s) ranked = List.filter (same_score s) kept) /\
       getDidYouMeanSuggestions index query limit =
         Some (map item (take (match limit with Some n => n | None => 3 end) ranked))).
Proof.
  split; [apply overlapScore_ratio|]. split; [intros t; apply levenshtein_lev|].
  rewrite suggestions_value. split.
  - intros H. apply Nat.ltb_lt in H. by rewrite H.
  - intros H kept. apply Nat.ltb_ge in H. rewrite H.
    exists (sort score_after kept). split; [apply sort_Permutation|].
    split; [apply ranked_sorted|]. split; [intros s; apply ranked_stable|].
    by destruct limit.
Qed.

(** ** Properties of [normalize], [levenshtein] and [overlapScore] *)

(** C8.  [normalize] is idempotent. *)
Theorem normalize_idempotent (x : str) : normalize (normalize x) = normalize x.
Proof.
  pose proof (normalize_okchar x) as Hchars.
  unfold normalize at 1.
  rewrite (toLowerCase_okchar _ Hchars), (blank_other_okchar _ Hchars).
  rewrite normalize_collapsed.
  unfold normalize. apply trim_idem.
Qed.

(** C6.  [levenshtein] returns the classic edit distance of the two
    normalized strings: the least number of single-character insertions,
    deletions and substitutions that turn one into the other, which is
    also the cost of a cheapest left-to-right script.  When one normalized string
    is empty the result is the length of the other; the distance of a
    string to itself is 0; the distance is symmetric; and
    [levenshtein("", "abc")] is 3. *)
Theorem levenshtein_spec (a b : str) :
  (exists d, levenshtein a b = Some d /\
             least_edits (normalize a) (normalize b) d /\
             edit_distance (normalize a) (normalize b) d) /\
  (normalize a = [] -> levenshtein a b = Some (length (normalize b))) /\
  (normalize b = [] -> levenshtein a b = Some (length (normalize a))) /\
  levenshtein a a = Some 0 /\
  levenshtein a b = levenshtein b a /\
  levenshtein (lit "") (lit "abc") = Some 3.
Proof.
  rewrite !levenshtein_lev. repeat split.
  - exists (lev (normalize a) (normalize b)).
    split; [done|]. split; [apply lev_least_edits|apply lev_edit_distance].
  - intros ->. done.
  - intros ->. by rewrite lev_nil_r.
  - by rewrite lev_refl.
  - by rewrite lev_sym.
Qed.

Lemma trimStart_length s : length (trimStart s) <= length s.
Proof. induction s as [|c s IH]; simpl; [done|]. destruct (is_space c); simpl; lia. Qed.

Lemma trimEnd_length s : length (trimEnd s) <= length s.
Proof.
  induction s as [|c s IH]; simpl; [done|].
  destruct (trimEnd s); [destruct (is_space c)|]; simpl in *; lia.
Qed.

Lemma normalize_length s : length (normalize s) <= length s.
Proof.
  unfold normalize, trim, collapse_ws.
  etransitivity; [apply trimEnd_length|].
  etransitivity; [apply trimStart_length|].
  etransitivity; [apply collapse_from_length|].
  unfold blank_other, toLowerCase. by rewrite !length_map.
Qed.

(** C9.  On strings and on indexes of entries with a string title and
    URL, an optional snippet and optional keywords, the five functions
    return a value: no access of [levenshtein] leaves its table or its
    strings, so it returns a number and [getDidYouMeanSuggestions] a
    list; [overlapScore] divides by a positive count only, so it returns a
    rational and never [NaN]; [normalize] and [searchIndex] have no
    partial step, and return a string no longer than the input and at most
    one hit per entry. *)
Theorem search_core_total :
  (forall s, exists r, normalize s = r /\ length r <= length s) /\
  (forall a b, exists d, levenshtein a b = Some d) /\
  (forall q hay, overlapScore q hay <> NaN /\
                 exists r, overlapScore q hay = Num r) /\
  (forall localeCompare index query,
     exists hits, searchIndex localeCompare index query = hits /\
                  length hits <= length index) /\
  (forall index query limit,
     exists l, getDidYouMeanSuggestions index query limit = Some l).
Proof.
  split; [|split; [|split; [|split]]].
  - intros s. exists (normalize s). split; [done|apply normalize_length].
  - intros a b. eexists. apply levenshtein_lev.
  - intros q hay. destruct (overlapScore_unit q hay) as (r & E & _).
    rewrite E. split; [done|by exists r].
  - intros lc index query. eexists. split; [done|].
    rewrite (Permutation_length (searchIndex_Permutation lc index query)).
    etransitivity; [apply filter_length_le|]. by rewrite length_map.
  - intros index query limit. rewrite suggestions_value.
    destruct (length (normalize query) <? 2); by eexists.
Qed.

(** C7.  [overlapScore] splits the two normalized strings at the spaces
    into their non-empty tokens; a query token is a hit when it occurs in
    some haystack token or some haystack token occurs in it; the result
    is 0 when either side has no token, and otherwise the number of hits
    divided by the larger of the two token counts; it lies between 0 and
    1. *)
Theorem overlapScore_spec (query haystack : str) :
  let qs := words query in
  let hs := words haystack in
  let hits := length (List.filter (word_hits hs) qs) in
  qs = List.filter truthy (split space (normalize query)) /\
  hs = List.filter truthy (split space (normalize haystack)) /\
  (forall w, word_hits hs w = true <->
     exists hw, In hw hs /\ (substring w hw \/ substring hw w)) /\
  (qs = [] \/ hs = [] -> overlapScore query haystack = Num 0) /\
  (qs <> [] -> hs <> [] ->
     overlapScore query haystack =
     Num (Z.of_nat hits # Pos.of_nat (Nat.max (length qs) (length hs)))) /\
  exists r, overlapScore query haystack = Num r /\ (0 <= r <= 1)%Q.
Proof.
  intros qs hs hits.
  split; [done|]. split; [done|]. split; [apply word_hits_spec|].
  split; [|split; [|apply overlapScore_unit]].
  - rewrite overlapScore_value. fold qs hs.
    intros [->| ->]; [done|]. simpl. by rewrite orb_true_r.
  - intros Hq Hh. rewrite overlapScore_value. fold qs hs hits.
    destruct qs; [done|]. by destruct hs.
Qed.

(** ** Further properties *)

(** X1.  The distance of [levenshtein] satisfies the triangle
    inequality. *)
Theorem levenshtein_triangle (a b c : str) :
  exists x y z,
    levenshtein a b = Some x /\ levenshtein b c = Some y /\
    levenshtein a c = Some z /\ z <= x + y.
Proof.
  rewrite !levenshtein_lev. do 3 eexists. repeat split. apply lev_triangle.
Qed.

(** X2.  The shape of a normalized string: only the characters a-z, 0-9
    and the space; no run of white space left to collapse; nothing left
    to trim; and the empty string is normalized to itself. *)
Theorem normalize_shape (s : str) :
  Forall (fun c => is_alnum c = true \/ c = space) (normalize s) /\
  collapse_ws (normalize s) = normalize s /\
  trim (normalize s) = normalize s /\
  normalize (lit "") = lit "".
Proof.
  split; [|split; [apply normalize_collapsed|split; [|reflexivity]]].
  - eapply List.Forall_impl; [|apply normalize_okchar].
    intros c Hc. unfold okchar in Hc. apply orb_true_iff in Hc as [Hc|Hc]; [by left|].
    right. by apply Ascii.eqb_eq.
  - unfold normalize. apply trim_idem.
Qed.

(** X3.  When the loops of [levenshtein] are done, every cell [dp[i][j]]
    of the table holds the edit distance of the first [i] characters of
    [a] and the first [j] characters of [b]. *)
Theorem levenshtein_table (a b : str) :
  exists dp,
    lev_table a b = Some dp /\
    forall i j, i <= length a -> j <= length b ->
      mget dp i j = Some (lev (take i a) (take j b)) /\
      least_edits (take i a) (take j b) (lev (take i a) (take j b)).
Proof.
  destruct (lev_table_filled a b) as (dp & E & _ & H).
  exists dp. split; [done|]. intros i j Hi Hj.
  split; [|apply lev_least_edits]. apply H; lia.
Qed.


(** * More of [site.js]: proofs *)

(** ** [escapeHtml] *)

Lemma replaceAll_char (p : ascii) (rep s : str) :
  replaceAll [p] rep s = flat_map (fun c => if Ascii.eqb c p then rep else [c]) s.
Proof.
  unfold replaceAll. induction s as [|c s IH]; [done|].
  cbn [replaceAll_from startsWith flat_map length Nat.sub].
  rewrite andb_true_r, IH. by destruct (Ascii.eqb c p).
Qed.

Lemma flat_map_flat_map {A B C} (f : B -> list C) (g : A -> list B) (l : list A) :
  flat_map f (flat_map g l) = flat_map (fun x => flat_map f (g x)) l.
Proof.
  induction l as [|x l IH]; [done|].
  cbn [flat_map]. by rewrite flat_map_app, IH.
Qed.

Lemma escapeHtml_chars (s : str) : escapeHtml s = flat_map esc_char s.
Proof.
  unfold escapeHtml.
  change (lit "'") with [ascii_of_nat 39].
  change (lit ">") with [ascii_of_nat 62].
  change (lit "<") with [ascii_of_nat 60].
  change (lit "&") with [ampersand].
  rewrite !replaceAll_char, !flat_map_flat_map.
  apply flat_map_ext. intros c. each_char c; reflexivity.
Qed.

Lemma esc_char_no_markup (c : ascii) :
  Forall (fun x => is_markup x = false) (esc_char c).
Proof. each_char c; repeat constructor. Qed.

Lemma esc_char_cases (c : ascii) :
  (esc_char c = [c] /\ c <> ampersand /\ is_markup c = false) \/
  (exists name, esc_char c = ampersand :: name /\ In name entity_names /\
                Forall (fun x => x <> ampersand) name).
Proof.
  each_char c;
    first [ left; repeat split; discriminate
          | right; eexists; split; [reflexivity|];
            split; [simpl; tauto|repeat constructor; discriminate] ].
Qed.

Lemma split_after_clean (a : ascii) (blk rest pre post : str) :
  Forall (fun x => x <> a) blk ->
  blk ++ rest = pre ++ a :: post ->
  exists pre', pre = blk ++ pre' /\ rest = pre' ++ a :: post.
Proof.
  intros Hblk. revert pre. induction Hblk as [|x blk Hx _ IH]; intros pre H.
  - by exists pre.
  - destruct pre as [|y pre]; simpl in H.
    + injection H as -> _. done.
    + injection H as <- H. destruct (IH _ H) as (pre' & -> & ->).
      by exists pre'.
Qed.

Lemma escaped_ampersand (s pre post : str) :
  flat_map esc_char s = pre ++ ampersand :: post ->
  exists name rest, In name entity_names /\ post = name ++ rest.
Proof.
  revert pre. induction s as [|c s IH]; intros pre H.
  - by destruct pre.
  - cbn [flat_map] in H.
    destruct (esc_char_cases c) as [(E & Hc & _)|(name & E & Hin & Hclean)];
      rewrite E in H.
    + apply (split_after_clean ampersand [c]) in H as (pre' & _ & H);
        [by eapply IH|]. by repeat constructor.
    + destruct pre as [|y pre]; simpl in H.
      * injection H as <-. by exists name, (flat_map esc_char s).
      * injection H as _ H.
        apply (split_after_clean ampersand name) in H as (pre' & _ & H);
          [by eapply IH|done].
Qed.

Lemma esc_char_prefix_free (c d : ascii) (x y : str) :
  esc_char c ++ x = esc_char d ++ y -> c = d /\ x = y.
Proof.
  unfold esc_char.
  destruct (Ascii.eqb_spec c ampersand) as [->|Hc1];
  [|destruct (Ascii.eqb_spec c (ascii_of_nat 60)) as [->|Hc2];
    [|destruct (Ascii.eqb_spec c (ascii_of_nat 62)) as [->|Hc3];
      [|destruct (Ascii.eqb_spec c dquote) as [->|Hc4];
        [|destruct (Ascii.eqb_spec c (ascii_of_nat 39)) as [->|Hc5]]]]];
  (destruct (Ascii.eqb_spec d ampersand) as [->|Hd1];
   [|destruct (Ascii.eqb_spec d (ascii_of_nat 60)) as [->|Hd2];
     [|destruct (Ascii.eqb_spec d (ascii_of_nat 62)) as [->|Hd3];
       [|destruct (Ascii.eqb_spec d dquote) as [->|Hd4];
         [|destruct (Ascii.eqb_spec d (ascii_of_nat 39)) as [->|Hd5]]]]]);
  cbn; intros H; try discriminate H;
  try (injection H as <-; congruence);
  try (injection H as ->; congruence);
  try (injection H as -> ->; done);
  try (injection H as ->; done); try (by injection H).
Qed.

Lemma flat_map_esc_inj (s t : str) :
  flat_map esc_char s = flat_map esc_char t -> s = t.
Proof.
  revert t. induction s as [|c s IH]; intros [|d t] H; cbn [flat_map] in H.
  - done.
  - destruct (esc_char_cases d) as [(E & _)|(name & E & _)]; rewrite E in H; done.
  - destruct (esc_char_cases c) as [(E & _)|(name & E & _)]; rewrite E in H; done.
  - apply esc_char_prefix_free in H as [-> H]. f_equal. by apply IH.
Qed.

Lemma count_char_app c s t : count_char c (s ++ t) = count_char c s + count_char c t.
Proof. unfold count_char. by rewrite List.filter_app, length_app. Qed.

Lemma count_char_clean c s :
  Forall (fun x => x <> c) s -> count_char c s = 0.
Proof.
  unfold count_char. induction 1 as [|x s Hx _ IH]; [done|].
  cbn [List.filter]. destruct (Ascii.eqb_spec c x) as [->|_]; done.
Qed.

(** ** Normalization keeps occurrences *)

Lemma collapse_from_app b u w :
  collapse_from b (u ++ w) =
  collapse_from b u ++ collapse_from (run_after b u) w.
Proof.
  revert b. induction u as [|c u IH]; intros b; [done|].
  cbn [app run_after]. rewrite !collapse_from_cons.
  destruct (is_space c); [destruct b|]; by rewrite IH.
Qed.

Lemma trimStart_split s :
  exists a, s = a ++ trimStart s /\ Forall (fun c => is_space c = true) a.
Proof.
  induction s as [|c s (a & E & Ha)]; [by exists []|].
  cbn [trimStart]. destruct (is_space c) eqn:Ec.
  - exists (c :: a). split; [by rewrite E at 1|by constructor].
  - by exists [].
Qed.

Lemma trimEnd_split s :
  exists a, s = trimEnd s ++ a /\ Forall (fun c => is_space c = true) a.
Proof.
  induction s as [|c s (a & E & Ha)]; [by exists []|].
  cbn [trimEnd]. destruct (trimEnd s) as [|d r] eqn:Er.
  - destruct (is_space c) eqn:Ec.
    + exists (c :: a). simpl in E. subst s. split; [done|by constructor].
    + exists a. simpl in E. subst s. done.
  - exists a. split; [|done]. simpl. by rewrite E at 1.
Qed.

Lemma trimStart_app_clean l c r :
  is_space c = false -> trimStart (l ++ c :: r) = trimStart l ++ c :: r.
Proof.
  intros Hc. induction l as [|x l IH]; simpl; [by rewrite Hc|].
  destruct (is_space x); [done|done].
Qed.

Lemma trimEnd_app_clean u c v :
  is_space c = false -> trimEnd (u ++ c :: v) = u ++ c :: trimEnd v.
Proof.
  intros Hc. induction u as [|x u IH].
  - cbn [app trimEnd]. destruct (trimEnd v); [by rewrite Hc|done].
  - cbn [app trimEnd]. rewrite IH. by destruct u.
Qed.

Lemma trimStart_head s :
  trimStart s = [] \/ exists h t, trimStart s = h :: t /\ is_space h = false.
Proof.
  induction s as [|c s IH]; [by left|].
  cbn [trimStart]. destruct (is_space c) eqn:Ec; [done|].
  right. by exists c, s.
Qed.

Lemma trimEnd_last s :
  trimEnd s = [] \/ exists u l, trimEnd s = u ++ [l] /\ is_space l = false.
Proof.
  induction s as [|c s IH]; [by left|].
  cbn [trimEnd]. destruct (trimEnd s) as [|d r] eqn:Er.
  - destruct (is_space c) eqn:Ec; [by left|]. right. by exists [], c.
  - right. destruct IH as [|(u & l & E & Hl)]; [done|].
    exists (c :: u), l. by rewrite E.
Qed.

Lemma trimEnd_keeps_head h t :
  is_space h = false -> exists t', trimEnd (h :: t) = h :: t'.
Proof.
  intros Hh. cbn [trimEnd]. destruct (trimEnd t) as [|d r].
  - rewrite Hh. by exists [].
  - by exists (d :: r).
Qed.

(** A trimmed string that is not empty begins and ends with characters
    that are not white space. *)
Lemma trim_ends s :
  trim s = [] \/
  exists h t u l, trim s = h :: t /\ trim s = u ++ [l] /\
                  is_space h = false /\ is_space l = false.
Proof.
  unfold trim.
  destruct (trimStart_head s) as [E|(h & t & E & Hh)]; rewrite E; [by left|].
  destruct (trimEnd_keeps_head h t Hh) as (t' & E').
  destruct (trimEnd_last (h :: t)) as [E2|(u & l & E2 & Hl)].
  - rewrite E2 in E'. done.
  - right. exists h, t', u, l. done.
Qed.

Lemma trim_split s :
  exists a c, s = a ++ trim s ++ c /\
    Forall (fun x => is_space x = true) a /\ Forall (fun x => is_space x = true) c.
Proof.
  destruct (trimStart_split s) as (a & Ea & Ha).
  destruct (trimEnd_split (trimStart s)) as (c & Ec & Hc).
  exists a, c. unfold trim. rewrite <- Ec. done.
Qed.

Lemma trim_collapse_flag b y :
  trim (collapse_from b y) = trim (collapse_from false y).
Proof.
  unfold trim. destruct b; [|done]. by rewrite trimStart_collapse_indep.
Qed.

(** The trimmed collapse of a part occurs in the trimmed collapse of the
    whole. *)
Lemma trim_collapse_substring p y r :
  substring (trim (collapse_ws y)) (trim (collapse_ws (p ++ y ++ r))).
Proof.
  unfold collapse_ws.
  rewrite collapse_from_app, collapse_from_app.
  set (b1 := run_after false p). set (b2 := run_after b1 y).
  rewrite <- (trim_collapse_flag b1 y).
  destruct (trim_split (collapse_from b1 y)) as (a & c & E & Ha & Hc).
  rewrite E at 2.
  destruct (trim_ends (collapse_from b1 y)) as [Z|(h & t & u & l & E1 & E2 & Hh & Hl)].
  { rewrite Z. by exists [], (trim (collapse_from false p ++ (a ++ [] ++ c) ++ collapse_from b2 r)). }
  set (core := trim (collapse_from b1 y)) in *.
  set (P := collapse_from false p). set (R := collapse_from b2 r).
  exists (trimStart (P ++ a)), (trimEnd (c ++ R)).
  unfold trim.
  replace (P ++ (a ++ core ++ c) ++ R) with ((P ++ a) ++ h :: (t ++ c ++ R))
    by (rewrite E1; by rewrite <- !app_assoc).
  rewrite trimStart_app_clean by done.
  replace (trimStart (P ++ a) ++ h :: t ++ c ++ R)
    with ((trimStart (P ++ a) ++ u) ++ l :: (c ++ R)).
  2:{ rewrite <- app_assoc. f_equal. 
      change (h :: t ++ c ++ R) with ((h :: t) ++ c ++ R). rewrite <- E1, E2.
      by rewrite <- app_assoc. }
  rewrite trimEnd_app_clean by done.
  rewrite E2. by rewrite <- !app_assoc.
Qed.

Lemma normalize_substring (q k : str) :
  substring (toLowerCase q) (toLowerCase k) ->
  substring (normalize q) (normalize k).
Proof.
  intros (p & r & E). unfold normalize. rewrite E.
  unfold blank_other. rewrite !map_app.
  apply trim_collapse_substring.
Qed.

Lemma includes_normalize (q k : str) :
  includes (toLowerCase k) (toLowerCase q) = true ->
  includes (normalize k) (normalize q) = true.
Proof. rewrite !includes_spec. apply normalize_substring. Qed.

(** X4.  The text that [escapeHtml] returns has no [<], [>], double or
    single quote; every ampersand in it begins one of the entities
    [&amp;], [&lt;], [&gt;], [&quot;], [&#039;]; it is at least as long
    as the input, and equal to it when the input has none of the five
    characters. *)
Theorem escapeHtml_safe (s : str) :
  Forall (fun c => is_markup c = false) (escapeHtml s) /\
  (forall pre post, escapeHtml s = pre ++ ampersand :: post ->
     exists name rest, In name entity_names /\ post = name ++ rest) /\
  length s <= length (escapeHtml s) /\
  (Forall (fun c => is_markup c = false /\ c <> ampersand) s -> escapeHtml s = s).
Proof.
  rewrite escapeHtml_chars. repeat split.
  - induction s as [|c s IH]; [constructor|].
    cbn [flat_map]. apply Forall_app. split; [apply esc_char_no_markup|done].
  - intros pre post. apply escaped_ampersand.
  - induction s as [|c s IH]; [done|].
    cbn [flat_map]. rewrite length_app.
    destruct (esc_char_cases c) as [(E & _)|(name & E & _)]; rewrite E; simpl; lia.
  - induction 1 as [|c s [Hm Ha] _ IH]; [done|].
    cbn [flat_map]. rewrite IH.
    destruct (esc_char_cases c) as [(E & _)|(name & E & _)]; rewrite E; [done|].
    revert Hm Ha E. each_char c; congruence.
Qed.

(** X5.  [escapeHtml] loses nothing: two texts with the same escaped form
    are the same text. *)
Theorem escapeHtml_injective (s t : str) :
  escapeHtml s = escapeHtml t -> s = t.
Proof. rewrite !escapeHtml_chars. apply flat_map_esc_inj. Qed.

Lemma escapeHtml_injective_witness :
  escapeHtml (lit "Tile & <Stone>") = escapeHtml (lit "Tile & <Stone>") /\
  lit "Tile & <Stone>" = lit "Tile & <Stone>".
Proof.
  split; [reflexivity|].
  apply (escapeHtml_injective (lit "Tile & <Stone>") (lit "Tile & <Stone>")).
  reflexivity.
Defined.

(** ** [bestKeywordSnippet] *)

Lemma find_first {A} (f : A -> bool) (l : list A) (x : A) :
  In x l -> f x = true ->
  exists before y after,
    l = before ++ y :: after /\ List.find f l = Some y /\ f y = true /\
    Forall (fun z => f z = false) before.
Proof.
  induction l as [|z l IH]; [done|]. intros Hin Hx.
  cbn [List.find]. destruct (f z) eqn:Ez.
  - exists [], z, l. repeat split; [done|constructor].
  - destruct Hin as [->|Hin]; [congruence|].
    destruct (IH Hin Hx) as (before & y & after & -> & Hf & Hy & Hb).
    exists (z :: before), y, after. repeat split; try done. by constructor.
Qed.

Lemma includes_nil_l (t : str) : includes [] t = true -> t = [].
Proof. by destruct t. Qed.

(** X6.  When a keyword of the entry contains the query, upper and lower
    case apart (the keyword match of [searchIndex]), and the normalized
    query is not empty, [bestKeywordSnippet] returns a keyword of the
    entry: the first one whose normalized form contains the normalized
    query. *)
Theorem keyword_match_snippet (item : IndexEntry) (query : str) :
  existsb (fun k => includes (toLowerCase k) (toLowerCase query))
          (keywords_of item) = true ->
  normalize query <> [] ->
  exists before k after,
    keywords_of item = before ++ k :: after /\
    bestKeywordSnippet item query = k /\
    substring (normalize query) (normalize k) /\
    Forall (fun k' => ~ substring (normalize query) (normalize k')) before.
Proof.
  intros Hex Hq.
  apply existsb_exists in Hex as (k0 & Hin0 & Hk0).
  apply includes_normalize in Hk0.
  destruct (find_first (fun k => includes (normalize k) (normalize query))
              (keywords_of item) k0 Hin0 Hk0)
    as (before & k & after & E & Hf & Hk & Hb).
  exists before, k, after. split; [done|]. split; [|split].
  - unfold bestKeywordSnippet. rewrite Hf.
    destruct k as [|c k]; [|done].
    change (normalize []) with (@nil ascii) in Hk.
    by apply includes_nil_l in Hk.
  - by apply includes_spec.
  - eapply List.Forall_impl; [|exact Hb].
    intros k' Hk'. cbn beta in Hk'. rewrite <- includes_spec. congruence.
Qed.

Lemma keyword_match_snippet_witness :
  exists before k after,
    keywords_of lvt_entry = before ++ k :: after /\
    bestKeywordSnippet lvt_entry (lit "Wear") = k /\
    substring (normalize (lit "Wear")) (normalize k) /\
    Forall (fun k' => ~ substring (normalize (lit "Wear")) (normalize k')) before.
Proof.
  apply (keyword_match_snippet lvt_entry (lit "Wear")).
  - vm_compute. reflexivity.
  - vm_compute. discriminate.
Defined.

(** ** [renderResults] *)

Lemma count_char_cons c x s :
  count_char c (x :: s) = (if Ascii.eqb c x then 1 else 0) + count_char c s.
Proof. unfold count_char. cbn [List.filter]. by destruct (Ascii.eqb c x). Qed.

Lemma count_char_spaces c n : is_markup c = true -> count_char c (repeat space n) = 0.
Proof.
  intros Hc. apply count_char_clean, List.Forall_forall.
  intros x Hx. apply repeat_spec in Hx. subst x. intros <-. done.
Qed.

Lemma count_char_escaped c s : is_markup c = true -> count_char c (escapeHtml s) = 0.
Proof.
  intros Hc. apply count_char_clean.
  rewrite escapeHtml_chars.
  induction s as [|x s IH]; [constructor|].
  cbn [flat_map]. apply Forall_app. split; [|done].
  eapply List.Forall_impl; [|apply esc_char_no_markup].
  intros y Hy. cbn beta in Hy. intros ->. congruence.
Qed.

Lemma count_char_line c n text :
  is_markup c = true -> count_char c (line n text) = count_char c text.
Proof.
  intros Hc. unfold line.
  rewrite count_char_cons, count_char_app, count_char_spaces by done.
  destruct (Ascii.eqb_spec c newline) as [->|_]; done.
Qed.

Lemma html_item_markup c n query it :
  is_markup c = true ->
  count_char c (html_item n query it) =
  count_char c (html_item n [] blank_entry) + count_char c (url it).
Proof.
  intros Hc. unfold html_item, quoted.
  repeat first [ rewrite count_char_app | rewrite count_char_line by done
               | rewrite count_char_cons | rewrite count_char_escaped by done ].
  cbn [url blank_entry]. change (count_char c []) with 0. lia.
Qed.

Lemma concat_items_markup c n query items :
  is_markup c = true ->
  count_char c (concat (map (html_item n query) items)) =
  length items * count_char c (html_item n [] blank_entry) + count_in_urls c items.
Proof.
  intros Hc. unfold count_in_urls.
  induction items as [|it items IH]; [done|].
  cbn [map concat list_sum fold_right length].
  rewrite count_char_app, IH, html_item_markup by done.
  set (k := count_char c (html_item n [] blank_entry)).
  rewrite Nat.mul_succ_l. unfold list_sum. lia.
Qed.

(** X7.  The titles, the snippets, the keywords and the query put no [<],
    [>] or quote into the panel that [renderResults] writes: for each of
    these characters the panel has as many as its fixed text, plus those
    of the URLs of the entries shown, which are written as they are. *)
Theorem rendered_text_is_escaped (c : ascii) :
  is_markup c = true ->
  (forall query hits,
     count_char c (html_hits query hits) =
     length hits * count_char c (html_item 6 [] blank_entry)
     + count_in_urls c (map entry hits)) /\
  (forall query suggestions,
     count_char c (html_did_you_mean query suggestions) =
     count_char c (html_did_you_mean [] [])
     + length suggestions * count_char c (html_item 10 [] blank_entry)
     + count_in_urls c suggestions) /\
  (forall query,
     count_char c (html_no_results query) = count_char c (html_no_results [])).
Proof.
  intros Hc. split; [|split].
  - intros query hits. unfold html_hits.
    rewrite <- (length_map entry hits).
    rewrite <- (concat_items_markup c 6 query (map entry hits)) by done.
    by rewrite map_map.
  - intros query suggestions. unfold html_did_you_mean.
    repeat first [ rewrite count_char_app | rewrite count_char_line by done ].
    rewrite concat_items_markup by done.
    cbn [map concat]. change (count_char c []) with 0. lia.
  - intros query. unfold html_no_results, quoted.
    repeat first [ rewrite count_char_app | rewrite count_char_line by done
                 | rewrite count_char_cons | rewrite count_char_escaped by done ].
    change (escapeHtml []) with (@nil ascii). change (count_char c []) with 0. lia.
Qed.

Lemma rendered_text_is_escaped_witness :
  is_markup (ascii_of_nat 60) = true /\
  forall query, count_char (ascii_of_nat 60) (html_no_results query) = 4.
Proof.
  split; [reflexivity|].
  intros query.
  rewrite (proj2 (proj2 (rendered_text_is_escaped (ascii_of_nat 60) eq_refl)) query).
  reflexivity.
Defined.

(** ** [loadSiteIndex] *)

Section LoadFacts.

Variable parse : str -> option (list IndexEntry).
Variable stringify : list IndexEntry -> str.
Variable localeCompare : str -> str -> Z.

Lemma loadSiteIndex_some w net can_store index w' called :
  loadSiteIndex parse stringify w net can_store = (Some index, w', called) ->
  siteIndex w' = Some index.
Proof.
  unfold loadSiteIndex. destruct (siteIndex w) as [i|] eqn:Ei.
  - intros [= <- <- <-]. done.
  - destruct (truthy _).
    + destruct (parse _); intros [= <- <- <-]; done.
    + destruct net as [|ok body]; [done|].
      destruct ok; cbn [negb]; [|done].
      destruct (parse body); [|done].
      destruct can_store; intros [= <- <- <-]; done.
Qed.

Lemma loadSiteIndex_cached w net can_store index :
  siteIndex w = Some index ->
  loadSiteIndex parse stringify w net can_store = (Some index, w, false).
Proof. intros H. unfold loadSiteIndex. by rewrite H. Qed.

(** A call that fails leaves the storage as it was, and the state too,
    unless it is the write to the storage that fails. *)
Lemma loadSiteIndex_none w net can_store w' called :
  loadSiteIndex parse stringify w net can_store = (None, w', called) ->
  stored w' = stored w /\
  (w' = w \/
   can_store = false /\ called = true /\ siteIndex w = None /\
   exists body index,
     net = Response true body /\ parse body = Some index /\
     siteIndex w' = Some index).
Proof.
  unfold loadSiteIndex. destruct (siteIndex w) as [i|] eqn:Ei; [done|].
  destruct (truthy _).
  - destruct (parse _); intros [= <- <-]; auto.
  - destruct net as [|ok body]; [intros [= <- <-]; auto|].
    destruct ok; cbn [negb]; [|intros [= <- <-]; auto].
    destruct (parse body) as [index|] eqn:Ep; [|intros [= <- <-]; auto].
    destruct can_store; [done|]. intros [= <- <-]. split; [done|].
    right. repeat split; try done. by exists body, index.
Qed.

(** X8.  [loadSiteIndex] loads the index once.  After a call that gave an
    index, [__siteIndex] holds it, and every later call returns the same
    index without reading the storage or the network, and changes
    nothing.  A call that fails leaves the session storage as it was, and
    [__siteIndex] too, except when the index has been fetched and it is
    the write to the storage that fails: then [__siteIndex] holds the
    fetched index, and the next call returns it.  The network is asked
    only when neither [__siteIndex] nor the session storage has an index,
    and what it brings is put into the storage when the call succeeds. *)
Theorem loadSiteIndex_once (w : session) (net : fetched) (can_store : bool) :
  let '(r, w', called) := loadSiteIndex parse stringify w net can_store in
  (forall index, siteIndex w' = Some index ->
     forall net' can_store',
       loadSiteIndex parse stringify w' net' can_store' = (Some index, w', false)) /\
  (forall index, r = Some index -> siteIndex w' = Some index) /\
  (r = None ->
     stored w' = stored w /\
     (w' = w \/
      can_store = false /\ called = true /\
      exists body index,
        net = Response true body /\ parse body = Some index /\
        siteIndex w' = Some index)) /\
  (called = true ->
     siteIndex w = None /\ truthy (default [] (stored w)) = false) /\
  (called = false -> stored w' = stored w) /\
  (forall index, called = true -> r = Some index ->
     stored w' = Some (stringify index)).
Proof.
  destruct (loadSiteIndex parse stringify w net can_store) as [[r w'] called] eqn:E.
  split; [|split; [|split; [|split; [|split]]]].
  - intros index H net' can_store'. by apply loadSiteIndex_cached.
  - intros index ->. by apply loadSiteIndex_some in E.
  - intros ->. apply loadSiteIndex_none in E as [H1 [H2|(H2 & H3 & _ & H4)]]; auto.
  - intros ->. revert E. unfold loadSiteIndex.
    destruct (siteIndex w); [done|].
    destruct (truthy _); [|done].
    by destruct (parse _).
  - intros ->. revert E. unfold loadSiteIndex.
    destruct (siteIndex w); [by intros [= <- <- ]|].
    destruct (truthy _).
    + destruct (parse _); by intros [= <- <-].
    + destruct net as [|ok body]; [done|].
      destruct ok; cbn [negb]; [|done].
      destruct (parse body); [|done]. by destruct can_store.
  - intros index -> ->. revert E. unfold loadSiteIndex.
    destruct (siteIndex w); [done|].
    destruct (truthy _); [by destruct (parse _)|].
    destruct net as [|ok body]; [done|].
    destruct ok; cbn [negb]; [|done].
    destruct (parse body); [|done].
    destruct can_store; intros [= <- <-]; done.
Qed.

(** ** The search box *)

Lemma suggestions_length index query limit l :
  getDidYouMeanSuggestions index query limit = Some l ->
  length l <= default 3 limit.
Proof.
  rewrite suggestions_value.
  destruct (length (normalize query) <? 2); intros [= <-]; [simpl; lia|].
  rewrite length_map, length_take. lia.
Qed.

(** X9.  What typing [value] into the search box does.  With fewer than
    two characters after trimming, the panel is hidden and nothing else
    changes.  Otherwise the panel is shown: with the error text when
    [loadSiteIndex] fails; else with the first eight hits of
    [searchIndex] on the trimmed text; else, without hits, with at most
    three suggestions, taken from the index that was just loaded; else
    with the text that there are no results.  The listener never fails. *)
Theorem onInput_flow (w : session) (net : fetched) (can_store : bool)
    (resultsEl : dropdown) (value : str) :
  let q := trim value in
  exists w' el',
    onInput parse stringify localeCompare w net can_store resultsEl value
      = Some (w', el') /\
    if length q <? 2 then w' = w /\ el' = hideResults resultsEl
    else
      hidden el' = false /\
      match loadSiteIndex parse stringify w net can_store with
      | (None, w1, _) => w' = w1 /\ innerHTML el' = html_unavailable
      | (Some index, w1, _) =>
          w' = w1 /\
          match searchIndex localeCompare index q with
          | [] =>
              exists suggestions,
                getDidYouMeanSuggestions index q (Some 3) = Some suggestions /\
                length suggestions <= 3 /\
                (forall s, In s suggestions -> In s index) /\
                innerHTML el' =
                  match suggestions with
                  | [] => html_no_results q
                  | _ :: _ => html_did_you_mean q suggestions
                  end
          | hit :: hits => innerHTML el' = html_hits q (take 8 (hit :: hits))
          end
      end.
Proof.
  intros q. unfold onInput. fold q.
  destruct (length q <? 2) eqn:Eq; [by eexists _, _|].
  destruct (loadSiteIndex parse stringify w net can_store)
    as [[[index|] w1] called] eqn:E.
  - apply loadSiteIndex_some in E.
    destruct (searchIndex localeCompare index q) as [|hit hits] eqn:Eh.
    + unfold renderResults. cbn [take length Nat.eqb]. rewrite E.
      change (default [] (Some index)) with index.
      destruct (getDidYouMeanSuggestions index q (Some 3)) as [l|] eqn:El.
      2:{ rewrite suggestions_value in El. by destruct (length (normalize q) <? 2). }
      cbn [mbind option_bind].
      destruct l as [|s l]; cbn [length Nat.eqb negb].
      * eexists _, _. split; [done|]. repeat split; try done.
        exists []. repeat split; try done. simpl. lia.
      * eexists _, _. split; [done|]. repeat split; try done.
        exists (s :: l). repeat split; try done.
        -- by apply suggestions_length in El.
        -- intros s' Hs'. by eapply suggestions_from_index.
    + unfold renderResults. cbn [take length Nat.eqb].
      by eexists _, _.
  - by eexists _, _.
Qed.

End LoadFacts.

(** ** More on the search functions *)

Lemma lower_char_idem c : lower_char (lower_char c) = lower_char c.
Proof. each_char c; reflexivity. Qed.

Lemma toLowerCase_idem s : toLowerCase (toLowerCase s) = toLowerCase s.
Proof.
  unfold toLowerCase. rewrite map_map. apply map_ext. intros c. apply lower_char_idem.
Qed.

Lemma normalize_lower s : normalize (toLowerCase s) = normalize s.
Proof. unfold normalize. by rewrite toLowerCase_idem. Qed.

Lemma score_item_lower query it : score_item (toLowerCase query) it = score_item query it.
Proof. unfold score_item. by rewrite toLowerCase_idem, normalize_lower. Qed.

(** X10.  The search does not see the case of the query: lower-casing
    it changes neither the hits of [searchIndex], nor their scores, nor
    their order, nor the suggestions. *)
Theorem query_case_is_ignored (localeCompare : str -> str -> Z)
    (index : list IndexEntry) (query : str) (limit : option nat) :
  searchIndex localeCompare index (toLowerCase query) =
    searchIndex localeCompare index query /\
  getDidYouMeanSuggestions index (toLowerCase query) limit =
    getDidYouMeanSuggestions index query limit.
Proof.
  split.
  - unfold searchIndex. do 2 f_equal. apply map_ext. intros it. apply score_item_lower.
  - unfold getDidYouMeanSuggestions. by rewrite normalize_lower.
Qed.

Lemma edits_length s t n : edits s t n -> length s - length t <= n /\ length t - length s <= n.
Proof. induction 1; simpl; lia. Qed.

Lemma edits_zero s t n : edits s t n -> n = 0 -> s = t.
Proof. induction 1; intros Hn; try done. f_equal. by apply IHedits. Qed.

Lemma edits_max s t : edits s t (Nat.max (length s) (length t)).
Proof.
  revert t. induction s as [|c s IH]; intros t.
  - apply edits_nil_l.
  - destruct t as [|d t]; [apply edits_nil_r|].
    simpl. apply edits_substitute, IH.
Qed.

(** X11.  The distance is [0] exactly when the two strings have the same
    normalized form; it is at least the difference of the normalized
    lengths and at most the greater of them. *)
Theorem levenshtein_bounds (a b : str) :
  exists d,
    levenshtein a b = Some d /\
    (d = 0 <-> normalize a = normalize b) /\
    length (normalize a) - length (normalize b) <= d /\
    length (normalize b) - length (normalize a) <= d /\
    d <= Nat.max (length (normalize a)) (length (normalize b)).
Proof.
  exists (lev (normalize a) (normalize b)).
  split; [apply levenshtein_lev|].
  pose proof (lev_edits (normalize a) (normalize b)) as He.
  split; [split|].
  - intros H0. by eapply edits_zero.
  - intros ->. apply lev_refl.
  - destruct (edits_length _ _ _ He). repeat split; try done.
    apply lev_least, edits_max.
Qed.

Lemma existsb_substring (q : str) (f : str -> str) (l : list str) :
  existsb (fun k => includes (f k) q) l = true <->
  exists k, In k l /\ substring q (f k).
Proof.
  rewrite existsb_exists. split; intros (k & Hk & H); exists k; split; try done;
    by apply includes_spec.
Qed.

Lemma filter_nonempty {A} (f : A -> bool) (l : list A) :
  0 < length (List.filter f l) <-> exists x, In x l /\ f x = true.
Proof.
  split.
  - destruct (List.filter f l) as [|x r] eqn:E; [simpl; lia|]. intros _.
    exists x. apply List.filter_In. rewrite E. by left.
  - intros (x & Hx & Hf).
    assert (In x (List.filter f l)) as H by (by apply List.filter_In).
    destruct (List.filter f l); [done|simpl; lia].
Qed.

(** X12.  An entry of the index is among the hits of [searchIndex]
    exactly when the lower-cased query occurs in its lower-cased title,
    in one of its keywords or in its URL, or a token of the normalized
    query occurs in its title and keywords.  The scores of the hits lie
    between 1 and 10. *)
Theorem searchIndex_hits (localeCompare : str -> str -> Z)
    (index : list IndexEntry) (query : str) :
  (forall it,
     (exists h, In h (searchIndex localeCompare index query) /\ entry h = it) <->
     In it index /\
     (substring (toLowerCase query) (toLowerCase (title it)) \/
      (exists k, In k (keywords_of it) /\
                 substring (toLowerCase query) (toLowerCase k)) \/
      substring (toLowerCase query) (toLowerCase (url it)) \/
      exists t, In t (query_tokens query) /\ substring t (token_haystack it))) /\
  (forall h, In h (searchIndex localeCompare index query) ->
     (1 <= __score h <= 10)%Z).
Proof.
  split.
  - intros it.
    assert ((0 < __score (score_item query it))%Z <->
            (substring (toLowerCase query) (toLowerCase (title it)) \/
             (exists k, In k (keywords_of it) /\
                        substring (toLowerCase query) (toLowerCase k)) \/
             substring (toLowerCase query) (toLowerCase (url it)) \/
             exists t, In t (query_tokens query) /\ substring t (token_haystack it)))
      as Hscore.
    { rewrite score_item_score. unfold field_score, token_hits.
      rewrite <- !includes_spec, <- existsb_substring.
      assert ((exists t, In t (query_tokens query) /\ substring t (token_haystack it)) <->
              0 < length (List.filter (fun t => includes (token_haystack it) t)
                            (query_tokens query))) as ->.
      { rewrite filter_nonempty. split; intros (t & Ht & H); exists t; split; try done;
          by apply includes_spec. }
      destruct (includes (toLowerCase (title it)) (toLowerCase query)),
        (existsb (fun k => includes (toLowerCase k) (toLowerCase query)) (keywords_of it)),
        (includes (toLowerCase (url it)) (toLowerCase query));
        (split; [intros H|intros [H|[H|[H|H]]]]); try done; try lia; auto;
        repeat right; lia. }
    split.
    + intros (h & Hh & <-). apply searchIndex_In in Hh as [(item & Hin & ->) Hpos].
      rewrite score_item_entry. split; [done|]. by apply Hscore.
    + intros [Hin H]. exists (score_item query it). split; [|apply score_item_entry].
      apply searchIndex_In. split; [by exists it|]. by apply Hscore.
  - intros h Hh. apply searchIndex_In in Hh as [(item & Hin & ->) Hpos].
    rewrite score_item_score in *. pose proof (field_score_range query item). lia.
Qed.

Lemma split_ws_split (s : str) :
  Forall (fun c => okchar c = true) s ->
  exists w ws ws',
    split space s = w :: ws /\
    split_ws_from false s = w :: ws' /\
    List.filter truthy ws' = List.filter truthy ws /\
    List.filter truthy (split_ws_from true s) = List.filter truthy (w :: ws).
Proof.
  induction 1 as [|c s Hc _ (w & ws & ws' & E1 & E2 & E3 & E4)].
  - by exists [], [], [].
  - cbn [split split_ws_from]. destruct (is_space c) eqn:Es.
    + apply okchar_space in Es as ->; [|done].
      rewrite Ascii.eqb_refl, E1.
      exists [], (w :: ws), (split_ws_from true s). repeat split; try done.
    + assert (Ascii.eqb c space = false) as ->.
      { apply Ascii.eqb_neq. intros ->. by rewrite is_space_space in Es. }
      rewrite E1, E2. exists (c :: w), ws, ws'. repeat split; try done.
      cbn [List.filter truthy]. by rewrite E3.
Qed.

Lemma query_tokens_words (s : str) : query_tokens s = words s.
Proof.
  unfold query_tokens, words, split_ws.
  destruct (split_ws_split (normalize s) (normalize_okchar s))
    as (w & ws & ws' & -> & -> & E & _).
  cbn [List.filter]. by rewrite E.
Qed.

(** ** [initMobileNavToggle] *)

Lemma initMobileNavToggle_bound (m : menu) :
  dataset_bound m = Some (lit "1") -> initMobileNavToggle m = m.
Proof.
  intros H. unfold initMobileNavToggle. rewrite H.
  by destruct (negb (btn_found m) || negb (nav_found m)).
Qed.

Lemma initMobileNavToggle_iter (m : menu) (n : nat) :
  btn_found m = true -> nav_found m = true -> dataset_bound m = None ->
  Nat.iter (S n) initMobileNavToggle m =
  {| btn_found := true; nav_found := true;
     dataset_bound := Some (lit "1");
     click_listeners := S (click_listeners m);
     nav_hidden := nav_hidden m;
     aria_expanded := aria_expanded m |}.
Proof.
  intros Hb Hn Hd. induction n as [|n IH].
  - cbn [Nat.iter nat_rect]. unfold initMobileNavToggle. by rewrite Hb, Hn, Hd.
  - rewrite Nat.iter_succ, IH. by apply initMobileNavToggle_bound.
Qed.

(** X13.  However often [initMobileNavToggle] is called on a page that
    has the button and the menu, the button gets one click listener.  A
    click then shows a hidden menu and hides a shown one, and leaves
    [aria-expanded] saying ["true"] exactly when the menu is shown. *)
Theorem menu_toggles_once (m : menu) (n : nat) :
  btn_found m = true -> nav_found m = true ->
  dataset_bound m = None -> click_listeners m = 0 ->
  let ready := Nat.iter (S n) initMobileNavToggle m in
  click_listeners ready = 1 /\
  nav_hidden (click ready) = negb (nav_hidden m) /\
  aria_expanded (click ready) = Some (String_of_bool (negb (nav_hidden (click ready)))) /\
  nav_hidden (click (click ready)) = nav_hidden m.
Proof.
  intros Hb Hn Hd Hl ready. unfold ready.
  rewrite (initMobileNavToggle_iter m n Hb Hn Hd), Hl.
  unfold click. cbn. by rewrite !negb_involutive.
Qed.

Lemma menu_toggles_once_witness :
  click_listeners
    (Nat.iter 2 initMobileNavToggle
       {| btn_found := true; nav_found := true; dataset_bound := None;
          click_listeners := 0; nav_hidden := true; aria_expanded := None |}) = 1 /\
  nav_hidden
    (click (Nat.iter 2 initMobileNavToggle
       {| btn_found := true; nav_found := true; dataset_bound := None;
          click_listeners := 0; nav_hidden := true; aria_expanded := None |})) = false.
Proof.
  pose proof (menu_toggles_once
                {| btn_found := true; nav_found := true; dataset_bound := None;
                   click_listeners := 0; nav_hidden := true; aria_expanded := None |}
                1 eq_refl eq_refl eq_refl eq_refl) as (H1 & H2 & _).
  split; [exact H1|exact H2].
Defined.

(** * The build scripts: proofs *)

(** ** The index builder *)

Lemma str_eqb_spec s t : str_eqb s t = true <-> s = t.
Proof.
  revert t. induction s as [|a s IH]; intros [|b t]; simpl; try done.
  rewrite andb_true_iff, Ascii.eqb_eq, IH. split; [by intros [-> ->]|by intros [= -> ->]].
Qed.

Lemma has_spec l x : has l x = true <-> In x l.
Proof.
  unfold has. rewrite existsb_exists. split.
  - intros (y & Hy & E). apply str_eqb_spec in E. by subst.
  - intros H. exists x. split; [done|]. by apply str_eqb_spec.
Qed.

Lemma has_false l x : has l x = false <-> ~ In x l.
Proof. rewrite <- has_spec. by destruct (has l x). Qed.

Lemma alnum_not_space c : is_alnum c = true -> is_space c = false.
Proof. each_char c; congruence. Qed.

Lemma squash_collapse b s : squash_from b s = collapse_from b (blank_other s).
Proof.
  revert b. induction s as [|c s IH]; intros b; [done|].
  cbn [squash_from blank_other map]. fold (blank_other s).
  rewrite collapse_from_cons.
  destruct (is_alnum c) eqn:Ea.
  - cbn [orb]. rewrite (alnum_not_space c Ea). by rewrite IH.
  - cbn [orb]. destruct (is_space c) eqn:Es.
    + rewrite Es. by destruct b; rewrite IH.
    + rewrite is_space_space. by destruct b; rewrite IH.
Qed.

Lemma normalizeToken_normalize t : normalizeToken t = normalize t.
Proof. unfold normalizeToken, normalize, collapse_ws. by rewrite squash_collapse. Qed.

Lemma tokenize_query_tokens text : tokenize text = query_tokens text.
Proof.
  unfold tokenize, query_tokens. rewrite normalizeToken_normalize.
  by destruct (normalize text).
Qed.

(** X14.  The index builder and the search of the site cut a text into
    the same tokens: [normalizeToken] is [normalize], and [tokenize]
    gives the tokens that [searchIndex] takes from a query and the words
    that [overlapScore] compares. *)
Theorem indexer_tokens_agree (text : str) :
  normalizeToken text = normalize text /\
  tokenize text = List.filter truthy (split_ws (normalize text)) /\
  tokenize text = words text.
Proof.
  split; [apply normalizeToken_normalize|].
  rewrite tokenize_query_tokens. split; [done|apply query_tokens_words].
Qed.

(** *** Sets and maps *)

Lemma NoDup_snoc {A} (l : list A) (x : A) :
  List.NoDup l -> ~ In x l -> List.NoDup (l ++ [x]).
Proof.
  intros Hl Hx. apply List.NoDup_app; [done|repeat constructor; by intros []|].
  intros a Ha [<-|[]]. done.
Qed.

Lemma NoDup_take {A} (n : nat) (l : list A) : List.NoDup l -> List.NoDup (take n l).
Proof.
  intros Hl. revert n. induction Hl as [|x l Hx Hl IH]; intros [|n]; simpl;
    try constructor; [|done].
  intros H. by apply In_take in H.
Qed.

Lemma Set_from_spec (items acc : list str) :
  List.NoDup acc ->
  List.NoDup (fold_left Set_add items acc) /\
  forall x, In x (fold_left Set_add items acc) <-> In x acc \/ In x items.
Proof.
  revert acc. induction items as [|y items IH]; intros acc Hacc; simpl.
  - split; [done|]. intros x. tauto.
  - unfold Set_add at 2 4. destruct (has acc y) eqn:E.
    + destruct (IH acc Hacc) as [H1 H2]. split; [done|].
      intros x. rewrite H2. apply has_spec in E.
      split; [tauto|]. intros [H|[<-|H]]; auto.
    + apply has_false in E.
      destruct (IH _ (NoDup_snoc acc y Hacc E)) as [H1 H2]. split; [done|].
      intros x. rewrite H2, in_app_iff. simpl. tauto.
Qed.

(** A list without repetitions is its own set. *)
Lemma Set_from_NoDup (items acc : list str) :
  List.NoDup (acc ++ items) -> fold_left Set_add items acc = acc ++ items.
Proof.
  revert acc. induction items as [|y items IH]; intros acc H; simpl.
  - by rewrite app_nil_r.
  - assert (has acc y = false) as E.
    { apply has_false. intros Hy. apply NoDup_remove_2 in H.
      apply H. apply in_app_iff. by left. }
    unfold Set_add. rewrite E.
    rewrite IH; rewrite <- app_assoc; done.
Qed.

(** *** The tokens *)

Lemma split_ws_pieces b s t :
  In t (split_ws_from b s) -> Forall (fun c => In c s /\ is_space c = false) t.
Proof.
  revert b t. induction s as [|c s IH]; intros b t; cbn [split_ws_from].
  - intros [<-|[]]. constructor.
  - assert (forall b t, In t (split_ws_from b s) ->
              Forall (fun x => In x (c :: s) /\ is_space x = false) t) as IH'.
    { intros b' t' H. eapply List.Forall_impl; [|by eapply IH].
      intros x [H1 H2]. split; [by right|done]. }
    destruct (is_space c) eqn:Es.
    + destruct b; [by apply IH'|]. intros [<-|H]; [constructor|by eapply IH'].
    + destruct (split_ws_from false s) as [|w ws] eqn:E.
      * intros [<-|[]]. repeat constructor; done.
      * intros [<-|H].
        -- constructor; [split; [by left|done]|]. apply (IH' false). rewrite E. by left.
        -- apply (IH' false). rewrite E. by right.
Qed.

Lemma tokenize_alnum text t :
  In t (tokenize text) -> t <> [] /\ Forall (fun c => is_alnum c = true) t.
Proof.
  rewrite tokenize_query_tokens. unfold query_tokens, split_ws.
  intros [H Ht]%List.filter_In. split; [by destruct t|].
  apply split_ws_pieces in H.
  pose proof (normalize_okchar text) as Hok. rewrite List.Forall_forall in Hok.
  eapply List.Forall_impl; [|exact H]. intros c [Hc Hs]. cbn beta.
  apply Hok in Hc. unfold okchar in Hc. apply orb_true_iff in Hc as [Hc|Hc]; [done|].
  apply Ascii.eqb_eq in Hc. subst c. by rewrite is_space_space in Hs.
Qed.

Lemma StronglySorted_on {A} (P : A -> Prop) (R R' : A -> A -> Prop) (l : list A) :
  Forall P l -> (forall a b, P a -> P b -> R a b -> R' a b) ->
  StronglySorted R l -> StronglySorted R' l.
Proof.
  intros HP HR. induction 1 as [|x l Hs IH Hx]; constructor.
  - apply IH. by apply Forall_cons in HP as [_ HP].
  - apply Forall_cons in HP as [Px Pl].
    rewrite List.Forall_forall in Hx, Pl. apply List.Forall_forall.
    intros y Hy. apply HR; auto.
Qed.


(** *** Maps with computed values *)

Lemma str_eqb_sym s t : str_eqb s t = str_eqb t s.
Proof.
  destruct (str_eqb s t) eqn:E.
  - apply str_eqb_spec in E. subst. symmetry. by apply str_eqb_spec.
  - destruct (str_eqb t s) eqn:E'; [|done].
    apply str_eqb_spec in E'. subst. assert (str_eqb s s = true) by (by apply str_eqb_spec).
    congruence.
Qed.

Lemma Map_get_with_value f keys k :
  Map_get (with_value f keys) k = if has keys k then Some (f k) else None.
Proof.
  induction keys as [|w keys IH]; [done|].
  cbn [with_value map Map_get]. fold (with_value f keys). unfold has. cbn [existsb].
  rewrite (str_eqb_sym k w). destruct (str_eqb w k) eqn:E; cbn [orb].
  - apply str_eqb_spec in E. by subst.
  - exact IH.
Qed.

Lemma with_value_ext f g keys :
  (forall w, In w keys -> f w = g w) -> with_value f keys = with_value g keys.
Proof.
  intros H. unfold with_value. apply map_ext_in. intros w Hw. by rewrite H.
Qed.

Lemma Map_set_with_value f keys k v :
  List.NoDup keys ->
  Map_set (with_value f keys) k v =
  if has keys k then with_value (fun w => if str_eqb w k then v else f w) keys
  else with_value f keys ++ [(k, v)].
Proof.
  induction 1 as [|w keys Hw Hn IH]; [done|].
  cbn [with_value map Map_set]. fold (with_value f keys).
  fold (with_value (fun w => if str_eqb w k then v else f w) keys).
  unfold has. cbn [existsb]. fold (has keys k).
  rewrite (str_eqb_sym k w). destruct (str_eqb w k) eqn:E; cbn [orb].
  - apply str_eqb_spec in E. subst w. f_equal. apply with_value_ext.
    intros w Hin. destruct (str_eqb w k) eqn:E'; [|done].
    apply str_eqb_spec in E'. by subst.
  - rewrite IH. by destruct (has keys k).
Qed.

Lemma Set_of_snoc items x : Set_of (items ++ [x]) = Set_add (Set_of items) x.
Proof. unfold Set_of. by rewrite fold_left_app. Qed.

Lemma Set_of_NoDup items : List.NoDup (Set_of items).
Proof. apply (Set_from_spec items []). constructor. Qed.

Lemma Set_of_In items x : In x (Set_of items) <-> In x items.
Proof.
  destruct (Set_from_spec items [] (List.NoDup_nil _)) as [_ H].
  unfold Set_of. rewrite H. simpl. tauto.
Qed.

Lemma has_Set_of items x : has (Set_of items) x = has items x.
Proof.
  destruct (has items x) eqn:E.
  - apply has_spec, Set_of_In. by apply has_spec.
  - apply has_false. rewrite Set_of_In. by apply has_false.
Qed.

Lemma count_word_snoc w l t :
  count_word w (l ++ [t]) = count_word w l + (if str_eqb w t then 1 else 0).
Proof.
  unfold count_word. rewrite List.filter_app, length_app. cbn [List.filter].
  by destruct (str_eqb w t).
Qed.

Lemma count_word_absent w l : ~ In w l -> count_word w l = 0.
Proof.
  intros H. unfold count_word. induction l as [|x l IH]; [done|].
  cbn [List.filter]. destruct (str_eqb w x) eqn:E.
  - apply str_eqb_spec in E. subst. exfalso. apply H. by left.
  - apply IH. intros Hin. apply H. by right.
Qed.

Lemma count_word_filter w (g : str -> bool) l :
  g w = true -> count_word w (List.filter g l) = count_word w l.
Proof.
  intros Hg. unfold count_word. induction l as [|x l IH]; [done|].
  cbn [List.filter]. destruct (str_eqb w x) eqn:E.
  - apply str_eqb_spec in E. subst x. rewrite Hg. cbn [List.filter].
    rewrite (proj2 (str_eqb_spec w w) eq_refl). simpl. by rewrite IH.
  - destruct (g x); [|done]. cbn [List.filter]. by rewrite E.
Qed.

(** *** The word counts

    The first loop counts the occurrences, the second adds 3 for the
    tokens of the title and the headings. *)
Lemma count_token_keep freq t :
  count_token freq t =
  if keep_word t then Map_set freq t (default 0 (Map_get freq t) + 1) else freq.
Proof.
  unfold count_token, keep_word.
  by destruct (length t <? 3), (has STOPWORDS t).
Qed.

Lemma count_token_step pre t :
  count_token (with_value (fun w => count_word w (List.filter keep_word pre))
                 (Set_of (List.filter keep_word pre))) t =
  with_value (fun w => count_word w (List.filter keep_word (pre ++ [t])))
    (Set_of (List.filter keep_word (pre ++ [t]))).
Proof.
  rewrite count_token_keep, List.filter_app. cbn [List.filter].
  destruct (keep_word t); [|by rewrite app_nil_r].
  set (kept := List.filter keep_word pre).
  rewrite Map_get_with_value, Map_set_with_value by apply Set_of_NoDup.
  rewrite Set_of_snoc. unfold Set_add.
  destruct (has (Set_of kept) t) eqn:E; cbn [default].
  - apply with_value_ext. intros w Hw. rewrite count_word_snoc.
    destruct (str_eqb w t) eqn:Ew; [|lia].
    apply str_eqb_spec in Ew. by subst.
  - unfold with_value. rewrite map_app. cbn [map]. f_equal.
    + apply map_ext_in. intros w Hw. rewrite count_word_snoc.
      destruct (str_eqb w t) eqn:Ew; [|by rewrite Nat.add_0_r].
      apply str_eqb_spec in Ew. subst w. by apply has_false in E.
    + rewrite count_word_snoc, (proj2 (str_eqb_spec t t) eq_refl).
      rewrite count_word_absent; [done|].
      apply has_false in E. by rewrite Set_of_In in E.
Qed.

Lemma count_token_fold pre tokens :
  fold_left count_token tokens
    (with_value (fun w => count_word w (List.filter keep_word pre))
       (Set_of (List.filter keep_word pre))) =
  with_value (fun w => count_word w (List.filter keep_word (pre ++ tokens)))
    (Set_of (List.filter keep_word (pre ++ tokens))).
Proof.
  revert pre. induction tokens as [|t tokens IH]; intros pre.
  - by rewrite app_nil_r.
  - cbn [fold_left]. rewrite count_token_step, IH, <- app_assoc. done.
Qed.

Lemma boost_token_step f keys t :
  List.NoDup keys ->
  boost_token (with_value f keys) t =
  with_value (fun w => f w + (if str_eqb w t then 3 else 0)) keys.
Proof.
  intros Hn. unfold boost_token. rewrite Map_get_with_value.
  destruct (has keys t) eqn:E.
  - rewrite Map_set_with_value, E by done. apply with_value_ext.
    intros w Hw. destruct (str_eqb w t) eqn:Ew; [|lia].
    apply str_eqb_spec in Ew. by subst.
  - apply with_value_ext. intros w Hw. destruct (str_eqb w t) eqn:Ew; [|lia].
    apply str_eqb_spec in Ew. subst. by apply has_false in E.
Qed.

Lemma boost_token_fold f keys tokens :
  List.NoDup keys -> List.NoDup tokens ->
  fold_left boost_token tokens (with_value f keys) =
  with_value (fun w => f w + (if has tokens w then 3 else 0)) keys.
Proof.
  intros Hk Ht. revert f. induction Ht as [|t tokens Hin Ht IH]; intros f.
  - simpl. apply with_value_ext. intros; lia.
  - cbn [fold_left]. rewrite boost_token_step, IH by done.
    apply with_value_ext. intros w Hw. unfold has at 2. cbn [existsb]. fold (has tokens w).
    destruct (str_eqb w t) eqn:Ew; cbn [orb]; [|lia].
    apply str_eqb_spec in Ew. subst w. apply has_false in Hin. rewrite Hin. lia.
Qed.

(** The word counts of [buildKeywords]. *)
Lemma word_counts heads page :
  fold_left boost_token (Set_of heads) (fold_left count_token page []) =
  with_value (word_score heads page) (Set_of (List.filter keep_word page)).
Proof.
  pose proof (count_token_fold [] page) as H. cbn [app List.filter] in H.
  change (with_value _ (Set_of [])) with (@nil (str * nat)) in H. rewrite H.
  rewrite boost_token_fold by apply Set_of_NoDup.
  apply with_value_ext. intros w Hw. unfold word_score. rewrite has_Set_of.
  apply Set_of_In, List.filter_In in Hw as [_ Hw].
  by rewrite count_word_filter.
Qed.

(** *** The phrases *)
Lemma Set_add_fold_prefix items acc :
  exists ext, fold_left Set_add items acc = acc ++ ext.
Proof.
  revert acc. induction items as [|x items IH]; intros acc.
  - exists []. by rewrite app_nil_r.
  - cbn [fold_left]. destruct (IH (Set_add acc x)) as [ext ->].
    unfold Set_add. destruct (has acc x); [by exists ext|].
    exists (x :: ext). by rewrite <- app_assoc.
Qed.

Lemma phrases_loop_step a b rest phrases :
  phrases_loop (a :: b :: rest) phrases =
  if keep_word a && keep_word b then
    if 6 <=? length (Set_add phrases (a ++ [space] ++ b))
    then Set_add phrases (a ++ [space] ++ b)
    else phrases_loop (b :: rest) (Set_add phrases (a ++ [space] ++ b))
  else phrases_loop (b :: rest) phrases.
Proof.
  cbn [phrases_loop]. unfold keep_word, Set_add.
  destruct (has STOPWORDS a), (has STOPWORDS b), (length a <? 3), (length b <? 3);
    try done.
  cbn [orb negb andb]. by destruct (has phrases (a ++ [space] ++ b)).
Qed.

Lemma candidate_phrases_step a b rest :
  candidate_phrases (a :: b :: rest) =
  if keep_word a && keep_word b
  then (a ++ [space] ++ b) :: candidate_phrases (b :: rest)
  else candidate_phrases (b :: rest).
Proof.
  unfold candidate_phrases. cbn [pairs List.filter fst snd].
  by destruct (keep_word a && keep_word b).
Qed.

Lemma phrases_loop_take tokens phrases :
  length phrases < 6 ->
  phrases_loop tokens phrases =
  take 6 (fold_left Set_add (candidate_phrases tokens) phrases).
Proof.
  revert phrases. induction tokens as [|a rest IH]; intros phrases Hl.
  - simpl. rewrite take_ge; [done|lia].
  - destruct rest as [|b rest'].
    { simpl. rewrite take_ge; [done|lia]. }
    rewrite phrases_loop_step, candidate_phrases_step.
    destruct (keep_word a && keep_word b); [|by apply IH].
    cbn [fold_left].
    set (phrases' := Set_add phrases (a ++ [space] ++ b)).
    assert (length phrases' <= 6) as Hl'.
    { unfold phrases', Set_add. destruct (has phrases _); [lia|].
      rewrite length_app. simpl. lia. }
    destruct (6 <=? length phrases') eqn:E6.
    + apply Nat.leb_le in E6.
      destruct (Set_add_fold_prefix (candidate_phrases (b :: rest')) phrases') as [ext ->].
      rewrite take_app_le by lia. rewrite take_ge; [done|lia].
    + apply Nat.leb_gt in E6. by apply IH.
Qed.

(** *** Sorting by a key

    When the comparator follows a transitive relation [R] in both of its
    answers, the sorted list is sorted by [R], whatever else the
    comparator looks at. *)
Section SortBy.
Context {A : Type} (after : A -> A -> bool) (R : A -> A -> Prop).
Hypothesis R_trans : forall x y z, R x y -> R y z -> R x z.
Hypothesis after_R : forall x y, after x y = true -> R y x.
Hypothesis before_R : forall x y, after x y = false -> R x y.

Lemma sort_insert_sorted_by (x : A) (l : list A) :
  StronglySorted R l -> StronglySorted R (sort_insert after x l).
Proof.
  intros Hs. induction Hs as [|y l Hs IH Hy]; simpl.
  - repeat constructor.
  - destruct (after x y) eqn:E.
    + constructor; [done|].
      apply List.Forall_forall. intros z Hz.
      apply (Permutation_in _ (sort_insert_Permutation after x l)) in Hz.
      destruct Hz as [<-|Hz]; [by apply after_R|].
      rewrite List.Forall_forall in Hy. by apply Hy.
    + constructor; [by constructor|].
      constructor; [by apply before_R|].
      rewrite List.Forall_forall in Hy. apply List.Forall_forall. intros z Hz.
      apply (R_trans x y z); [by apply before_R|by apply Hy].
Qed.

Lemma sort_sorted_by (l : list A) : StronglySorted R (sort after l).
Proof.
  induction l as [|x l IH]; simpl; [constructor|].
  by apply sort_insert_sorted_by.
Qed.

End SortBy.

Lemma StronglySorted_app_inv {A} (R : A -> A -> Prop) (l1 l2 : list A) x y :
  StronglySorted R (l1 ++ l2) -> In x l1 -> In y l2 -> R x y.
Proof.
  induction l1 as [|a l1 IH]; [done|].
  cbn [app]. intros Hs [->|Hx] Hy.
  - apply StronglySorted_inv in Hs as [_ H]. rewrite List.Forall_forall in H.
    apply H, in_app_iff. by right.
  - apply StronglySorted_inv in Hs as [Hs _]. by apply IH.
Qed.

Section KeywordFacts.
Variable localeCompare : str -> str -> Z.

Abbreviation word_after := (fun a b : str * nat => (0 <? word_compare localeCompare a b)%Z).

Lemma word_after_score a b : word_after a b = true -> snd a <= snd b.
Proof.
  unfold word_compare. intros H. apply Z.ltb_lt in H.
  destruct (Z.of_nat (snd b) - Z.of_nat (snd a) =? 0)%Z eqn:E.
  - apply Z.eqb_eq in E. lia.
  - lia.
Qed.

Lemma word_before_score a b : word_after a b = false -> snd b <= snd a.
Proof.
  unfold word_compare. intros H. apply Z.ltb_ge in H.
  destruct (Z.of_nat (snd b) - Z.of_nat (snd a) =? 0)%Z eqn:E.
  - apply Z.eqb_eq in E. lia.
  - lia.
Qed.

Lemma words_by_score (freq : list (str * nat)) :
  StronglySorted (fun a b => snd b <= snd a) (sort word_after freq).
Proof.
  apply sort_sorted_by.
  - intros x y z. lia.
  - apply word_after_score.
  - apply word_before_score.
Qed.

Lemma word_before_spec a b :
  word_after a b = false <->
  snd b < snd a \/ (snd a = snd b /\ (localeCompare (fst a) (fst b) <= 0)%Z).
Proof.
  unfold word_compare. rewrite Z.ltb_ge.
  destruct (Z.of_nat (snd b) - Z.of_nat (snd a) =? 0)%Z eqn:E.
  - apply Z.eqb_eq in E. split; [intros; right; lia|]. intros [H|[_ H]]; lia.
  - apply Z.eqb_neq in E. split; [intros; left; lia|]. intros [H|[H _]]; lia.
Qed.

Hypothesis localeCompare_asym :
  forall s t, (0 < localeCompare s t)%Z -> (localeCompare t s <= 0)%Z.
Hypothesis localeCompare_trans :
  forall s t u, (localeCompare s t <= 0)%Z -> (localeCompare t u <= 0)%Z ->
                (localeCompare s u <= 0)%Z.

Lemma word_after_asym a b : word_after a b = true -> word_after b a = false.
Proof.
  intros H. apply word_before_spec.
  destruct (word_after b a) eqn:E; [|by apply word_before_spec].
  apply word_after_score in E as E1. apply word_after_score in H as H1.
  right. split; [lia|].
  apply localeCompare_asym.
  unfold word_compare in H. apply Z.ltb_lt in H.
  replace (Z.of_nat (snd b) - Z.of_nat (snd a))%Z with 0%Z in H by lia. done.
Qed.

Lemma word_before_trans a b c :
  word_after a b = false -> word_after b c = false -> word_after a c = false.
Proof.
  rewrite !word_before_spec. intros [H1|[H1 L1]] [H2|[H2 L2]]; try (left; lia).
  right. split; [lia|]. by eapply localeCompare_trans.
Qed.

Lemma words_by_order (freq : list (str * nat)) :
  StronglySorted
    (fun a b => snd b < snd a \/
                (snd a = snd b /\ (localeCompare (fst a) (fst b) <= 0)%Z))
    (sort word_after freq).
Proof.
  pose proof (sort_sorted word_after (fun _ => True)
                (fun x y _ _ => word_after_asym x y)
                (fun x y z _ _ _ => word_before_trans x y z) freq) as H.
  eapply (StronglySorted_on (fun _ => True)).
  - by apply List.Forall_forall.
  - intros a b _ _. apply word_before_spec.
  - apply H. by apply List.Forall_forall.
Qed.

End KeywordFacts.

(** *** The keywords *)

Lemma candidate_phrase_space tokens p : In p (candidate_phrases tokens) -> In space p.
Proof.
  unfold candidate_phrases. intros ([a b] & <- & _)%in_map_iff.
  cbn [fst snd]. rewrite !in_app_iff. right. left. by left.
Qed.

Lemma token_no_space text w : In w (tokenize text) -> ~ In space w.
Proof.
  intros [_ H]%tokenize_alnum Hs. rewrite List.Forall_forall in H.
  by apply H in Hs.
Qed.

(** X15.  The keywords that [buildKeywords] gives are the phrases
    followed by the top words, with nothing removed by the final [Set] and
    the cut at eighteen, and no keyword twice.  The phrases are the first
    six different phrases ["a b"] of two neighbouring tokens of the title
    and the headings that both have three characters or more and are no
    stop words.  The words that are counted are such tokens of the whole
    page, each once; the score of a word is the number of its occurrences
    on the page, plus 3 when it is a token of the title or of a heading.
    The top words are the first twelve of the counted words ranked by
    descending score, so no word that is left out has a higher score than
    a word that is given; for a consistent collation, words with the same
    score are in the order of [localeCompare]. *)
Theorem buildKeywords_spec (localeCompare : str -> str -> Z)
    (title h1 : str) (headings : list str) (bodyText : str) :
  let heads := tokenize (join [space] ([title; h1] ++ headings)) in
  let page := tokenize (join [space] ([title; h1] ++ headings ++ [bodyText])) in
  let phrases := take 6 (Set_of (candidate_phrases heads)) in
  let counted := Set_of (List.filter keep_word page) in
  let ranked :=
    sort (fun a b => (0 <? word_compare localeCompare a b)%Z)
         (map (fun w => (w, word_score heads page w)) counted) in
  let topWords := map fst (take 12 ranked) in
  buildKeywords localeCompare title h1 headings bodyText = phrases ++ topWords /\
  List.NoDup (phrases ++ topWords) /\
  length topWords = Nat.min 12 (length counted) /\
  Permutation ranked (map (fun w => (w, word_score heads page w)) counted) /\
  StronglySorted (fun a b => snd b <= snd a) ranked /\
  (forall w v, In w topWords -> In v counted -> ~ In v topWords ->
               word_score heads page v <= word_score heads page w) /\
  ((forall s t, (0 < localeCompare s t)%Z -> (localeCompare t s <= 0)%Z) ->
   (forall s t u, (localeCompare s t <= 0)%Z -> (localeCompare t u <= 0)%Z ->
                  (localeCompare s u <= 0)%Z) ->
   StronglySorted
     (fun a b => snd b < snd a \/
                 (snd a = snd b /\ (localeCompare (fst a) (fst b) <= 0)%Z))
     ranked).
Proof.
  intros heads page phrases counted ranked topWords.
  assert (Permutation ranked (map (fun w => (w, word_score heads page w)) counted)) as Hperm
    by apply sort_Permutation.
  assert (Permutation (map fst ranked) counted) as Hkeys.
  { rewrite Hperm, map_map. cbn [fst]. by rewrite map_id. }
  assert (List.NoDup counted) as Hcn by apply Set_of_NoDup.
  assert (List.NoDup topWords) as Hwn.
  { unfold topWords. rewrite <- firstn_map. apply NoDup_take.
    eapply Permutation_NoDup; [symmetry; exact Hkeys|done]. }
  assert (forall w, In w topWords -> In w counted) as Hwc.
  { intros w Hw. apply (Permutation_in _ Hkeys).
    unfold topWords in Hw. rewrite <- firstn_map in Hw. by apply In_take in Hw. }
  assert (List.NoDup (phrases ++ topWords)) as Hn.
  { apply List.NoDup_app; [apply NoDup_take, Set_of_NoDup|done|].
    intros p Hp Hw. apply In_take, Set_of_In, candidate_phrase_space in Hp.
    apply Hwc, Set_of_In, List.filter_In in Hw as [Hw _].
    by apply token_no_space in Hw. }
  assert (StronglySorted (fun a b => snd b <= snd a) ranked) as Hs
    by apply words_by_score.
  split.
  { unfold buildKeywords. fold heads page.
    rewrite word_counts, phrases_loop_take by (simpl; lia).
    fold (Set_of (candidate_phrases heads)). fold phrases.
    unfold with_value. fold counted ranked topWords.
    unfold Set_of at 1. rewrite (Set_from_NoDup (phrases ++ topWords) []) by done.
    simpl. apply take_ge. rewrite length_app.
    unfold phrases, topWords. rewrite length_map, !length_take. lia. }
  split; [done|]. split.
  { unfold topWords. rewrite length_map, length_take.
    by rewrite (Permutation_length Hperm), length_map. }
  split; [done|]. split; [done|]. split.
  - intros w v Hw Hv Hnv.
    rewrite <- (take_drop 12 ranked) in Hs.
    assert (forall x n, In (x, n) ranked -> n = word_score heads page x) as Hval.
    { intros x n Hx. apply (Permutation_in _ Hperm) in Hx.
      apply in_map_iff in Hx as (y & [= -> ->] & _). done. }
    assert (In (v, word_score heads page v) ranked) as Hvr.
    { apply (Permutation_in _ (Permutation_sym Hperm)). apply in_map_iff. by exists v. }
    rewrite <- (take_drop 12 ranked), in_app_iff in Hvr.
    destruct Hvr as [Hvr|Hvr].
    { exfalso. apply Hnv. unfold topWords. apply in_map_iff. by exists (v, word_score heads page v). }
    unfold topWords in Hw. apply in_map_iff in Hw as ([x n] & <- & Hw).
    cbn [fst]. rewrite <- (Hval x n) by (by eapply In_take).
    apply (StronglySorted_app_inv _ _ _ _ _ Hs Hw Hvr).
  - intros Hasym Htrans. by apply words_by_order.
Qed.

Lemma buildKeywords_spec_witness :
  buildKeywords codeUnitCompare (lit "Wear Layer - Flooring Reference") (lit "Wear Layer")
    [lit "What is the wear layer?"] (lit "The wear layer protects the floor.")
    = [lit "wear layer"; lit "layer flooring";
       lit "layer"; lit "wear"; lit "flooring"; lit "floor"; lit "protects"] /\
  StronglySorted
    (fun a b => snd b < snd a \/
                (snd a = snd b /\ (codeUnitCompare (fst a) (fst b) <= 0)%Z))
    [(lit "layer", 7); (lit "wear", 7); (lit "flooring", 4); (lit "floor", 1);
     (lit "protects", 1)].
Proof.
  pose proof (buildKeywords_spec codeUnitCompare
                (lit "Wear Layer - Flooring Reference") (lit "Wear Layer")
                [lit "What is the wear layer?"] (lit "The wear layer protects the floor."))
    as (H1 & _ & _ & _ & _ & _ & H7).
  split; [exact H1|].
  exact (H7 codeUnitCompare_asym codeUnitCompare_trans).
Defined.

(** ** [decodeEntities] *)

Lemma replaceAll_blocks (pat rep : str) (f f' : ascii -> str) (P : ascii -> Prop) (s : str) :
  (forall c rest, P c ->
     replaceAll_from 0 pat rep (f c ++ rest) = f' c ++ replaceAll_from 0 pat rep rest) ->
  Forall P s -> replaceAll pat rep (flat_map f s) = flat_map f' s.
Proof.
  intros Hstep. unfold replaceAll. induction 1 as [|c s Hc _ IH]; [done|].
  cbn [flat_map]. by rewrite Hstep, IH.
Qed.

Lemma decode_escaped (s : str) :
  Forall (fun c => c <> ampersand) s -> decodeEntities (flat_map esc_char s) = s.
Proof.
  intros Hs. unfold decodeEntities.
  rewrite (replaceAll_blocks _ _ esc_char (partly []) (fun c => c <> ampersand) s); [|decode_step|done].
  rewrite (replaceAll_blocks _ _ _ (partly [ascii_of_nat 60]) (fun c => c <> ampersand) s); [|decode_step|done].
  rewrite (replaceAll_blocks _ _ _ (partly [ascii_of_nat 62; ascii_of_nat 60]) (fun c => c <> ampersand) s);
    [|decode_step|done].
  rewrite (replaceAll_blocks _ _ _ (partly [dquote; ascii_of_nat 62; ascii_of_nat 60]) (fun c => c <> ampersand) s);
    [|decode_step|done].
  rewrite (replaceAll_blocks _ _ _
             (partly [ascii_of_nat 39; dquote; ascii_of_nat 62; ascii_of_nat 60])
             (fun c => c <> ampersand) s);
    [|decode_step|done].
  rewrite (replaceAll_blocks _ _ _
             (partly [ascii_of_nat 39; dquote; ascii_of_nat 62; ascii_of_nat 60])
             (fun c => c <> ampersand) s);
    [|decode_step|done].
  induction Hs as [|c s Hc _ IH]; [done|].
  cbn [flat_map]. rewrite IH. clear IH.
  unfold partly, esc_char. cbn [existsb orb]. by case_chars.
Qed.

Lemma decode_plain (s : str) :
  Forall (fun c => c <> ampersand) s -> decodeEntities s = s.
Proof.
  intros Hs. unfold decodeEntities.
  assert (flat_map (fun c => [c]) s = s) as E.
  { clear Hs. induction s as [|c s IH]; [done|]. simpl. by rewrite IH. }
  rewrite <- E at 1.
  do 6 (rewrite (replaceAll_blocks _ _ (fun c => [c]) (fun c => [c])
                   (fun c => c <> ampersand) s);
        [|intros c rest Hc; cbn; case_chars; done|done]).
  exact E.
Qed.

(** X16.  On a text without ampersand [decodeEntities] changes nothing,
    and it undoes [escapeHtml]: the text that the index builder reads
    from an escaped title is the title.  (With an ampersand it need not:
    see [decodeEntities_twice].) *)
Theorem decodeEntities_escapeHtml (s : str) :
  ~ In ampersand s ->
  decodeEntities s = s /\ decodeEntities (escapeHtml s) = s.
Proof.
  intros Hs.
  assert (Forall (fun c => c <> ampersand) s) as H.
  { apply List.Forall_forall. intros c Hc ->. done. }
  split; [by apply decode_plain|].
  rewrite escapeHtml_chars. by apply decode_escaped.
Qed.

Lemma decodeEntities_escapeHtml_witness :
  decodeEntities (lit "a < b") = lit "a < b" /\
  decodeEntities (escapeHtml (lit "a < b")) = lit "a < b".
Proof.
  apply (decodeEntities_escapeHtml (lit "a < b")).
  intros H. simpl in H. intuition discriminate.
Defined.

(** The entities are decoded one after the other, [&amp;] first: the
    text [&lt;], escaped and decoded, comes back as [<]. *)
Example decodeEntities_twice :
  escapeHtml (lit "&lt;") = lit "&amp;lt;" /\
  decodeEntities (lit "&amp;lt;") = lit "<".
Proof. split; reflexivity. Qed.

(** ** [normalizePath] *)

Lemma endsWith_spec s t : endsWith s t = true <-> exists pre, s = pre ++ t.
Proof.
  unfold endsWith. rewrite startsWith_spec. split.
  - intros [post H]. exists (rev post).
    apply (f_equal (@rev ascii)) in H. by rewrite rev_involutive, rev_app_distr, rev_involutive in H.
  - intros [pre ->]. exists (rev pre). by rewrite rev_app_distr.
Qed.

Lemma split_cons sep c s :
  hd [] (split sep (c :: s)) = if Ascii.eqb c sep then [] else c :: hd [] (split sep s).
Proof.
  cbn [split]. destruct (Ascii.eqb c sep); [done|]. by destruct (split sep s).
Qed.

Lemma split_hd_prefix sep s : exists rest, s = hd [] (split sep s) ++ rest.
Proof.
  induction s as [|c s [rest IH]]; [by exists []|].
  rewrite split_cons. destruct (Ascii.eqb c sep); [by exists (c :: s)|].
  exists rest. simpl. by rewrite <- IH.
Qed.

Lemma split_hd_clean sep s : ~ In sep (hd [] (split sep s)).
Proof.
  induction s as [|c s IH]; [by intros []|].
  rewrite split_cons. destruct (Ascii.eqb_spec c sep) as [->|Hc]; [by intros []|].
  intros [H|H]; done.
Qed.

Lemma split_hd_id sep s : ~ In sep s -> hd [] (split sep s) = s.
Proof.
  induction s as [|c s IH]; [done|]. intros H.
  rewrite split_cons. destruct (Ascii.eqb_spec c sep) as [->|Hc].
  - exfalso. apply H. by left.
  - rewrite IH; [done|]. intros H'. apply H. by right.
Qed.

Lemma collapse_slashes_In b s c : In c (collapse_slashes_from b s) -> In c s.
Proof.
  revert b. induction s as [|x s IH]; intros b; simpl; [done|].
  destruct (Ascii.eqb_spec x slash) as [->|Hx].
  - destruct b; [right; by eapply IH|]. intros [<-|H]; [by left|right; by eapply IH].
  - intros [<-|H]; [by left|right; by eapply IH].
Qed.

Lemma double_slash_cons c s :
  substring [slash; slash] (c :: s) <->
  (c = slash /\ exists s', s = slash :: s') \/ substring [slash; slash] s.
Proof.
  unfold substring. split.
  - intros (pre & post & H). destruct pre as [|x pre]; simpl in H.
    + injection H as -> ->. left. split; [done|by eexists].
    + injection H as _ ->. right. by exists pre, post.
  - intros [[-> [s' ->]]|(pre & post & ->)].
    + by exists [], s'.
    + by exists (c :: pre), post.
Qed.

Lemma collapse_slashes_spec b s :
  ~ substring [slash; slash] (collapse_slashes_from b s) /\
  (b = true -> forall r, collapse_slashes_from b s <> slash :: r).
Proof.
  revert b. induction s as [|x s IH]; intros b; simpl.
  - split; [|done]. intros (pre & post & H). by destruct pre.
  - destruct (Ascii.eqb_spec x slash) as [->|Hx].
    + destruct b.
      * apply IH.
      * split; [|done]. rewrite double_slash_cons.
        destruct (IH true) as [H1 H2].
        intros [[_ [s' H]]|H]; [by eapply H2|done].
    + destruct (IH false) as [H1 _]. split.
      * rewrite double_slash_cons. intros [[-> _]|H]; done.
      * intros _ r [= -> _]. done.
Qed.

Lemma collapse_slashes_id b s :
  ~ substring [slash; slash] s -> (b = true -> forall r, s <> slash :: r) ->
  collapse_slashes_from b s = s.
Proof.
  revert b. induction s as [|x s IH]; intros b Hs Hb; simpl; [done|].
  rewrite double_slash_cons in Hs.
  destruct (Ascii.eqb_spec x slash) as [->|Hx].
  - destruct b; [exfalso; by eapply Hb|].
    f_equal. apply IH; [tauto|]. intros _ r ->. apply Hs. left. split; [done|by exists r].
  - f_equal. apply IH; [tauto|done].
Qed.

Lemma substring_prefix t s rest : substring t s -> substring t (s ++ rest).
Proof.
  intros (pre & post & ->). exists pre, (post ++ rest). by rewrite <- !app_assoc.
Qed.

Lemma toLowerCase_app s t : toLowerCase (s ++ t) = toLowerCase s ++ toLowerCase t.
Proof. apply map_app. Qed.

Lemma lower_slash c : lower_char c = slash -> c = slash.
Proof. each_char c; congruence. Qed.

(** What [strip_index] does: it cuts [index.html] off after the last
    slash. *)
Lemma strip_index_prefix s :
  exists rest, s = strip_index s ++ rest /\
    (strip_index s = s \/ exists pre, strip_index s = pre ++ [slash]).
Proof.
  unfold strip_index. destruct (endsWith _ _) eqn:E.
  - apply endsWith_spec in E as [pre E].
    assert (length s = length pre + 11) as Hlen.
    { rewrite <- (length_map lower_char s). fold (toLowerCase s). rewrite E, length_app. done. }
    change (length (lit "/index.html")) with 11.
    rewrite <- (take_drop (length s - 11) s) in E at 1. rewrite toLowerCase_app in E.
    apply app_inj_1 in E as [_ E].
    2:{ unfold toLowerCase. rewrite length_map, length_take. lia. }
    destruct (drop (length s - 11) s) as [|c rest] eqn:Ed; [done|].
    simpl in E. injection E as E _. apply lower_slash in E. subst c.
    exists rest. split; [|right; by eexists].
    rewrite <- app_assoc. change (lit "/" ++ rest) with (slash :: rest).
    rewrite <- Ed. by rewrite take_drop.
  - exists []. rewrite app_nil_r. auto.
Qed.

Lemma strip_index_not_index s :
  endsWith (toLowerCase (strip_index s)) (lit "/index.html") = false.
Proof.
  unfold strip_index. destruct (endsWith (toLowerCase s) _) eqn:E; [|done].
  destruct (endsWith (toLowerCase (_ ++ _)) _) eqn:E'; [|done].
  apply endsWith_spec in E' as [pre E'].
  rewrite toLowerCase_app in E'.
  change (lit "/index.html") with (lit "/index.htm" ++ lit "l") in E'.
  rewrite app_assoc in E'. apply app_inj_2 in E' as [_ E']; [|done].
  vm_compute in E'. discriminate.
Qed.

Lemma normalizePath_steps (out : str) :
  out <> [] ->
  let o1 := hd [] (split hash (hd [] (split qmark out))) in
  let o2 := if startsWith o1 (lit "/") then o1 else lit "/" ++ o1 in
  let o3 := collapse_slashes o2 in
  let o4 := if str_eqb o3 (lit "/index.html") then lit "/" else o3 in
  (exists y, o4 = slash :: y) /\ ~ In qmark o4 /\ ~ In hash o4 /\
  ~ substring (lit "//") o4.
Proof.
  intros Hout o1 o2 o3 o4.
  assert (~ In qmark o1 /\ ~ In hash o1) as [Hq1 Hh1].
  { split; [|apply split_hd_clean].
    destruct (split_hd_prefix hash (hd [] (split qmark out))) as [rest E].
    intros H. apply (split_hd_clean qmark out). rewrite E. apply in_app_iff. by left. }
  assert (exists x, o2 = slash :: x /\ ~ In qmark x /\ ~ In hash x) as (x & E2 & Hq2 & Hh2).
  { unfold o2. destruct (startsWith o1 (lit "/")) eqn:E.
    - apply startsWith_spec in E as [post E]. exists post. rewrite E in Hq1, Hh1.
      repeat split; [done|intros H; apply Hq1; by right|intros H; apply Hh1; by right].
    - by exists o1. }
  assert (exists y, o3 = slash :: y /\ ~ In qmark o3 /\ ~ In hash o3 /\
                    ~ substring (lit "//") o3) as (y & E3 & Hq3 & Hh3 & Hs3).
  { unfold o3, collapse_slashes. rewrite E2. cbn [collapse_slashes_from].
    rewrite Ascii.eqb_refl. eexists. split; [done|].
    change (slash :: collapse_slashes_from true x)
      with (collapse_slashes_from false (slash :: x)).
    repeat split.
    - intros H%collapse_slashes_In. destruct H as [H|H]; done.
    - intros H%collapse_slashes_In. destruct H as [H|H]; done.
    - apply collapse_slashes_spec. }
  unfold o4. destruct (str_eqb o3 (lit "/index.html")).
  - repeat split; [by eexists|by intros [H|[]]|by intros [H|[]]|].
    intros (pre & post & H). by destruct pre as [|? [|? ?]].
  - repeat split; try done. by exists y.
Qed.

Lemma normalizePath_blank (p : str) : normalizePath p = [] <-> trim p = [].
Proof.
  unfold normalizePath. destruct (trim p) as [|c t] eqn:Et; cbn [truthy negb]; [done|].
  destruct (normalizePath_steps (c :: t)) as ([y Ey] & _); [done|].
  cbv zeta in Ey. set (o4 := if str_eqb _ _ then _ else _) in *.
  destruct (strip_index_prefix o4) as (rest & E & Hr).
  split; [|done]. intros H.
  destruct Hr as [Hr|[pre Hr]]; rewrite Hr in H; [by rewrite Ey in H|by destruct pre].
Qed.

Lemma normalizePath_shape (p : str) :
  (normalizePath p <> [] -> exists r', normalizePath p = slash :: r') /\
  ~ In qmark (normalizePath p) /\ ~ In hash (normalizePath p) /\
  ~ substring (lit "//") (normalizePath p) /\
  ~ suffix_of (lit "/index.html") (toLowerCase (normalizePath p)).
Proof.
  unfold normalizePath. destruct (trim p) as [|c t] eqn:Et; cbn [truthy negb].
  { repeat split; try done; try (by intros []).
    - intros (pre & post & H). by destruct pre.
    - intros [pre H]. by destruct pre. }
  destruct (normalizePath_steps (c :: t)) as ([y Ey] & Hq & Hh & Hs); [done|].
  cbv zeta in Ey, Hq, Hh, Hs.
  set (o4 := if str_eqb _ _ then _ else _) in *.
  destruct (strip_index_prefix o4) as (rest & E & Hr).
  split.
  { intros _. destruct (strip_index o4) as [|z r'] eqn:Er.
    - destruct Hr as [Hr|[pre Hr]]; [by rewrite <- Hr in Ey|by destruct pre].
    - rewrite Ey in E. injection E as <- _. by eexists. }
  repeat split.
  - intros H. apply Hq. rewrite E. apply in_app_iff. by left.
  - intros H. apply Hh. rewrite E. apply in_app_iff. by left.
  - intros H. apply Hs. rewrite E. by apply substring_prefix.
  - intros H. apply endsWith_spec in H. by rewrite strip_index_not_index in H.
Qed.

(** X17.  What [normalizePath] returns is empty, when the path is blank,
    or else a path that begins with a slash, has no [?] and no [#], has
    no two slashes in a row, and does not end in [/index.html], in
    whatever case. *)
Theorem normalizePath_canonical (p : str) :
  (normalizePath p = [] <-> trim p = []) /\
  (normalizePath p <> [] -> exists r', normalizePath p = slash :: r') /\
  ~ In qmark (normalizePath p) /\ ~ In hash (normalizePath p) /\
  ~ substring (lit "//") (normalizePath p) /\
  ~ suffix_of (lit "/index.html") (toLowerCase (normalizePath p)).
Proof.
  split; [apply normalizePath_blank|apply normalizePath_shape].
Qed.

Lemma normalizePath_fixed_point (r r' : str) :
  r = slash :: r' -> trim r = r ->
  ~ In qmark r -> ~ In hash r -> ~ substring (lit "//") r ->
  ~ suffix_of (lit "/index.html") (toLowerCase r) ->
  normalizePath r = r.
Proof.
  intros Er Ht Hq Hh Hs Hi. unfold normalizePath. rewrite Ht.
  rewrite Er at 1. cbn [truthy negb].
  rewrite (split_hd_id qmark r Hq), (split_hd_id hash r Hh).
  assert (startsWith r (lit "/") = true) as ->.
  { apply startsWith_spec. exists r'. by rewrite Er. }
  unfold collapse_slashes. rewrite collapse_slashes_id; [|done|done].
  assert (endsWith (toLowerCase r) (lit "/index.html") = false) as Hend.
  { destruct (endsWith _ _) eqn:E; [|done]. by apply endsWith_spec in E. }
  destruct (str_eqb r (lit "/index.html")) eqn:E.
  { apply str_eqb_spec in E. rewrite E in Hend. done. }
  unfold strip_index. by rewrite Hend.
Qed.

(** X18.  A path in that form, without white space at its end, is left
    as it is: it is a fixed point of [normalizePath].  So [normalizePath]
    is idempotent on every path whose normal form does not end in white
    space. *)
Theorem normalizePath_fixed (p : str) :
  normalizePath p <> [] ->
  trimEnd (normalizePath p) = normalizePath p ->
  normalizePath (normalizePath p) = normalizePath p.
Proof.
  intros Hne Ht.
  destruct (normalizePath_shape p) as (Hs & Hq & Hh & Hd & Hi).
  destruct (Hs Hne) as [r' Er].
  apply (normalizePath_fixed_point _ r'); try done.
  unfold trim. rewrite Er at 1. cbn [trimStart].
  assert (is_space slash = false) as -> by reflexivity.
  by rewrite <- Er.
Qed.

Lemma normalizePath_fixed_witness :
  normalizePath (lit " materials//lvt/index.html?x=1 ") <> [] /\
  normalizePath (normalizePath (lit " materials//lvt/index.html?x=1 ")) =
  lit "/materials/lvt/".
Proof.
  split; [vm_compute; discriminate|].
  rewrite (normalizePath_fixed (lit " materials//lvt/index.html?x=1 "));
    [reflexivity|vm_compute; discriminate|reflexivity].
Defined.

(** ** [fileToUrl] *)

Lemma str_eqb_false s t : str_eqb s t = false <-> s <> t.
Proof. rewrite <- str_eqb_spec. by destruct (str_eqb s t). Qed.

Lemma endsWith_false s t : endsWith s t = false <-> ~ suffix_of t s.
Proof. unfold suffix_of. rewrite <- endsWith_spec. by destruct (endsWith s t). Qed.

(** The three cases of [fileToUrl]. *)
Lemma fileToUrl_cases rel :
  (rel = lit "index.html" /\ fileToUrl rel = lit "/") \/
  (exists dir, rel = dir ++ lit "/index.html" /\ rel <> lit "index.html" /\
               fileToUrl rel = slash :: dir ++ lit "/") \/
  (rel <> lit "index.html" /\ ~ suffix_of (lit "/index.html") rel /\
   fileToUrl rel = slash :: rel).
Proof.
  unfold fileToUrl. destruct (str_eqb rel (lit "index.html")) eqn:E1.
  { left. by apply str_eqb_spec in E1. }
  apply str_eqb_false in E1. right.
  destruct (endsWith rel (lit "/index.html")) eqn:E2.
  - left. apply endsWith_spec in E2 as [dir ->]. exists dir. repeat split; try done.
    rewrite length_app. change (length (lit "/index.html")) with 11.
    change (length (lit "index.html")) with 10.
    replace (length dir + 11 - 10) with (length (dir ++ lit "/")) by (rewrite length_app; simpl; lia).
    change (lit "/index.html") with (lit "/" ++ lit "index.html").
    rewrite app_assoc, take_app_length. done.
  - right. apply endsWith_false in E2. repeat split; try done.
    by destruct (endsWith rel (lit ".html")).
Qed.

(** X19.  Every URL that [fileToUrl] gives begins with a slash, and two
    different files never get the same URL. *)
Theorem fileToUrl_injective (rel1 rel2 : str) :
  file_path rel1 -> file_path rel2 ->
  (exists u, fileToUrl rel1 = slash :: u) /\
  (fileToUrl rel1 = fileToUrl rel2 -> rel1 = rel2).
Proof.
  intros [Hn1 Hs1] [Hn2 Hs2]. split.
  { destruct (fileToUrl_cases rel1) as [[_ ->]|[(dir & _ & _ & ->)|(_ & _ & ->)]];
      by eexists. }
  destruct (fileToUrl_cases rel1) as [[E1 ->]|[(d1 & E1 & N1 & ->)|(N1 & S1 & ->)]];
  destruct (fileToUrl_cases rel2) as [[E2 ->]|[(d2 & E2 & N2 & ->)|(N2 & S2 & ->)]];
    intros H.
  - congruence.
  - injection H as H. by destruct d2.
  - injection H as H. congruence.
  - injection H as H. by destruct d1.
  - injection H as H. apply app_inj_tail in H as [-> _]. congruence.
  - injection H as H. exfalso. apply Hs2. exists d1. done.
  - injection H as H. congruence.
  - injection H as H. exfalso. apply Hs1. exists d2. done.
  - by injection H.
Qed.

Lemma fileToUrl_injective_witness :
  (exists u, fileToUrl (lit "materials/lvt/index.html") = slash :: u) /\
  (fileToUrl (lit "materials/lvt/index.html") = fileToUrl (lit "materials/lvt.html") ->
   lit "materials/lvt/index.html" = lit "materials/lvt.html").
Proof.
  apply (fileToUrl_injective (lit "materials/lvt/index.html") (lit "materials/lvt.html")).
  - split; [discriminate|]. intros [pre H].
    apply (f_equal (@rev ascii)) in H. rewrite rev_app_distr in H. vm_compute in H.
    discriminate.
  - split; [discriminate|]. intros [pre H].
    apply (f_equal (@rev ascii)) in H. rewrite rev_app_distr in H. vm_compute in H.
    discriminate.
Defined.

Lemma trimEnd_clean s : Forall (fun c => is_space c = false) s -> trimEnd s = s.
Proof.
  induction 1 as [|c s Hc _ IH]; [done|].
  cbn [trimEnd]. rewrite IH, Hc. by destruct s.
Qed.

Lemma substring_cons_slash x :
  ~ substring (lit "//") x -> (forall r, x <> slash :: r) ->
  ~ substring (lit "//") (slash :: x).
Proof.
  intros Hx Hr. change (lit "//") with [slash; slash]. rewrite double_slash_cons.
  intros [[_ [s' H]]|H]; [by eapply Hr|done].
Qed.

(** X20.  The URL that [fileToUrl] gives to a lower-case path without
    white space, [?], [#] or empty parts is in the form that
    [normalizePath] keeps: the key under which [loadSearchIndex] files an
    entry of the index is then the URL of the entry itself. *)
Theorem index_url_is_normal (rel : str) :
  toLowerCase rel = rel ->
  Forall (fun c => is_space c = false /\ c <> qmark /\ c <> hash) rel ->
  ~ substring (lit "//") rel ->
  (forall r, rel <> slash :: r) ->
  normalizePath (fileToUrl rel) = fileToUrl rel.
Proof.
  intros Hlow Hchars Hdouble Hhead.
  assert (forall x rest, rel = x ++ rest ->
            (forall r, x <> slash :: r) /\
            ~ substring (lit "//") x /\
            Forall (fun c => is_space c = false /\ c <> qmark /\ c <> hash) x) as Hpre.
  { intros x rest E. rewrite E in Hchars, Hhead, Hdouble.
    apply Forall_app in Hchars as [Hx _]. repeat split; [|by intros H%(substring_prefix _ _ rest)|done].
    intros r ->. by eapply Hhead. }
  assert (forall x, (forall r, x <> slash :: r) -> ~ substring (lit "//") x ->
            Forall (fun c => is_space c = false /\ c <> qmark /\ c <> hash) x ->
            ~ suffix_of (lit "/index.html") (toLowerCase (slash :: x)) ->
            normalizePath (slash :: x) = slash :: x) as Hnorm.
  { intros x Hx Hd Hc Hi. rewrite List.Forall_forall in Hc.
    apply (normalizePath_fixed_point _ x); try done.
    - unfold trim. cbn [trimStart]. assert (is_space slash = false) as -> by reflexivity.
      apply trimEnd_clean. constructor; [done|].
      apply List.Forall_forall. intros c Hin. by apply Hc.
    - intros [H|H]; [done|]. by apply Hc in H as (_ & H & _).
    - intros [H|H]; [done|]. by apply Hc in H as (_ & _ & H).
    - by apply substring_cons_slash. }
  destruct (fileToUrl_cases rel) as [[E ->]|[(dir & E & N & ->)|(N & S & ->)]].
  - reflexivity.
  - change (lit "/index.html") with (lit "/" ++ lit "index.html") in E.
    rewrite app_assoc in E. destruct (Hpre _ _ E) as (H1 & H2 & H3).
    apply Hnorm; try done.
    intros [pre H]. change (slash :: dir ++ lit "/") with ((slash :: dir) ++ lit "/") in H.
    rewrite toLowerCase_app in H.
    change (lit "/index.html") with (lit "/index.htm" ++ lit "l") in H.
    rewrite app_assoc in H. apply app_inj_tail in H as [_ H]. vm_compute in H. discriminate.
  - destruct (Hpre rel [] (eq_sym (app_nil_r rel))) as (H1 & H2 & H3).
    apply Hnorm; try done.
    intros [pre H]. cbn [toLowerCase map] in H. fold (toLowerCase rel) in H.
    rewrite Hlow in H. change (lower_char slash) with slash in H.
    destruct pre as [|c pre].
    + injection H as H. by apply N.
    + injection H as _ H. apply S. by exists pre.
Qed.

Lemma index_url_is_normal_witness :
  normalizePath (fileToUrl (lit "materials/lvt/index.html")) = lit "/materials/lvt/".
Proof.
  rewrite (index_url_is_normal (lit "materials/lvt/index.html")).
  - reflexivity.
  - reflexivity.
  - repeat constructor; discriminate.
  - intros H. apply includes_spec in H. vm_compute in H. discriminate.
  - discriminate.
Defined.

(** ** [buildTopPages] *)

Lemma str_eqb_refl s : str_eqb s s = true.
Proof. by apply str_eqb_spec. Qed.

Lemma Map_get_set {V} (m : list (str * V)) key (value : V) key' :
  Map_get (Map_set m key value) key' =
  if str_eqb key key' then Some value else Map_get m key'.
Proof.
  induction m as [|[k v] m IH]; simpl.
  - done.
  - destruct (str_eqb k key) eqn:E; simpl.
    + apply str_eqb_spec in E. subst k. by destruct (str_eqb key key').
    + rewrite IH. destruct (str_eqb k key') eqn:E'; [|done].
      apply str_eqb_spec in E'. subst k.
      destruct (str_eqb key key') eqn:E''; [|done].
      apply str_eqb_spec in E''. subst key'. by rewrite str_eqb_refl in E.
Qed.

(** The entry that the map has for a key is the last one of the index
    with that key. *)
Lemma loadSearchIndex_get (idx : list IndexEntry) (m0 : list (str * IndexEntry)) u found :
  Map_get (fold_left (fun map item => Map_set map (normalizePath (url item)) item) idx m0) u
    = Some found ->
  (Map_get m0 u = Some found /\
   Forall (fun item => normalizePath (url item) <> u) idx) \/
  exists before after,
    idx = before ++ found :: after /\ normalizePath (url found) = u /\
    Forall (fun item => normalizePath (url item) <> u) after.
Proof.
  revert m0. induction idx as [|item idx IH]; intros m0; cbn [fold_left].
  - intros H. left. by split.
  - intros H. apply IH in H as [[H Hall]|(before & after & -> & H1 & H2)].
    + rewrite Map_get_set in H.
      destruct (str_eqb (normalizePath (url item)) u) eqn:E.
      * injection H as <-. apply str_eqb_spec in E. right. by exists [], idx.
      * apply str_eqb_false in E. left. split; [done|]. by constructor.
    + right. by exists (item :: before), after.
Qed.

Lemma push_loop {A B} (f : A -> option B) (rows : list A) (acc : list B) :
  length (fold_left (fun items row => match f row with
                                      | Some item => items ++ [item]
                                      | None => items
                                      end) rows acc) <= length acc + length rows /\
  forall x, In x (fold_left (fun items row => match f row with
                                               | Some item => items ++ [item]
                                               | None => items
                                               end) rows acc) ->
            In x acc \/ exists row, In row rows /\ f row = Some x.
Proof.
  revert acc. induction rows as [|row rows IH]; intros acc; cbn [fold_left].
  - split; [simpl; lia|auto].
  - destruct (IH (match f row with Some item => acc ++ [item] | None => acc end))
      as [H1 H2].
    split.
    + etransitivity; [exact H1|]. destruct (f row); rewrite ?length_app; simpl; lia.
    + intros x Hx. apply H2 in Hx as [Hx|(r & Hr & E)].
      * destruct (f row) eqn:E; [|by left].
        apply in_app_iff in Hx as [Hx|[<-|[]]]; [by left|].
        right. exists row. split; [by left|done].
      * right. exists r. split; [by right|done].
Qed.

Lemma views_after x y :
  x <> NaN -> y <> NaN -> num_pos (num_sub y x) = negb (num_ge x y).
Proof.
  destruct x as [|s|a], y as [|s'|b]; try done; intros _ _;
    try (by destruct s, s'); try (by destruct s); try (by destruct s').
  simpl. f_equal.
  destruct (Qle_bool (b + - a) 0) eqn:E1, (Qle_bool b a) eqn:E2; try done.
  - apply Qle_bool_iff in E1. assert (b <= a)%Q as H by lra.
    apply Qle_bool_iff in H. congruence.
  - apply Qle_bool_iff in E2. assert (b + - a <= 0)%Q as H by lra.
    apply Qle_bool_iff in H. congruence.
Qed.

Lemma num_ge_trans x y z :
  x <> NaN -> y <> NaN -> z <> NaN ->
  num_ge x y = true -> num_ge y z = true -> num_ge x z = true.
Proof.
  destruct x as [|s|a], y as [|s'|b], z as [|s''|c]; try done; intros _ _ _; simpl;
    try (rewrite !Qle_bool_iff; lra);
    repeat match goal with s : bool |- _ => destruct s end; simpl; done.
Qed.

Lemma num_ge_total x y :
  x <> NaN -> y <> NaN -> num_ge x y = false -> num_ge y x = true.
Proof.
  destruct x as [|s|a], y as [|s'|b]; try done; intros _ _; simpl;
    try (repeat match goal with s : bool |- _ => destruct s end; simpl; done).
  intros H. apply Qle_bool_iff.
  destruct (Qle_bool b a) eqn:E; [done|].
  destruct (Qlt_le_dec a b) as [Hlt|Hle]; [lra|].
  apply Qle_bool_iff in Hle. congruence.
Qed.

Lemma or_zero_number x : or_zero x <> NaN.
Proof. destruct x as [|s|q]; simpl; try done. by destruct (Qeq_bool q 0). Qed.

Section TopPagesFacts.

Variable Number : str -> number.

Lemma row_item_spec indexMap row it :
  row_item Number indexMap row = Some it ->
  row_path row <> [] /\ ~ In (row_path row) BLOCKED_EXACT /\
  (forall prefix, In prefix BLOCKED_PREFIXES -> startsWith (row_path row) prefix = false) /\
  exists found,
    Map_get indexMap (row_path row) = Some found /\
    it = {| TopPage.title := title found;
            TopPage.url := url found;
            TopPage.blurb := or_else (snippet found) [];
            TopPage.score := row_views Number row |}.
Proof.
  unfold row_item. fold (row_path row). fold (row_views Number row).
  set (u := row_path row). intros H.
  destruct (truthy u) eqn:Et; [|done]. cbn [negb] in H.
  destruct (has BLOCKED_EXACT u) eqn:Eb; [done|].
  destruct (existsb _ BLOCKED_PREFIXES) eqn:Ep; [done|].
  destruct (Map_get indexMap u) as [found|] eqn:Eg; [|done].
  injection H as <-. repeat split.
  - by destruct u.
  - by apply has_false.
  - intros prefix Hp. destruct (startsWith u prefix) eqn:E; [|done].
    assert (existsb (fun prefix => startsWith u prefix) BLOCKED_PREFIXES = true) as H.
    { apply existsb_exists. by exists prefix. }
    congruence.
  - by exists found.
Qed.

(** X21.  The list of [buildTopPages], for the map that
    [loadSearchIndex] makes of an index: it is sorted by views, most
    first, and has at most one item for a row of the report.  Every item
    has the title, the URL and the snippet of an entry of the index whose
    normalized URL is the normalized path of the row, and the views of
    that row; this path is none of the blocked ones and lies in no
    blocked section; and among the entries of the index with that
    normalized URL the item shows the last one. *)
Theorem buildTopPages_spec (gaRows : list GaRow) (idx : list IndexEntry) :
  let items := buildTopPages Number gaRows (loadSearchIndex idx) in
  length items <= length gaRows /\
  StronglySorted (fun a b => num_ge (TopPage.score a) (TopPage.score b) = true) items /\
  forall it, In it items ->
    exists row before found after,
      In row gaRows /\ idx = before ++ found :: after /\
      normalizePath (url found) = row_path row /\
      Forall (fun item => normalizePath (url item) <> row_path row) after /\
      ~ In (row_path row) BLOCKED_EXACT /\
      (forall prefix, In prefix BLOCKED_PREFIXES ->
                      ~ exists rest, row_path row = prefix ++ rest) /\
      it = {| TopPage.title := title found;
              TopPage.url := url found;
              TopPage.blurb := or_else (snippet found) [];
              TopPage.score := row_views Number row |}.
Proof.
  intros items. unfold buildTopPages in items.
  set (after := fun a b => num_pos (num_sub (TopPage.score b) (TopPage.score a))) in items.
  set (pushed := fold_left _ gaRows []) in items.
  destruct (push_loop (row_item Number (loadSearchIndex idx)) gaRows []) as [Hlen Hin].
  fold pushed in Hlen, Hin.
  assert (forall it, In it pushed ->
            exists row, In row gaRows /\
                        row_item Number (loadSearchIndex idx) row = Some it) as Hrow.
  { intros it Hit. by apply Hin in Hit as [[]|H]. }
  assert (Forall (fun it => TopPage.score it <> NaN) pushed) as Hnum.
  { apply List.Forall_forall. intros it Hit. apply Hrow in Hit as (row & _ & H).
    apply row_item_spec in H as (_ & _ & _ & found & _ & ->). apply or_zero_number. }
  split; [|split].
  - unfold items. rewrite (Permutation_length (sort_Permutation after pushed)).
    simpl in Hlen. lia.
  - apply (StronglySorted_on (fun it => TopPage.score it <> NaN)
             (fun a b => after a b = false)).
    + apply List.Forall_forall. intros it Hit. apply sort_In in Hit.
      rewrite List.Forall_forall in Hnum. by apply Hnum.
    + intros a b Ha Hb. unfold after. rewrite views_after by done.
      by destruct (num_ge _ _).
    + apply (sort_sorted after (fun it => TopPage.score it <> NaN)); [| |exact Hnum].
      * intros x y Hx Hy. unfold after. rewrite !views_after by done.
        destruct (num_ge (TopPage.score x) (TopPage.score y)) eqn:E; [done|].
        intros _. by rewrite (num_ge_total _ _ Hx Hy E).
      * intros x y z Hx Hy Hz. unfold after. rewrite !views_after by done.
        destruct (num_ge (TopPage.score x) (TopPage.score y)) eqn:E1; [|done].
        destruct (num_ge (TopPage.score y) (TopPage.score z)) eqn:E2; [|done].
        by rewrite (num_ge_trans _ _ _ Hx Hy Hz E1 E2).
  - intros it Hit. apply sort_In, Hrow in Hit as (row & Hr & H).
    apply row_item_spec in H as (Hne & Hex & Hpre & found & Hget & ->).
    apply loadSearchIndex_get in Hget as [[Hget _]|(before & aft & E & Hu & Hlast)];
      [done|].
    exists row, before, found, aft. repeat split; try done.
    intros prefix Hp [rest E']. specialize (Hpre prefix Hp).
    assert (startsWith (row_path row) prefix = true) as H.
    { apply startsWith_spec. by exists rest. }
    congruence.
Qed.

End TopPagesFacts.

(** ** [stripQueryAndHash] *)

Lemma stripQueryAndHash_cons c href :
  stripQueryAndHash (c :: href) =
  if Ascii.eqb c qmark || Ascii.eqb c hash then [] else c :: stripQueryAndHash href.
Proof.
  unfold stripQueryAndHash. cbn [indexOf].
  destruct (Ascii.eqb_spec c qmark) as [->|Hq].
  - simpl. by destruct (indexOf href hash).
  - destruct (Ascii.eqb_spec c hash) as [->|Hh].
    + simpl. by destruct (indexOf href qmark).
    + cbn [orb]. by destruct (indexOf href qmark), (indexOf href hash).
Qed.

(** X22.  [stripQueryAndHash] cuts a link at its first [?] or [#], and
    only there: what it returns has neither character, and what it drops
    is nothing or begins with one of them.  It is the cut that
    [normalizePath] makes with [split]. *)
Theorem stripQueryAndHash_spec (href : str) :
  ~ In qmark (stripQueryAndHash href) /\
  ~ In hash (stripQueryAndHash href) /\
  (exists rest,
     href = stripQueryAndHash href ++ rest /\
     (rest = [] \/ exists r, rest = qmark :: r \/ rest = hash :: r)) /\
  stripQueryAndHash href = hd [] (split hash (hd [] (split qmark href))).
Proof.
  induction href as [|c href (IHq & IHh & (rest & IHr & IHc) & IHs)].
  - repeat split; try (by intros []). exists []. split; [done|by left].
  - rewrite stripQueryAndHash_cons, !split_cons.
    destruct (Ascii.eqb_spec c qmark) as [->|Hq]; cbn [orb].
    { repeat split; try (by intros []).
      exists (qmark :: href). split; [done|]. right. exists href. by left. }
    rewrite split_cons.
    destruct (Ascii.eqb_spec c hash) as [->|Hh].
    { repeat split; try (by intros []).
      exists (hash :: href). split; [done|]. right. exists href. by right. }
    repeat split.
    + intros [H|H]; done.
    + intros [H|H]; done.
    + exists rest. split; [|done]. simpl. by rewrite <- IHr.
    + by rewrite IHs.
Qed.

(** ** [escapeXml], [escapeHtmlAttr] and the sitemap *)

Lemma escapeXml_chars (s : str) : escapeXml s = flat_map xml_char s.
Proof.
  unfold escapeXml.
  change (lit "'") with [ascii_of_nat 39].
  change (lit ">") with [ascii_of_nat 62].
  change (lit "<") with [ascii_of_nat 60].
  change (lit "&") with [ampersand].
  rewrite !replaceAll_char, !flat_map_flat_map.
  apply flat_map_ext. intros c. each_char c; reflexivity.
Qed.

Lemma escapeHtmlAttr_chars (s : str) : escapeHtmlAttr s = flat_map attr_char s.
Proof.
  unfold escapeHtmlAttr.
  change (lit ">") with [ascii_of_nat 62].
  change (lit "<") with [ascii_of_nat 60].
  change (lit "&") with [ampersand].
  rewrite !replaceAll_char, !flat_map_flat_map.
  apply flat_map_ext. intros c. each_char c; reflexivity.
Qed.

Lemma flat_map_inj (f : ascii -> str) (s t : str) :
  (forall c, f c <> []) ->
  (forall c d x y, f c ++ x = f d ++ y -> c = d /\ x = y) ->
  flat_map f s = flat_map f t -> s = t.
Proof.
  intros Hne Hpf. revert t. induction s as [|c s IH]; intros [|d t] H; cbn [flat_map] in H.
  - done.
  - symmetry in H. apply app_eq_nil in H as [H _]. by apply Hne in H.
  - apply app_eq_nil in H as [H _]. by apply Hne in H.
  - apply Hpf in H as [-> H]. f_equal. by apply IH.
Qed.

Lemma xml_char_prefix_free (c d : ascii) (x y : str) :
  xml_char c ++ x = xml_char d ++ y -> c = d /\ x = y.
Proof.
  unfold xml_char. case_chars; cbn; intros H; try discriminate H;
  try (injection H as <-; congruence);
  try (injection H as ->; congruence);
  try (injection H as -> ->; done);
  try (injection H as ->; done); try (by injection H).
Qed.

Lemma attr_char_prefix_free (c d : ascii) (x y : str) :
  attr_char c ++ x = attr_char d ++ y -> c = d /\ x = y.
Proof.
  unfold attr_char. case_chars; cbn; intros H; try discriminate H;
  try (injection H as <-; congruence);
  try (injection H as ->; congruence);
  try (injection H as -> ->; done);
  try (injection H as ->; done); try (by injection H).
Qed.

(** X23.  The text that [escapeXml] writes has no [<], [>] or quote, and
    the text that [escapeHtmlAttr] writes has no [<], [>] or double
    quote; both lose nothing: two texts with the same escaped form are
    the same text. *)
Theorem script_escapers_safe (s t : str) :
  Forall (fun c => is_markup c = false) (escapeXml s) /\
  Forall (fun c => is_markup c = false \/ c = ascii_of_nat 39) (escapeHtmlAttr s) /\
  (escapeXml s = escapeXml t -> s = t) /\
  (escapeHtmlAttr s = escapeHtmlAttr t -> s = t).
Proof.
  rewrite !escapeXml_chars, !escapeHtmlAttr_chars. repeat split.
  - induction s as [|c s IH]; [constructor|].
    cbn [flat_map]. apply Forall_app. split; [|done].
    each_char c; repeat constructor.
  - induction s as [|c s IH]; [constructor|].
    cbn [flat_map]. apply Forall_app. split; [|done].
    each_char c; repeat (constructor; [first [by left|by right]|]); constructor.
  - apply flat_map_inj; [|apply xml_char_prefix_free].
    intros c. each_char c; discriminate.
  - apply flat_map_inj; [|apply attr_char_prefix_free].
    intros c. each_char c; discriminate.
Qed.

Lemma fileToUrl_truthy rel : truthy (fileToUrl rel) = true.
Proof.
  destruct (fileToUrl_cases rel) as [[_ ->]|[(dir & _ & _ & ->)|(_ & _ & ->)]]; done.
Qed.

(** X24.  The sitemap lists every URL of a file once: the URLs of
    [unique] are those that [fileToUrl] gives to the files, except the
    ones in an excluded section, without repetition, and, for a
    consistent collation, in its order.  The test that the URL is not
    empty never removes one. *)
Theorem sitemap_urls (localeCompare : str -> str -> Z) (rels : list str) :
  (forall s t, (0 < localeCompare s t)%Z -> (localeCompare t s <= 0)%Z) ->
  (forall s t u, (localeCompare s t <= 0)%Z -> (localeCompare t u <= 0)%Z ->
                 (localeCompare s u <= 0)%Z) ->
  List.NoDup (unique localeCompare rels) /\
  (forall u, In u (unique localeCompare rels) <->
     exists rel, In rel rels /\ fileToUrl rel = u /\
       forall p, In p EXCLUDE_URL_PREFIXES -> ~ exists rest, u = p ++ rest) /\
  StronglySorted (fun a b => (localeCompare a b <= 0)%Z) (unique localeCompare rels).
Proof.
  intros Hasym Htrans. unfold unique.
  set (urls := List.filter _ (map fileToUrl rels)).
  destruct (Set_from_spec urls [] (List.NoDup_nil _)) as [Hn Hin]. fold (Set_of urls) in Hn, Hin.
  split; [|split].
  - eapply Permutation_NoDup; [|exact Hn]. symmetry. apply sort_Permutation.
  - intros u. rewrite sort_In, Hin. unfold urls.
    rewrite List.filter_In, in_map_iff, andb_true_iff, negb_true_iff. split.
    + intros [[]|[(rel & <- & Hrel) [_ Hex]]]. exists rel. repeat split; try done.
      intros p Hp [rest E].
      assert (existsb (fun p => startsWith (fileToUrl rel) p) EXCLUDE_URL_PREFIXES = true) as H.
      { apply existsb_exists. exists p. split; [done|]. apply startsWith_spec. by exists rest. }
      congruence.
    + intros (rel & Hrel & <- & Hex). right. split; [by exists rel|].
      split; [apply fileToUrl_truthy|].
      destruct (existsb _ _) eqn:E; [|done].
      apply existsb_exists in E as (p & Hp & E). apply startsWith_spec in E.
      by apply Hex in Hp.
  - eapply StronglySorted_weaken;
      [|apply (sort_sorted _ (fun _ => True)); [..|by apply List.Forall_forall]].
    + intros a b H. cbn beta in H. by apply Z.ltb_ge in H.
    + intros x y _ _. rewrite Z.ltb_lt, Z.ltb_ge. apply Hasym.
    + intros x y z _ _ _. rewrite !Z.ltb_ge. apply Htrans.
Qed.

Lemma sitemap_urls_witness :
  List.NoDup (unique codeUnitCompare [lit "specs/a.html"; lit "index.html"; lit "index.html"]) /\
  (forall u, In u (unique codeUnitCompare [lit "specs/a.html"; lit "index.html"; lit "index.html"]) <->
     exists rel, In rel [lit "specs/a.html"; lit "index.html"; lit "index.html"] /\
       fileToUrl rel = u /\
       forall p, In p EXCLUDE_URL_PREFIXES -> ~ exists rest, u = p ++ rest) /\
  StronglySorted (fun a b => (codeUnitCompare a b <= 0)%Z)
    (unique codeUnitCompare [lit "specs/a.html"; lit "index.html"; lit "index.html"]).
Proof.
  exact (sitemap_urls codeUnitCompare [lit "specs/a.html"; lit "index.html"; lit "index.html"]
           codeUnitCompare_asym codeUnitCompare_trans).
Defined.
(** ** Examples *)

(** For the example index and the query "lvt", [searchIndex] returns the
    LVT entry alone, with score 9 (title 4, keyword 3, URL 1, token
    bonus 1); the Laminate entry scores 0 and is left out. *)
Example lvt_query_example (localeCompare : str -> str -> Z) :
  searchIndex localeCompare example_index (lit "lvt")
    = [{| entry := lvt_entry; __score := 9 |}] /\
  __score (score_item (lit "lvt") laminate_entry) = 0%Z.
Proof. split; reflexivity. Qed.

(** A query whose normalized form has fewer than 2 characters, such as
    "l", gets no suggestion, whatever the index. *)
Example short_query_no_suggestions (index : list IndexEntry) (limit : option nat) :
  getDidYouMeanSuggestions index (lit "l") limit = Some [].
Proof. reflexivity. Qed.

Example normalize_example :
  normalize (lit "  Luxury Vinyl-Tile (LVT)!  ") = lit "luxury vinyl tile lvt".
Proof. reflexivity. Qed.

Example split_example :
  split space (lit "wear  layer ") = [lit "wear"; lit ""; lit "layer"; lit ""] /\
  split_ws (lit " wear  layer") = [lit ""; lit "wear"; lit "layer"] /\
  words (lit "Wear  Layer ") = [lit "wear"; lit "layer"].
Proof. repeat split. Qed.

Example levenshtein_example :
  levenshtein (lit "kitten") (lit "Sitting") = Some 3 /\
  levenshtein (lit "flaw") (lit "lawn") = Some 2.
Proof. split; reflexivity. Qed.

Example overlapScore_example :
  overlapScore (lit "floor") (lit "Flooring stuff") = Num (1 # 2) /\
  overlapScore (lit "flooring") (lit "floor") = Num 1.
Proof. split; reflexivity. Qed.

Example sort_example :
  sort (fun x y => y <? x) [3; 1; 2; 1] = [1; 1; 2; 3] /\
  sort (fun x y => fst y <? fst x) [(2, 0); (1, 1); (2, 2); (1, 3)]
    = [(1, 1); (1, 3); (2, 0); (2, 2)].
Proof. split; reflexivity. Qed.

Example escapeHtml_example :
  escapeHtml (lit "a<b & 'c'") = lit "a&lt;b &amp; &#039;c&#039;".
Proof. reflexivity. Qed.

Example tokenize_example :
  tokenize (lit "  Hello,   World!! it's 42 ")
    = [lit "hello"; lit "world"; lit "it"; lit "s"; lit "42"].
Proof. reflexivity. Qed.

Example buildKeywords_example :
  buildKeywords codeUnitCompare (lit "Wear Layer - Flooring Reference") (lit "Wear Layer")
    [lit "What is the wear layer?"] (lit "The wear layer protects the floor.")
    = [lit "wear layer"; lit "layer flooring";
       lit "layer"; lit "wear"; lit "flooring"; lit "floor"; lit "protects"].
Proof. vm_compute. reflexivity. Qed.

Example fileToUrl_example :
  fileToUrl (lit "index.html") = lit "/" /\
  fileToUrl (lit "materials/lvt/index.html") = lit "/materials/lvt/" /\
  fileToUrl (lit "specs/wear-layer.html") = lit "/specs/wear-layer.html".
Proof. repeat split. Qed.

Example normalizePath_example :
  normalizePath (lit "  /materials//lvt/index.html?x=1#top ") = lit "/materials/lvt/" /\
  normalizePath (lit "materials/lvt") = lit "/materials/lvt" /\
  normalizePath (lit "/INDEX.HTML") = lit "/" /\
  normalizePath (lit "   ") = lit "".
Proof. repeat split. Qed.

(** White space before a [?] stays at the end of the normalized path and
    is trimmed by a second pass, which can then see [index.html] at the
    end: [normalizePath] is not idempotent on every path. *)
Example normalizePath_not_idempotent :
  normalizePath (lit "/index.html ?x") = lit "/index.html " /\
  normalizePath (lit "/index.html ") = lit "/".
Proof. split; reflexivity. Qed.

(** ** Fractions and doubles

    The combined score is computed in doubles.  The fraction [hits/max +
    bonus] equals the threshold 0.35 only for the ratios 1/10 (bonus
    0.25), 1/5 (bonus 0.15) and 7/20 (bonus 0); at these three the double
    reaches the double 0.35 as well. *)
Remark binary64_threshold :
  (PrimFloat.leb 0.35 (1 / 10 + 0.25) = true /\
   PrimFloat.leb 0.35 (1 / 5 + 0.15) = true /\
   PrimFloat.leb 0.35 (7 / 20 + 0) = true /\
   PrimFloat.leb 0.35 (1 / 8 + 0) = false /\
   PrimFloat.eqb (1 / 5 + 0.25) (3 / 10 + 0.15) = false)%float.
Proof. repeat split. Qed.

(** Two sums that are equal as fractions can differ in the last bit as
    doubles, and the sort follows the doubles: for "oak wood floor" the
    two oak entries score 3/10 + 0.15 and 3/15 + 0.25, both 9/20 as
    fractions; the doubles are 0.44999999999999996 and 0.45, and the
    second entry of the index goes first. *)
Example rounded_scores_order :
  suggest_item (normalize (lit "oak wood floor")) oak_flooring_entry
    = Some {| item := oak_flooring_entry; score := 0.44999999999999996 |} /\
  suggest_item (normalize (lit "oak wood floor")) oak_floor_entry
    = Some {| item := oak_floor_entry; score := 0.45 |} /\
  overlap_ratio (lit "oak wood floor") (suggestion_haystack oak_flooring_entry) = (3 # 10)%Q /\
  overlap_ratio (lit "oak wood floor") (suggestion_haystack oak_floor_entry) = (3 # 15)%Q /\
  ((3 # 10) + 0.15 == (3 # 15) + 0.25)%Q /\
  getDidYouMeanSuggestions [oak_flooring_entry; oak_floor_entry]
    (lit "oak wood floor") None = Some [oak_floor_entry; oak_flooring_entry].
Proof. repeat split; vm_compute; reflexivity. Qed.
